(** * Rankfor Open: dice-roller stability analysis and brand detector

    A shallow embedding of the text-analysis core of [@rankfor/dice-roller]
    (cleanResponse, analyzeSentiment, extractBrandMentions, extractKeyPoints,
    the key-point clusterer, classifyKeyMessages, calculateConfidenceScore,
    analyzeStability) and of [BrandDetector.detectBrands], with the
    properties the specification states about them.

    Conventions of the embedding.
    - A JavaScript string is a sequence of UTF-16 code units; the embedding
      covers the code units 0..255 (ASCII and Latin-1), one [ascii] each.
    - A JavaScript number that takes fractional values is a binary64 float
      ([PrimFloat.float], the same IEEE 754 format); lengths, counts and
      indices are [nat] or [Z].
    - [Map] and [Set] are insertion-ordered: association lists and
      duplicate-free lists, in insertion order.  An object used as a lookup
      table ([abbreviationMap], [keyPointFrequency]) is a finite map on its
      own keys.
    - [Array.prototype.sort] is a stable sort (ECMAScript 2019).
    - Callbacks and the console are observers: their calls are recorded in
      an event trace.  The LLM transport is a parameter giving the outcome
      of the query of each iteration. *)

From Stdlib Require Import Bool Arith ZArith Ascii String List Lia.
From Stdlib Require Import Permutation Sorted.
From Stdlib Require Import Floats Uint63.
Import ListNotations.

Set Warnings "-inexact-float".
Set Implicit Arguments.

(* ================================================================== *)
(** ** JavaScript strings *)
(* ================================================================== *)

Definition jsstring := list ascii.

Definition str (s : string) : jsstring := list_ascii_of_string s.

Definition code (c : ascii) : nat := nat_of_ascii c.

Definition in_range (lo hi : nat) (c : ascii) : bool :=
  (lo <=? code c) && (code c <=? hi).

Fixpoint str_eqb (a b : jsstring) : bool :=
  match a, b with
  | [], [] => true
  | x :: a', y :: b' => Ascii.eqb x y && str_eqb a' b'
  | _, _ => false
  end.

Definition str_mem (w : jsstring) (l : list jsstring) : bool :=
  existsb (str_eqb w) l.

(** [\d] *)
Definition isDigit (c : ascii) : bool := in_range 48 57 c.

(** [\w]: [A-Za-z0-9_] *)
Definition isWordChar (c : ascii) : bool :=
  in_range 65 90 c || in_range 97 122 c || isDigit c || (code c =? 95).

(** LineTerminator: LF and CR (U+2028 and U+2029 lie outside Latin-1). *)
Definition isLineTerminator (c : ascii) : bool :=
  (code c =? 10) || (code c =? 13).

(** [\s] and the characters [String.prototype.trim] strips:
    TAB, LF, VT, FF, CR, SPACE, NBSP. *)
Definition isSpace (c : ascii) : bool :=
  in_range 9 13 c || (code c =? 32) || (code c =? 160).

(** [\p{L}] restricted to Latin-1. *)
Definition isLetter (c : ascii) : bool :=
  in_range 65 90 c || in_range 97 122 c
  || (code c =? 170) || (code c =? 181) || (code c =? 186)
  || in_range 192 214 c || in_range 216 246 c || in_range 248 255 c.

(** [\p{N}] restricted to Latin-1. *)
Definition isNumber (c : ascii) : bool :=
  isDigit c || (code c =? 178) || (code c =? 179) || (code c =? 185)
  || in_range 188 190 c.

(** Upper-case code units of Latin-1: A-Z and U+00C0..U+00DE except U+00D7. *)
Definition isUpper (c : ascii) : bool :=
  in_range 65 90 c || (in_range 192 222 c && negb (code c =? 215)).

Definition toLowerChar (c : ascii) : ascii :=
  if isUpper c then ascii_of_nat (code c + 32) else c.

(** [String.prototype.toLowerCase] *)
Definition toLowerCase (s : jsstring) : jsstring := map toLowerChar s.

(** Equality of two code units under the [i] flag of a regular expression. *)
Definition caseless_eqb (a b : ascii) : bool :=
  Ascii.eqb (toLowerChar a) (toLowerChar b).

Fixpoint dropWhile (A : Type) (p : A -> bool) (l : list A) : list A :=
  match l with
  | [] => []
  | x :: l' => if p x then dropWhile p l' else l
  end.

Fixpoint takeWhile (A : Type) (p : A -> bool) (l : list A) : list A :=
  match l with
  | [] => []
  | x :: l' => if p x then x :: takeWhile p l' else []
  end.

Definition trimStart (s : jsstring) : jsstring := dropWhile isSpace s.
Definition trimEnd (s : jsstring) : jsstring := rev (dropWhile isSpace (rev s)).

(** [String.prototype.trim] *)
Definition trim (s : jsstring) : jsstring := trimEnd (trimStart s).

(** [s.substring(0, n)] for [0 <= n] *)
Definition substring0 (n : nat) (s : jsstring) : jsstring := firstn n s.

(** [s.substring(a, b)] for [0 <= a <= b] *)
Definition substring (a b : nat) (s : jsstring) : jsstring :=
  firstn (b - a) (skipn a s).

Fixpoint startsWith (p s : jsstring) : bool :=
  match p, s with
  | [], _ => true
  | x :: p', y :: s' => Ascii.eqb x y && startsWith p' s'
  | _ :: _, [] => false
  end.

(** [s.includes(p)] *)
Fixpoint includes (s p : jsstring) : bool :=
  startsWith p s ||
  match s with
  | [] => false
  | _ :: s' => includes s' p
  end.

(** [s.split(sep)] for a separator that is a character class repeated
    ([/[...]+/]): the pieces between maximal runs of separator characters.
    [cur] is the piece being read, reversed; [insep] tells that the previous
    character was a separator. *)
Fixpoint split_runs_aux (sep : ascii -> bool) (s : jsstring)
    (cur : jsstring) (insep : bool) : list jsstring :=
  match s with
  | [] => [rev cur]
  | c :: s' =>
      if sep c then
        if insep then split_runs_aux sep s' cur true
        else rev cur :: split_runs_aux sep s' [] true
      else split_runs_aux sep s' (c :: cur) false
  end.

Definition split_runs (sep : ascii -> bool) (s : jsstring) : list jsstring :=
  split_runs_aux sep s [] false.

(** [s.split(' ')]: every single space separates. *)
Fixpoint split_char_aux (sep : ascii) (s : jsstring) (cur : jsstring)
    : list jsstring :=
  match s with
  | [] => [rev cur]
  | c :: s' =>
      if Ascii.eqb c sep then rev cur :: split_char_aux sep s' []
      else split_char_aux sep s' (c :: cur)
  end.

Definition split_char (sep : ascii) (s : jsstring) : list jsstring :=
  split_char_aux sep s [].

(* ================================================================== *)
(** ** JavaScript [Set], numbers and [Math] *)
(* ================================================================== *)

(** [set.add(x)] on an insertion-ordered set. *)
Definition set_add (A : Type) (eqb : A -> A -> bool) (x : A) (l : list A)
    : list A :=
  if existsb (eqb x) l then l else l ++ [x].

(** [new Set(l)] *)
Definition set_of_list (A : Type) (eqb : A -> A -> bool) (l : list A)
    : list A :=
  fold_left (fun acc x => set_add eqb x acc) l [].

Definition Set_str (l : list jsstring) : list jsstring :=
  set_of_list str_eqb l.

Open Scope float_scope.

(** A count or an index as a JavaScript number (exact below 2^53). *)
Definition num_of_Z (z : Z) : float :=
  if (z <? 0)%Z then - of_uint63 (Uint63.of_Z (- z))
  else of_uint63 (Uint63.of_Z z).

Definition num (n : nat) : float := num_of_Z (Z.of_nat n).

(** The value of a finite non-zero float as [X * 2^e], [X] a signed integer. *)
Definition signed (s : bool) (m : positive) : Z :=
  if s then Zneg m else Zpos m.

(** The mathematical value of [Math.floor x] for a finite [x]. *)
Definition floor_Z (x : float) : option Z :=
  match Prim2SF x with
  | S754_zero _ => Some 0%Z
  | S754_finite s m e =>
      Some (if (0 <=? e)%Z then signed s m * 2 ^ e
            else signed s m / 2 ^ (- e))%Z
  | _ => None
  end.

(** [Math.floor] of a number known to be a non-negative index. *)
Definition floor_nat (x : float) : nat :=
  match floor_Z x with
  | Some z => Z.to_nat z
  | None => 0
  end.

(** [Math.round]: the nearest integer, ties towards +infinity; NaN, the
    infinities and the zeros are returned unchanged, and a result of zero
    keeps the sign of the argument. *)
Definition Math_round (x : float) : float :=
  match Prim2SF x with
  | S754_finite s m e =>
      if (0 <=? e)%Z then x
      else
        let d := (2 ^ (- e))%Z in
        let n := ((2 * signed s m + d) / (2 * d))%Z in
        if (n =? 0)%Z then (if s then (-0)%float else 0%float)
        else num_of_Z n
  | _ => x
  end.

Definition is_neg_zero (x : float) : bool :=
  match classify x with
  | NZero => true
  | _ => false
  end.

(** [Math.max(a, b)] *)
Definition Math_max (a b : float) : float :=
  if is_nan a || is_nan b then nan
  else if a <? b then b
  else if b <? a then a
  else if is_neg_zero a then b else a.

(** [Math.min(a, b)] *)
Definition Math_min (a b : float) : float :=
  if is_nan a || is_nan b then nan
  else if a <? b then a
  else if b <? a then b
  else if is_neg_zero a then a else b.

(** [a >= b] on numbers. *)
Definition num_ge (a b : float) : bool := b <=? a.

Close Scope float_scope.

(* ================================================================== *)
(** ** dice-roller: constants *)
(* ================================================================== *)

Definition STOP_WORDS : list jsstring := map str
  [ "the"; "a"; "an"; "and"; "or"; "but"; "in"; "on"; "at"; "to"; "for"; "of";
    "with"; "by"; "from"; "as"; "is"; "was"; "are"; "were"; "been"; "be"; "have";
    "has"; "had"; "do"; "does"; "did"; "will"; "would"; "could"; "should"; "may";
    "might"; "must"; "shall"; "can"; "need"; "that"; "which"; "who"; "whom";
    "this"; "these"; "those"; "it"; "its"; "they"; "them"; "their"; "our"; "your";
    "his"; "her"; "we"; "you"; "i"; "me"; "my"; "also"; "more"; "most"; "other";
    "some"; "such"; "than"; "too"; "very"; "just"; "about"; "into"; "through";
    "during"; "before"; "after"; "above"; "below"; "between"; "under"; "again";
    "further"; "then"; "once"; "here"; "there"; "when"; "where"; "why"; "how";
    "all"; "each"; "few"; "any"; "both"; "only"; "own"; "same"; "so"; "because";
    "until"; "while" ]%string.

Definition SYNONYM_GROUPS : list (list jsstring) := map (map str)
  [ [ "product"; "service"; "solution"; "offering"; "platform" ];
    [ "customer"; "client"; "user"; "consumer"; "buyer" ];
    [ "quality"; "excellent"; "superior"; "premium"; "high-end" ];
    [ "price"; "cost"; "pricing"; "value"; "affordable" ];
    [ "fast"; "quick"; "rapid"; "speedy"; "efficient" ];
    [ "reliable"; "dependable"; "trustworthy"; "stable"; "consistent" ];
    [ "innovative"; "creative"; "novel"; "cutting-edge"; "advanced" ];
    [ "experience"; "expertise"; "knowledge"; "skill"; "proficiency" ];
    [ "support"; "help"; "assistance"; "service"; "care" ];
    [ "leader"; "leading"; "top"; "best"; "premier"; "foremost" ];
    [ "recommend"; "suggest"; "advise"; "propose" ];
    [ "benefit"; "advantage"; "strength"; "asset" ];
    [ "issue"; "problem"; "challenge"; "concern"; "difficulty" ];
    [ "improve"; "enhance"; "optimize"; "upgrade"; "boost" ];
    [ "market"; "industry"; "sector"; "field"; "space" ] ]%string.

Definition POSITIVE_INDICATORS : list jsstring := map str
  [ "excellent"; "best"; "leading"; "innovative"; "expert"; "trusted";
    "recommend"; "superior"; "outstanding"; "proven"; "reliable"; "quality";
    "effective"; "efficient"; "top"; "premier"; "award"; "recognized";
    "great"; "perfect"; "ideal"; "exceptional"; "remarkable"; "impressive" ]%string.

Definition NEGATIVE_INDICATORS : list jsstring := map str
  [ "poor"; "lacking"; "inadequate"; "failed"; "problematic"; "inferior";
    "weak"; "limited"; "concerning"; "risk"; "expensive"; "difficult";
    "disappointing"; "issue"; "complaint"; "alternative to"; "avoid";
    "outdated"; "slow"; "unreliable"; "buggy"; "confusing"; "frustrating" ]%string.

(* ================================================================== *)
(** ** dice-roller: key-point similarity *)
(* ================================================================== *)

(** [s.replace(/\s+/g, ' ')] *)
Fixpoint collapse_ws (s : jsstring) (inws : bool) : jsstring :=
  match s with
  | [] => []
  | c :: s' =>
      if isSpace c then
        if inws then collapse_ws s' true else " "%char :: collapse_ws s' true
      else c :: collapse_ws s' false
  end.

(** The class [[\p{L}\p{N}\s-]] kept by [normalizeKeyPoint]. *)
Definition isKeyPointChar (c : ascii) : bool :=
  isLetter c || isNumber c || isSpace c || (code c =? 45).

Definition normalizeKeyPoint (keyPoint : jsstring) : jsstring :=
  trim (collapse_ws (filter isKeyPointChar (toLowerCase keyPoint)) false).

Definition getSignificantWords (text : jsstring) : list jsstring :=
  Set_str
    (filter (fun w => (2 <? length w) && negb (str_mem w STOP_WORDS))
       (map toLowerCase (split_char " "%char text))).

Definition shareWordStem (a b : jsstring) : bool :=
  let minLen := Nat.min (length a) (length b) in
  if minLen <? 5 then false
  else
    let prefixLen := Nat.min 5 (floor_nat (num minLen * 0.6)%float) in
    str_eqb (substring0 prefixLen a) (substring0 prefixLen b).

Definition areSynonyms (a b : jsstring) : bool :=
  existsb (fun group => str_mem a group && str_mem b group) SYNONYM_GROUPS.

(** The three counts of [areSimilarKeyPoints], each a loop over [wordsA]. *)
Definition count_if (A : Type) (p : A -> bool) (l : list A) : nat :=
  length (filter p l).

Definition directOverlap (wordsA wordsB : list jsstring) : nat :=
  count_if (fun word => str_mem word wordsB) wordsA.

Definition stemOverlap (wordsA wordsB : list jsstring) : nat :=
  count_if (fun wordA =>
    existsb (fun wordB => negb (str_eqb wordA wordB) && shareWordStem wordA wordB)
      wordsB) wordsA.

Definition conceptOverlap (wordsA wordsB : list jsstring) : nat :=
  count_if (fun wordA =>
    existsb (fun wordB => negb (str_eqb wordA wordB) && areSynonyms wordA wordB)
      wordsB) wordsA.

Definition similarity (wordsA wordsB : list jsstring) : float :=
  let totalOverlap :=
    (num (directOverlap wordsA wordsB)
     + num (stemOverlap wordsA wordsB) * 0.8
     + num (conceptOverlap wordsA wordsB) * 0.7)%float in
  let minWords := Nat.min (length wordsA) (length wordsB) in
  (totalOverlap / num minWords)%float.

Definition areSimilarKeyPoints (a b : jsstring) : bool :=
  let wordsA := getSignificantWords a in
  let wordsB := getSignificantWords b in
  if (length wordsA =? 0) || (length wordsB =? 0) then false
  else num_ge (similarity wordsA wordsB) 0.3%float.

(* ================================================================== *)
(** ** [Array.prototype.sort], [Map] *)
(* ================================================================== *)

(** Stable sort by a strict order [lt a b] (the comparator is negative):
    an element is placed before the first one that is not smaller. *)
Fixpoint sort_insert (A : Type) (lt : A -> A -> bool) (x : A) (l : list A)
    : list A :=
  match l with
  | [] => [x]
  | y :: l' => if lt y x then y :: sort_insert lt x l' else x :: l
  end.

Fixpoint array_sort (A : Type) (lt : A -> A -> bool) (l : list A) : list A :=
  match l with
  | [] => []
  | x :: l' => sort_insert lt x (array_sort lt l')
  end.

(** [map.set(k, v)] on an insertion-ordered map with string keys: an
    existing key keeps its place and takes the new value. *)
Fixpoint map_set (V : Type) (k : jsstring) (v : V) (m : list (jsstring * V))
    : list (jsstring * V) :=
  match m with
  | [] => [(k, v)]
  | (k', v') :: m' =>
      if str_eqb k k' then (k', v) :: m' else (k', v') :: map_set k v m'
  end.

Fixpoint map_get (V : Type) (k : jsstring) (m : list (jsstring * V))
    : option V :=
  match m with
  | [] => None
  | (k', v') :: m' => if str_eqb k k' then Some v' else map_get k m'
  end.

(* ================================================================== *)
(** ** dice-roller: data model *)
(* ================================================================== *)

Inductive Sentiment := positive | neutral | negative.

Inductive SearchMode := memory | search.

Inductive Model := gemini | openai | grok.

Record SearchCitation := {
  url : jsstring;
  title : jsstring
}.

Record BrandMentionContext := {
  position : nat;
  snippet : jsstring;
  sentiment : Sentiment
}.

(** [timestamp] is left out: it is read from the clock. *)
Record ResponseData := {
  iteration : nat;
  content : jsstring;
  contentLength : nat;
  estimatedTokens : nat;
  brandMentions : nat;
  brandMentionContexts : list BrandMentionContext;
  keyPoints : list jsstring;
  responseSentiment : Sentiment;
  latencyMs : nat;
  responseSearchMode : SearchMode;
  citations : option (list SearchCitation)
}.

Record VariableMessage := {
  message : jsstring;
  frequency : float;
  appearancePattern : list nat
}.

Record Classification := {
  coreStableMessages : list jsstring;
  variableMessages : list VariableMessage;
  outliers : list jsstring;
  keyPointFrequency : list (jsstring * nat)
}.

(* ================================================================== *)
(** ** dice-roller: classifyKeyMessages *)
(* ================================================================== *)

Definition CORE_MESSAGE_THRESHOLD : float := 0.8%float.
Definition VARIABLE_MESSAGE_THRESHOLD : float := 0.3%float.

(** The clusters: representative key point -> set of iteration numbers. *)
Definition KeyPointMap := list (jsstring * list nat).

(** The scan of the clusters in insertion order: the first cluster whose
    representative is similar receives the iteration number. *)
Fixpoint addToFirstSimilar (normalized : jsstring) (it : nat) (m : KeyPointMap)
    : option KeyPointMap :=
  match m with
  | [] => None
  | (existing, iterations) :: rest =>
      if areSimilarKeyPoints normalized existing
      then Some ((existing, set_add Nat.eqb it iterations) :: rest)
      else option_map (cons (existing, iterations))
             (addToFirstSimilar normalized it rest)
  end.

Definition addKeyPoint (i : nat) (m : KeyPointMap) (keyPoint : jsstring)
    : KeyPointMap :=
  let normalized := normalizeKeyPoint keyPoint in
  match addToFirstSimilar normalized (i + 1) m with
  | Some m' => m'
  | None => map_set normalized [i + 1] m
  end.

(** The outer loop from index [i] on. *)
Fixpoint clusterFrom (i : nat) (responses : list ResponseData) (m : KeyPointMap)
    : KeyPointMap :=
  match responses with
  | [] => m
  | r :: rest => clusterFrom (S i) rest (fold_left (addKeyPoint i) (keyPoints r) m)
  end.

Definition clusterKeyPoints (responses : list ResponseData) : KeyPointMap :=
  clusterFrom 0 responses [].

Definition clusterFrequency (count totalIterations : nat) : float :=
  (num count / num totalIterations)%float.

Definition classifyCluster (totalIterations : nat) (acc : Classification)
    (entry : jsstring * list nat) : Classification :=
  let (keyPoint, iterations) := entry in
  let count := length iterations in
  let frequency := clusterFrequency count totalIterations in
  let frequencyRecord := map_set keyPoint count (keyPointFrequency acc) in
  if num_ge frequency CORE_MESSAGE_THRESHOLD then
    {| coreStableMessages := coreStableMessages acc ++ [keyPoint];
       variableMessages := variableMessages acc;
       outliers := outliers acc;
       keyPointFrequency := frequencyRecord |}
  else if num_ge frequency VARIABLE_MESSAGE_THRESHOLD then
    {| coreStableMessages := coreStableMessages acc;
       variableMessages := variableMessages acc ++
         [ {| message := keyPoint;
              frequency := Math_round (frequency * 100)%float;
              appearancePattern := array_sort Nat.ltb iterations |} ];
       outliers := outliers acc;
       keyPointFrequency := frequencyRecord |}
  else
    {| coreStableMessages := coreStableMessages acc;
       variableMessages := variableMessages acc;
       outliers := outliers acc ++ [keyPoint];
       keyPointFrequency := frequencyRecord |}.

Definition emptyClassification : Classification :=
  {| coreStableMessages := []; variableMessages := []; outliers := [];
     keyPointFrequency := [] |}.

Definition classifyKeyMessages (responses : list ResponseData) : Classification :=
  let totalIterations := length responses in
  fold_left (classifyCluster totalIterations) (clusterKeyPoints responses)
    emptyClassification.

(* ================================================================== *)
(** ** dice-roller: calculateConfidenceScore *)
(* ================================================================== *)

Record BrandMentionStats := {
  total : float;
  min : float;
  max : float;
  average : float;
  variance : float;
  standardDeviation : float;
  allContexts : list BrandMentionContext
}.

Definition calculateConfidenceScore (semanticOverlap : float)
    (brandStats : BrandMentionStats) (coreMessagesCount : nat) : float :=
  let overlapScore := semanticOverlap in
  let maxVariance := 5%float in
  let varianceScore :=
    Math_max 0 (100 - (variance brandStats / maxVariance) * 100)%float in
  let coreScore := Math_min 100 (num coreMessagesCount * 20)%float in
  let confidence :=
    Math_round (overlapScore * 0.4 + varianceScore * 0.3 + coreScore * 0.3)%float in
  Math_min 100 (Math_max 0 confidence).

(** The branch of [classifyCluster] a cluster of [count] iterations takes. *)
Inductive Bucket := CoreBucket | VariableBucket | OutlierBucket.

Definition bucketOf (count totalIterations : nat) : Bucket :=
  let frequency := clusterFrequency count totalIterations in
  if num_ge frequency CORE_MESSAGE_THRESHOLD then CoreBucket
  else if num_ge frequency VARIABLE_MESSAGE_THRESHOLD then VariableBucket
  else OutlierBucket.

(** The bucket of the specification, by exact arithmetic on the fraction
    count/total: core if count/total >= 8/10, variable if
    3/10 <= count/total < 8/10, outlier if count/total < 3/10. *)
Definition specBucket (count total : nat) : Bucket :=
  if 8 * total <=? 10 * count then CoreBucket
  else if 3 * total <=? 10 * count then VariableBucket
  else OutlierBucket.

(** 100 * count / total rounded to the nearest integer, halves upwards. *)
Definition roundedPercent (count total : nat) : nat :=
  (200 * count + total) / (2 * total).

Definition variableMessageOf (totalIterations : nat) (entry : jsstring * list nat)
    : VariableMessage :=
  {| message := fst entry;
     frequency :=
       Math_round (clusterFrequency (length (snd entry)) totalIterations * 100)%float;
     appearancePattern := array_sort Nat.ltb (snd entry) |}.

Definition inBucket (b : Bucket) (totalIterations : nat)
    (entry : jsstring * list nat) : bool :=
  match bucketOf (length (snd entry)) totalIterations, b with
  | CoreBucket, CoreBucket => true
  | VariableBucket, VariableBucket => true
  | OutlierBucket, OutlierBucket => true
  | _, _ => false
  end.

(** The consistency score as the specification words it. *)
Definition clamp (lo hi x : float) : float := Math_min hi (Math_max lo x).

Definition specVarianceScore (brandVariance : float) : float :=
  Math_max 0 (100 - (brandVariance / 5) * 100)%float.

Definition specCoreScore (coreMessageCount : nat) : float :=
  Math_min 100 (num coreMessageCount * 20)%float.

Definition specConsistencyScore (semanticOverlap brandVariance : float)
    (coreMessageCount : nat) : float :=
  clamp 0 100
    (Math_round (0.4 * semanticOverlap
                 + 0.3 * specVarianceScore brandVariance
                 + 0.3 * specCoreScore coreMessageCount)%float).

(** The order a sort by [key] establishes. *)
Definition key_le (A : Type) (key : A -> Z) (a b : A) : Prop :=
  (key a <= key b)%Z.

(** Every cluster holds a non-empty, duplicate-free set of iteration
    numbers between 1 and [T]. *)
Definition cluster_ok (T : nat) (e : jsstring * list nat) : Prop :=
  snd e <> [] /\ NoDup (snd e) /\ Forall (fun x => 1 <= x <= T) (snd e).

Definition clusters_ok (T : nat) (m : KeyPointMap) : Prop :=
  NoDup (map fst m) /\ Forall (cluster_ok T) m.


(** The end-to-end scenario of the specification: five responses, four
    with the Asana key point and one with the Trello key point. *)
Definition sampleResponse (i : nat) (points : list string) : ResponseData :=
  {| iteration := i; content := []; contentLength := 0; estimatedTokens := 0;
     brandMentions := 0;
     brandMentionContexts := []; keyPoints := map str points;
     responseSentiment := neutral; latencyMs := 0;
     responseSearchMode := memory; citations := None |}.

Definition sampleRun : list ResponseData :=
  [ sampleResponse 1 ["Asana is great for task tracking"%string];
    sampleResponse 2 ["Asana is great for task tracking"%string];
    sampleResponse 3 ["Asana is great for task tracking"%string];
    sampleResponse 4 ["Asana is great for task tracking"%string];
    sampleResponse 5 ["Trello works well"%string] ].

(* ================================================================== *)
(** ** brand-detector: BrandDetector *)
(* ================================================================== *)

Module BrandDetector.

Inductive BrandConfidence := high | medium | low.

Record DetectedBrand := {
  name : jsstring;
  normalized : jsstring;
  confidence : BrandConfidence;
  startIndex : nat;
  endIndex : nat
}.

(** The fields of [brands.json] the detector reads; [ignored_terms] is
    [meta.ignored_terms].  The data file is not part of the sources, so the
    database is a parameter of every statement. *)
Record BrandDatabase := {
  brands : list jsstring;
  high_confidence : list jsstring;
  ignored_terms : list jsstring
}.

(** The private fields set by the constructor. *)
Record Detector := {
  highConfidenceSet : list jsstring;
  ignoredTermsSet : list jsstring;
  normalizedMap : list (jsstring * jsstring)
}.

Definition new (db : BrandDatabase) : Detector :=
  {| highConfidenceSet := Set_str (high_confidence db);
     ignoredTermsSet := Set_str (ignored_terms db);
     normalizedMap :=
       fold_left (fun m brand => map_set (toLowerCase brand) brand m)
         (brands db) [] |}.

(** A token of [tokenize]: [{ text, startIndex, endIndex }]. *)
Record Token := {
  text : jsstring;
  tokenStart : nat;
  tokenEnd : nat
}.

(** The class [[\w.-]]. *)
Definition isTokenChar (c : ascii) : bool :=
  isWordChar c || (code c =? 46) || (code c =? 45).

(** The [regex.exec] loop of [tokenize] over [/[\w.-]+/g]: the maximal runs
    of token characters.  [pos] is the index of the head of [s]; [cur] holds
    the run being read (reversed) and its start. *)
Fixpoint tokenizeFrom (s : jsstring) (pos : nat) (cur : option (jsstring * nat))
    : list Token :=
  match s with
  | [] =>
      match cur with
      | Some (acc, start) =>
          [ {| text := rev acc; tokenStart := start; tokenEnd := pos |} ]
      | None => []
      end
  | c :: s' =>
      if isTokenChar c then
        match cur with
        | Some (acc, start) => tokenizeFrom s' (S pos) (Some (c :: acc, start))
        | None => tokenizeFrom s' (S pos) (Some ([c], pos))
        end
      else
        match cur with
        | Some (acc, start) =>
            {| text := rev acc; tokenStart := start; tokenEnd := pos |}
            :: tokenizeFrom s' (S pos) None
        | None => tokenizeFrom s' (S pos) None
        end
  end.

Definition tokenize (s : jsstring) : list Token := tokenizeFrom s 0 None.

Definition level (c : BrandConfidence) : nat :=
  match c with
  | high => 3
  | medium => 2
  | low => 1
  end.

Definition meetsMinConfidence (c minConfidence : BrandConfidence) : bool :=
  level minConfidence <=? level c.

(** A string is truthy when it is not empty. *)
Definition truthy (s : jsstring) : bool := negb (length s =? 0).

Definition getConfidence (d : Detector) (t : jsstring) : option BrandConfidence :=
  match map_get (toLowerCase t) (normalizedMap d) with
  | None => None
  | Some normalized =>
      if negb (truthy normalized) then None
      else if str_mem normalized (highConfidenceSet d) then Some high
      else if str_mem (toLowerCase t) (ignoredTermsSet d) then Some low
      else Some medium
  end.

(** [parts.join(' ')] *)
Fixpoint join_space (parts : list jsstring) : jsstring :=
  match parts with
  | [] => []
  | [p] => p
  | p :: rest => p ++ " "%char :: join_space rest
  end.

Definition sameSpan (startIndex0 endIndex0 : nat) (d : DetectedBrand) : bool :=
  (startIndex d =? startIndex0) && (endIndex d =? endIndex0).

(** The body of the inner loop: [words] are the tokens from index [i] on,
    [len] the number of tokens tried. *)
Definition tryCandidate (d : Detector) (minConfidence : BrandConfidence)
    (words : list Token) (detected : list DetectedBrand) (len : nat)
    : list DetectedBrand :=
  match firstn len words with
  | [] => detected
  | (w :: _) as span =>
      let candidate := join_space (map text span) in
      match map_get (toLowerCase candidate) (normalizedMap d) with
      | None => detected
      | Some normalized0 =>
          if truthy normalized0 then
            match getConfidence d normalized0 with
            | Some confidence0 =>
                if meetsMinConfidence confidence0 minConfidence then
                  let startIndex0 := tokenStart w in
                  let endIndex0 := tokenEnd (last span w) in
                  if existsb (sameSpan startIndex0 endIndex0) detected
                  then detected
                  else detected ++
                    [ {| name := candidate; normalized := normalized0;
                         confidence := confidence0;
                         startIndex := startIndex0; endIndex := endIndex0 |} ]
                else detected
            | None => detected
            end
          else detected
      end
  end.

(** The outer loop, from the token at the head of [words] on. *)
Fixpoint detectFrom (d : Detector) (minConfidence : BrandConfidence)
    (words : list Token) (detected : list DetectedBrand) : list DetectedBrand :=
  match words with
  | [] => detected
  | _ :: rest =>
      detectFrom d minConfidence rest
        (fold_left (tryCandidate d minConfidence words)
           (seq 1 (Nat.min 3 (length words))) detected)
  end.

(** [l.slice(0, k)]; [None] is [Infinity], a negative [k] counts from the
    end. *)
Definition slice0 (A : Type) (k : option Z) (l : list A) : list A :=
  match k with
  | None => l
  | Some k =>
      if (k <? 0)%Z then firstn (length l - Z.to_nat (- k)) l
      else firstn (Z.to_nat k) l
  end.

Record DetectOptions := {
  minConfidence : option BrandConfidence;
  maxResults : option Z
}.

Definition detectBrands (d : Detector) (t : jsstring) (options : DetectOptions)
    : list DetectedBrand :=
  let minConfidence0 :=
    match minConfidence options with Some c => c | None => low end in
  let words := tokenize t in
  let detected := detectFrom d minConfidence0 words [] in
  let sorted := array_sort (fun a b => startIndex a <? startIndex b) detected in
  slice0 (maxResults options) sorted.

Definition span (d : DetectedBrand) : nat * nat := (startIndex d, endIndex d).

(** *** The rest of the class *)

Definition isBrand (d : Detector) (t : jsstring) : bool :=
  match map_get (toLowerCase t) (normalizedMap d) with
  | Some _ => true
  | None => false
  end.

(** [l.slice(a, b)] for integers [a] and [b]: a negative index counts from
    the end, and both are clamped to the length. *)
Definition slice (A : Type) (a b : Z) (l : list A) : list A :=
  let len := Z.of_nat (length l) in
  let from := if (a <? 0)%Z then Z.max (len + a) 0 else Z.min a len in
  let to := if (b <? 0)%Z then Z.max (len + b) 0 else Z.min b len in
  firstn (Z.to_nat (to - from)) (skipn (Z.to_nat from) l).

(** The radius is taken as an integer. *)
Definition extractContextWindow (t : jsstring) (startIndex0 endIndex0 : nat)
    (radius : Z) : jsstring :=
  let contextStart := Z.max 0 (Z.of_nat startIndex0 - radius) in
  let contextEnd := Z.min (Z.of_nat (length t)) (Z.of_nat endIndex0 + radius) in
  let context := slice contextStart contextEnd t in
  let context :=
    if (0 <? contextStart)%Z then str "..." ++ context else context in
  if (contextEnd <? Z.of_nat (length t))%Z then context ++ str "..."
  else context.

Record BrandMention := {
  brand : jsstring;
  count : nat;
  mentionConfidence : BrandConfidence;
  contexts : option (list jsstring)
}.

Record BrandAnalysisResult := {
  totalBrands : nat;
  totalMentions : nat;
  mentions : list BrandMention;
  topBrand : option jsstring
}.

Record BrandDetectorOptions := {
  extended : option bool;
  contextRadius : option Z;
  analysisMinConfidence : option BrandConfidence
}.

(** [brandGroups]: normalized name -> occurrences, in insertion order. *)
Definition BrandGroups := list (jsstring * list DetectedBrand).

(** The body of the grouping loop: [get(...) || []], [push], [set]. *)
Definition groupBrand (brandGroups : BrandGroups) (b : DetectedBrand)
    : BrandGroups :=
  let existing :=
    match map_get (normalized b) brandGroups with
    | Some occurrences => occurrences
    | None => []
    end in
  map_set (normalized b) (existing ++ [b]) brandGroups.

(** The mention built for one group.  [brandOccurrences[0]] is read on a
    group that holds at least the occurrence that created it. *)
Definition mentionOf (llmResponse : jsstring) (extended0 : bool)
    (contextRadius0 : Z) (entry : jsstring * list DetectedBrand)
    : BrandMention :=
  let (brandName, brandOccurrences) := entry in
  {| brand := brandName;
     count := length brandOccurrences;
     mentionConfidence :=
       match brandOccurrences with
       | occurrence :: _ => confidence occurrence
       | [] => low
       end;
     contexts :=
       if extended0 then
         Some (map (fun occurrence =>
                 extractContextWindow llmResponse (startIndex occurrence)
                   (endIndex occurrence) contextRadius0) brandOccurrences)
       else None |}.

Definition analyzeLLMResponse (d : Detector) (llmResponse : jsstring)
    (options : BrandDetectorOptions) : BrandAnalysisResult :=
  let extended0 := match extended options with Some b => b | None => false end in
  let contextRadius0 :=
    match contextRadius options with Some r => r | None => 50%Z end in
  let minConfidence0 :=
    match analysisMinConfidence options with Some c => c | None => low end in
  let detectedBrands :=
    detectBrands d llmResponse
      {| minConfidence := Some minConfidence0; maxResults := None |} in
  let brandGroups := fold_left groupBrand detectedBrands [] in
  let mentions0 := map (mentionOf llmResponse extended0 contextRadius0) brandGroups in
  let mentions1 := array_sort (fun a b => count b <? count a) mentions0 in
  {| totalBrands := length mentions1;
     totalMentions := fold_left (fun sum m => sum + count m) mentions1 0;
     mentions := mentions1;
     topBrand :=
       match mentions1 with
       | m :: _ => Some (brand m)
       | [] => None
       end |}.

Definition extractBrandNames (d : Detector) (t : jsstring)
    (minConfidence0 : option BrandConfidence) : list jsstring :=
  let brands0 :=
    detectBrands d t
      {| minConfidence :=
           Some (match minConfidence0 with Some c => c | None => medium end);
         maxResults := None |} in
  Set_str (map normalized brands0).

(** [brandName] is [None] when the argument is omitted; an empty string is
    falsy and counts every occurrence as well. *)
Definition countBrandMentions (d : Detector) (t : jsstring)
    (brandName : option jsstring) : nat :=
  let brands0 :=
    detectBrands d t {| minConfidence := None; maxResults := None |} in
  match brandName with
  | Some b =>
      if truthy b then
        let normalized0 := map_get (toLowerCase b) (normalizedMap d) in
        length (filter (fun x =>
                  match normalized0 with
                  | Some n => str_eqb (normalized x) n
                  | None => false
                  end) brands0)
      else length brands0
  | None => length brands0
  end.

(** The order of the default [Array.prototype.sort]: strings compared by
    their code units. *)
Fixpoint str_ltb (a b : jsstring) : bool :=
  match a, b with
  | _, [] => false
  | [], _ :: _ => true
  | x :: a', y :: b' =>
      (code x <? code y) || ((code x =? code y) && str_ltb a' b')
  end.

(** The loop of [getSuggestions] over the entries of [normalizedMap], with
    its [break]. *)
Fixpoint suggestFrom (lowerPartial : jsstring) (limit : Z)
    (entries : list (jsstring * jsstring)) (suggestions : list jsstring)
    : list jsstring :=
  match entries with
  | [] => suggestions
  | (lowercase, original) :: rest =>
      if startsWith lowerPartial lowercase then
        let suggestions' := suggestions ++ [original] in
        if (limit <=? Z.of_nat (length suggestions'))%Z then suggestions'
        else suggestFrom lowerPartial limit rest suggestions'
      else suggestFrom lowerPartial limit rest suggestions
  end.

(** The limit is taken as an integer; 10 when omitted. *)
Definition getSuggestions (d : Detector) (partial : jsstring) (limit : option Z)
    : list jsstring :=
  let lowerPartial := toLowerCase partial in
  array_sort str_ltb
    (suggestFrom lowerPartial (match limit with Some k => k | None => 10%Z end)
       (normalizedMap d) []).

End BrandDetector.

(* ================================================================== *)
(** ** dice-roller: extractKeyPoints *)
(* ================================================================== *)

(** The class [[.!?]]. *)
Definition isSentenceEnd (c : ascii) : bool :=
  (code c =? 46) || (code c =? 33) || (code c =? 63).

(** [/\d+%/.test(s)] *)
Fixpoint hasPercentage (s : jsstring) : bool :=
  match s with
  | [] => false
  | c :: s' =>
      (isDigit c &&
       match dropWhile isDigit s' with
       | d :: _ => code d =? 37
       | [] => false
       end)
      || hasPercentage s'
  end.

(** [/\$[\d,]+/.test(s)] *)
Fixpoint hasMoney (s : jsstring) : bool :=
  match s with
  | [] => false
  | c :: s' =>
      ((code c =? 36) &&
       match s' with
       | d :: _ => isDigit d || (code d =? 44)
       | [] => false
       end)
      || hasMoney s'
  end.

Definition bonus (b : bool) (points : nat) : nat := if b then points else 0.

Definition sentenceScore (sentence : jsstring) : nat :=
  let lower := toLowerCase sentence in
  bonus (includes lower (str "important")) 2
  + bonus (includes lower (str "key")) 2
  + bonus (includes lower (str "critical")) 2
  + bonus (includes lower (str "essential")) 2
  + bonus (includes lower (str "recommend")) 3
  + bonus (includes lower (str "should")) 1
  + bonus (includes lower (str "must")) 2
  + bonus (includes lower (str "benefit")) 1
  + bonus (includes lower (str "advantage")) 1
  + bonus (includes lower (str "best")) 2
  + bonus (includes lower (str "leading")) 2
  + bonus (includes lower (str "top")) 1
  + bonus (hasPercentage sentence) 2
  + bonus (hasMoney sentence) 2.

Record ScoredSentence := {
  sentence : jsstring;
  score : nat
}.

(** The sentences that pass the length filter, in their original order. *)
Definition candidateSentences (response : jsstring) : list jsstring :=
  filter (fun s => (20 <? length s) && (length s <? 300))
    (map trim (split_runs isSentenceEnd response)).

Definition extractKeyPoints (response : jsstring) : list jsstring :=
  let sentences := candidateSentences response in
  let scored :=
    map (fun sentence => {| sentence := sentence; score := sentenceScore sentence |})
      sentences in
  map sentence
    (firstn 10 (array_sort (fun a b => score b <? score a) scored)).


(* ================================================================== *)
(** ** Regular expressions [/\bword\b/gi] for a literal word *)
(* ================================================================== *)

Definition isWordOpt (o : option ascii) : bool :=
  match o with
  | Some c => isWordChar c
  | None => false
  end.

(** [\b] between the characters [before] and [after] ([None] at either end
    of the input). *)
Definition boundary (before after : option ascii) : bool :=
  xorb (isWordOpt before) (isWordOpt after).

(** The literal [w] matches at the head of [s] under the [i] flag. *)
Fixpoint startsWith_ci (w s : jsstring) : bool :=
  match w, s with
  | [], _ => true
  | x :: w', c :: s' => caseless_eqb c x && startsWith_ci w' s'
  | _ :: _, [] => false
  end.

(** [/\bw\b/i] matches at the head of [s], [prev] being the character before
    it. *)
Definition wordMatchAt (w : jsstring) (prev : option ascii) (s : jsstring)
    : bool :=
  boundary prev (hd_error s)
  && startsWith_ci w s
  && boundary (nth_error s (length w - 1)) (nth_error s (length w)).

(** The successive [match.index] of [/\bw\b/gi] on the input, for a
    non-empty literal [w]: the search resumes after each match.  [pos] is
    the index of the head of [s]; [skip] counts the characters of the last
    match still to be passed. *)
Fixpoint regexMatchesFrom (w : jsstring) (prev : option ascii) (s : jsstring)
    (pos skip : nat) : list nat :=
  match s with
  | [] => []
  | c :: s' =>
      match skip with
      | S k => regexMatchesFrom w (Some c) s' (S pos) k
      | 0 =>
          if wordMatchAt w prev s
          then pos :: regexMatchesFrom w (Some c) s' (S pos) (length w - 1)
          else regexMatchesFrom w (Some c) s' (S pos) 0
      end
  end.

Definition regexMatches (w s : jsstring) : list nat :=
  regexMatchesFrom w None s 0 0.

(** The whole-word, case-insensitive occurrences of [w]: the number of
    positions of the text at which [w] stands between two word boundaries. *)
Fixpoint occurrencesFrom (w : jsstring) (prev : option ascii) (s : jsstring)
    : nat :=
  match s with
  | [] => 0
  | c :: s' =>
      (if wordMatchAt w prev s then 1 else 0) + occurrencesFrom w (Some c) s'
  end.

Definition wholeWordOccurrences (w text : jsstring) : nat :=
  occurrencesFrom w None text.

(** No occurrence of [w] can start inside another one: at no inner position
    of [w] is there both a word boundary and the first character of [w]. *)
Fixpoint noStartInside (w0 prevw : ascii) (rem : jsstring) : bool :=
  match rem with
  | [] => true
  | c :: rem' =>
      negb (xorb (isWordChar prevw) (isWordChar c) && caseless_eqb c w0)
      && noStartInside w0 c rem'
  end.

Definition noInternalStart (w : jsstring) : bool :=
  match w with
  | [] => false
  | w0 :: rest => noStartInside w0 w0 rest
  end.

(* ================================================================== *)
(** ** dice-roller: analyzeSentiment *)
(* ================================================================== *)

(** [a > b * 1.5] on two counts.  The product is exact in binary64 for
    every [b] below 2^51, which no count of matches in a string reaches, so
    the comparison is that of [2 * a] with [3 * b]. *)
Definition exceeds_1_5 (a b : nat) : bool := 3 * b <? 2 * a.

(** The same comparison evaluated in binary64. *)
Definition exceeds_1_5_float (a b : nat) : bool :=
  (num b * 1.5 <? num a)%float.

(** The loop [for (const word of indicators) ... score += matches.length]. *)
Definition indicatorScore (indicators : list jsstring) (lower : jsstring) : nat :=
  fold_left (fun score word => score + length (regexMatches word lower))
    indicators 0.

Definition analyzeSentiment (text : jsstring) : Sentiment :=
  let lower := toLowerCase text in
  let positiveScore := indicatorScore POSITIVE_INDICATORS lower in
  let negativeScore := indicatorScore NEGATIVE_INDICATORS lower in
  if exceeds_1_5 positiveScore negativeScore then positive
  else if exceeds_1_5 negativeScore positiveScore then negative
  else neutral.

(** The counts of the specification. *)
Definition indicatorOccurrences (indicators : list jsstring) (text : jsstring)
    : nat :=
  list_sum (map (fun word => wholeWordOccurrences word text) indicators).

Definition analyzeSnippetSentiment (snippet : jsstring) : Sentiment :=
  let lower := toLowerCase snippet in
  let positiveScore :=
    count_if (fun word => includes lower word) POSITIVE_INDICATORS in
  let negativeScore :=
    count_if (fun word => includes lower word) NEGATIVE_INDICATORS in
  if negativeScore <? positiveScore then positive
  else if positiveScore <? negativeScore then negative
  else neutral.

(* ================================================================== *)
(** ** dice-roller: generateBrandVariations, extractBrandMentions *)
(* ================================================================== *)

(** The class [[\s\-_&]]. *)
Definition isBrandSeparator (c : ascii) : bool :=
  isSpace c || (code c =? 45) || (code c =? 95) || (code c =? 38).

(** [abbreviationMap], read as a table on its own keys. *)
Definition abbreviationMap : list (jsstring * list jsstring) :=
  [ (str "vw", map str ["volkswagen"; "volkswagen group"; "vw group"]%string);
    (str "volkswagen", map str ["vw"; "vw group"; "volkswagen group"]%string);
    (str "bmw", map str ["bayerische motoren werke"]%string);
    (str "gm", map str ["general motors"]%string);
    (str "hp", map str ["hewlett packard"; "hewlett-packard"]%string);
    (str "ibm", map str ["international business machines"]%string);
    (str "ge", map str ["general electric"]%string) ].

(** The literals of [suffixPatterns], each [/ literal$/i]. *)
Definition suffixPatterns : list jsstring := map str
  [ " group"; " corp"; " inc"; " ltd"; " llc"; " sa"; " ag"; " gmbh" ]%string.

(** [/suffix$/i.test(s)] *)
Definition endsWith_ci (s suffix : jsstring) : bool :=
  startsWith_ci (rev suffix) (rev s).

Definition addAll (xs : list jsstring) (set : list jsstring) : list jsstring :=
  fold_left (fun acc x => set_add str_eqb x acc) xs set.

Definition generateBrandVariations (brandName : jsstring) : list jsstring :=
  let normalized := trim brandName in
  if length normalized =? 0 then []
  else
    let variations0 := set_add str_eqb normalized [] in
    let words :=
      filter (fun w => 0 <? length w) (split_runs isBrandSeparator normalized) in
    let variations1 :=
      addAll (filter (fun word => 2 <=? length word) words) variations0 in
    let variations2 :=
      fold_left (fun acc word =>
        match map_get (toLowerCase word) abbreviationMap with
        | Some expansions => addAll expansions acc
        | None => acc
        end) words variations1 in
    let variations3 :=
      fold_left (fun acc pattern =>
        if endsWith_ci normalized pattern then
          let withoutSuffix :=
            trim (firstn (length normalized - length pattern) normalized) in
          if 2 <=? length withoutSuffix then set_add str_eqb withoutSuffix acc
          else acc
        else acc) suffixPatterns variations2 in
    filter (fun v => 2 <=? length v) variations3.

Definition snippetRadius : nat := 80.

(** [Math.abs(a - b)] on indices. *)
Definition absDiff (a b : nat) : nat := (a - b) + (b - a).

(** The context pushed for a match at [position] of length [matchLength]. *)
Definition mentionContext (response : jsstring) (position matchLength : nat)
    : BrandMentionContext :=
  let start := position - snippetRadius in
  let end_ := Nat.min (length response) (position + matchLength + snippetRadius) in
  let snippet0 := trim (substring start end_ response) in
  let snippet1 := if 0 <? start then str "..." ++ snippet0 else snippet0 in
  let snippet2 :=
    if end_ <? length response then snippet1 ++ str "..." else snippet1 in
  {| position := position; snippet := snippet2;
     sentiment := analyzeSnippetSentiment snippet2 |}.

Definition isDuplicate (foundPositions : list nat) (position : nat) : bool :=
  existsb (fun existingPos => absDiff existingPos position <? 10) foundPositions.

(** The state of the two loops: [contexts] and [foundPositions]. *)
Definition MentionState : Type := list BrandMentionContext * list nat.

(** The body of the [while] loop for one match. *)
Definition visitMatch (response : jsstring) (matchLength : nat)
    (st : MentionState) (position : nat) : MentionState :=
  if isDuplicate (snd st) position then st
  else (fst st ++ [mentionContext response position matchLength],
        set_add Nat.eqb position (snd st)).

(** The body of the [for] loop for one variation: the regular expression
    is [\b] + the variation with its special characters escaped + [\b],
    flags [gi], and a match has the length of the variation. *)
Definition visitVariation (response : jsstring) (st : MentionState)
    (variation : jsstring) : MentionState :=
  fold_left (visitMatch response (length variation))
    (regexMatches variation response) st.

Definition extractBrandMentions (response brandName : jsstring)
    : list BrandMentionContext :=
  if (length brandName =? 0) || (length response =? 0) then []
  else
    let variations := generateBrandVariations brandName in
    let contexts :=
      fst (fold_left (visitVariation response) variations ([], [])) in
    array_sort (fun a b => position a <? position b) contexts.



(* ================================================================== *)
(** ** dice-roller: cleanResponse *)
(* ================================================================== *)

(** A regular expression at one start position: given the character before
    the position and the input from the position on, the length of the
    match (at least 1 for every expression below) and its replacement. *)
Definition Matcher : Type := option ascii -> jsstring -> option (nat * jsstring).

(** [s.replace(re, replacement)] with the [g] flag: the input is read from
    left to right, every match is replaced and the search resumes after
    it; [prev] is the character of the input before [s], [skip] the number
    of characters of the current match still to be passed. *)
Fixpoint replaceAllFrom (m : Matcher) (prev : option ascii) (s : jsstring)
    (skip : nat) : jsstring :=
  match s with
  | [] => []
  | c :: s' =>
      match skip with
      | S k => replaceAllFrom m (Some c) s' k
      | 0 =>
          match m prev s with
          | Some (len, replacement) =>
              replacement ++ replaceAllFrom m (Some c) s' (len - 1)
          | None => c :: replaceAllFrom m (Some c) s' 0
          end
      end
  end.

Definition replaceAll (m : Matcher) (s : jsstring) : jsstring :=
  replaceAllFrom m None s 0.

(** [^] with the [m] flag. *)
Definition atLineStart (prev : option ascii) : bool :=
  match prev with
  | None => true
  | Some c => isLineTerminator c
  end.

Definition isChar (n : nat) (c : ascii) : bool := code c =? n.

(** [/^#{1,6}\s*/gm] *)
Definition headerMatcher : Matcher := fun prev s =>
  if atLineStart prev then
    let hashes := Nat.min 6 (length (takeWhile (isChar 35) s)) in
    if 1 <=? hashes then
      Some (hashes + length (takeWhile isSpace (skipn hashes s)), [])
    else None
  else None.

(** The lazy group [(.+?)] followed by [close]: the shortest non-empty run
    of characters other than line terminators after which [close] stands. *)
Fixpoint lazyDots (close : jsstring) (s : jsstring) (acc : jsstring)
    : option jsstring :=
  match s with
  | [] => None
  | c :: s' =>
      if isLineTerminator c then None
      else if startsWith close s' then Some (rev (c :: acc))
      else lazyDots close s' (c :: acc)
  end.

(** [/DELIM(.+?)DELIM/g] replaced by ['$1'], for a literal [delim]. *)
Definition emphasisMatcher (delim : jsstring) : Matcher := fun _ s =>
  if startsWith delim s then
    match lazyDots delim (skipn (length delim) s) [] with
    | Some captured =>
        Some (length delim + length captured + length delim, captured)
    | None => None
    end
  else None.

(** [/^\s*[-*]\s*/gm] *)
Definition bulletMatcher : Matcher := fun prev s =>
  if atLineStart prev then
    let ws := length (takeWhile isSpace s) in
    match skipn ws s with
    | c :: rest =>
        if isChar 45 c || isChar 42 c
        then Some (ws + 1 + length (takeWhile isSpace rest), [])
        else None
    | [] => None
    end
  else None.

(** [/^\s*\d+\.\s*/gm] *)
Definition numberedMatcher : Matcher := fun prev s =>
  if atLineStart prev then
    let ws := length (takeWhile isSpace s) in
    let digits := length (takeWhile isDigit (skipn ws s)) in
    if 1 <=? digits then
      match skipn (ws + digits) s with
      | c :: rest =>
          if isChar 46 c
          then Some (ws + digits + 1 + length (takeWhile isSpace rest), [])
          else None
      | [] => None
      end
    else None
  else None.

(** The lazy [[\s\S]*?] followed by [close]: the number of characters
    before the first place where [close] stands. *)
Fixpoint lazyAny (close : jsstring) (s : jsstring) (n : nat) : option nat :=
  if startsWith close s then Some n
  else
    match s with
    | [] => None
    | _ :: s' => lazyAny close s' (S n)
    end.

(** [/```[\s\S]*?```/g] *)
Definition fenceMatcher : Matcher := fun _ s =>
  if startsWith (str "```") s then
    match lazyAny (str "```") (skipn 3 s) 0 with
    | Some n => Some (3 + n + 3, [])
    | None => None
    end
  else None.

(** [/`([^`]+)`/g] replaced by ['$1'] *)
Definition inlineCodeMatcher : Matcher := fun _ s =>
  match s with
  | c :: rest =>
      if isChar 96 c then
        let run := takeWhile (fun d => negb (isChar 96 d)) rest in
        if 1 <=? length run then
          match skipn (length run) rest with
          | d :: _ => Some (1 + length run + 1, run)
          | [] => None
          end
        else None
      else None
  | [] => None
  end.

(** [s.replace(/c{2,}/g, 'c')]: every run of two or more [ch] becomes one
    [ch]; [prevIs] tells that the character before [s] is [ch], and a [ch]
    that follows a [ch] is dropped. *)
Fixpoint squeezeFrom (ch : ascii) (prevIs : bool) (s : jsstring) : jsstring :=
  match s with
  | [] => []
  | c :: s' =>
      if Ascii.eqb c ch then
        if prevIs then squeezeFrom ch true s' else c :: squeezeFrom ch true s'
      else c :: squeezeFrom ch false s'
  end.

Definition squeeze (ch : ascii) (s : jsstring) : jsstring :=
  squeezeFrom ch false s.

Definition LF : ascii := ascii_of_nat 10.
Definition SP : ascii := ascii_of_nat 32.

(** The replacements of cleanResponse that remove markdown markers. *)
Definition stripMarkdown (text : jsstring) : jsstring :=
  let cleaned := text in
  let cleaned := replaceAll headerMatcher cleaned in
  let cleaned := replaceAll (emphasisMatcher (str "**")) cleaned in
  let cleaned := replaceAll (emphasisMatcher (str "*")) cleaned in
  let cleaned := replaceAll (emphasisMatcher (str "__")) cleaned in
  let cleaned := replaceAll (emphasisMatcher (str "_")) cleaned in
  let cleaned := replaceAll bulletMatcher cleaned in
  let cleaned := replaceAll numberedMatcher cleaned in
  let cleaned := replaceAll fenceMatcher cleaned in
  let cleaned := replaceAll inlineCodeMatcher cleaned in
  cleaned.

(** The last three steps: [\n{2,}] to one newline, [ {2,}] to one space,
    [trim]. *)
Definition normalizeWhitespace (cleaned : jsstring) : jsstring :=
  let cleaned := squeeze LF cleaned in
  let cleaned := squeeze SP cleaned in
  trim cleaned.

Definition cleanResponse (text : jsstring) : jsstring :=
  normalizeWhitespace (stripMarkdown text).

(** No two adjacent characters of [s] are both [ch]; [prevIs] tells that
    the character before [s] is [ch]. *)
Fixpoint noAdjacentFrom (ch : ascii) (prevIs : bool) (s : jsstring) : bool :=
  match s with
  | [] => true
  | c :: s' =>
      negb (prevIs && Ascii.eqb c ch) && noAdjacentFrom ch (Ascii.eqb c ch) s'
  end.

Definition noAdjacent (ch : ascii) (s : jsstring) : bool :=
  noAdjacentFrom ch false s.

(* ================================================================== *)
(** ** dice-roller: statistics of a run *)
(* ================================================================== *)

Definition estimateTokenCount (text : jsstring) : nat :=
  if length text =? 0 then 0 else (length text + 3) / 4.

Definition sumNumbers (values : list float) : float :=
  fold_left (fun a b => (a + b)%float) values 0%float.

Definition calculateMean (values : list float) : float :=
  if length values =? 0 then 0%float
  else (sumNumbers values / num (length values))%float.

(** [Math.pow(x, 2)] is taken as [x * x]. *)
Definition calculateVariance (values : list float) : float :=
  if length values =? 0 then 0%float
  else
    let mean := calculateMean values in
    (fold_left (fun sum v => sum + (v - mean) * (v - mean)) values 0
     / num (length values))%float.

Definition calculateStdDev (values : list float) : float :=
  PrimFloat.sqrt (calculateVariance values).

Definition calculateSemanticOverlap (text1 text2 : jsstring) : float :=
  let words1 := getSignificantWords text1 in
  let words2 := getSignificantWords text2 in
  if (length words1 =? 0) || (length words2 =? 0) then 0%float
  else
    let intersection := filter (fun w => str_mem w words2) words1 in
    let union := Set_str (words1 ++ words2) in
    Math_round (num (length intersection) / num (length union) * 100)%float.

(** The pairs [(i, j)], [i < j], of the double loop, in its order. *)
Fixpoint pairOverlaps (contents : list jsstring) : list float :=
  match contents with
  | [] => []
  | c :: rest => map (calculateSemanticOverlap c) rest ++ pairOverlaps rest
  end.

Definition calculateAverageOverlap (responses : list ResponseData) : float :=
  if length responses <? 2 then 100%float
  else
    let overlaps := pairOverlaps (map content responses) in
    let totalOverlap := sumNumbers overlaps in
    let comparisons := length overlaps in
    if 0 <? comparisons then Math_round (totalOverlap / num comparisons)%float
    else 0%float.

Definition round2 (x : float) : float := (Math_round (x * 100) / 100)%float.

Definition calculateBrandMentionStats (responses : list ResponseData)
    : BrandMentionStats :=
  let mentions := map (fun r => num (brandMentions r)) responses in
  let contexts := flat_map brandMentionContexts responses in
  if length mentions =? 0 then
    {| total := 0; min := 0; max := 0; average := 0; variance := 0;
       standardDeviation := 0; allContexts := [] |}
  else
    {| total := sumNumbers mentions;
       min := fold_left Math_min mentions infinity;
       max := fold_left Math_max mentions neg_infinity;
       average := round2 (calculateMean mentions);
       variance := round2 (calculateVariance mentions);
       standardDeviation := round2 (calculateStdDev mentions);
       allContexts := contexts |}.

Record SentimentDistribution := {
  positivePercent : float;
  neutralPercent : float;
  negativePercent : float
}.

Definition isSentiment (s : Sentiment) (r : ResponseData) : bool :=
  match responseSentiment r, s with
  | positive, positive => true
  | neutral, neutral => true
  | negative, negative => true
  | _, _ => false
  end.

Definition calculateSentimentDistribution (responses : list ResponseData)
    : SentimentDistribution :=
  let total0 := length responses in
  if total0 =? 0 then
    {| positivePercent := 0; neutralPercent := 0; negativePercent := 0 |}
  else
    let percent s :=
      Math_round (num (count_if (isSentiment s) responses) / num total0 * 100)%float in
    {| positivePercent := percent positive;
       neutralPercent := percent neutral;
       negativePercent := percent negative |}.

(* ================================================================== *)
(** ** dice-roller: analyzeStability *)
(* ================================================================== *)

Record QueryResult := {
  response : jsstring;
  queryLatencyMs : nat;
  queryCitations : option (list SearchCitation)
}.

(** What a rejected query throws: an [Error] with its message, or another
    value with its [String(...)] form. *)
Inductive Thrown :=
| ThrownError (msg : jsstring)
| ThrownValue (repr : jsstring).

Inductive QueryOutcome :=
| Resolved (result : QueryResult)
| Rejected (error : Thrown).

(** The arguments of [queryGemini] / [queryOpenAI]. *)
Record QueryArgs := {
  queryModel : Model;
  queryPrompt : jsstring;
  queryApiKey : jsstring;
  queryTemperature : float;
  queryMaxTokens : nat;
  querySearchMode : SearchMode
}.

(** The injected query capability: the outcome of the query of the given
    iteration.  The transport is outside the sources. *)
Definition QueryCapability : Type := QueryArgs -> nat -> QueryOutcome.

Record IterationError := {
  errorIteration : nat;
  errorMessage : jsstring;
  errorObject : jsstring
}.

(** The callbacks are observers: [onProgress] and [onError] tell whether
    the callback is supplied, and every call is recorded. *)
Record StabilityOptions := {
  prompt : jsstring;
  iterations : option Z;
  model : option Model;
  apiKey : jsstring;
  temperature : option float;
  maxTokens : option nat;
  brandName : option jsstring;
  iterationDelayMs : option nat;
  searchMode : option SearchMode;
  onProgress : bool;
  onError : bool
}.

(** What the run does to the outside, in order. *)
Inductive Event :=
| ProgressCalled (i totalIterations : nat)
| Delayed (ms : nat)
| ErrorCalled (e : IterationError)
| ConsoleErrorLogged (i : nat) (error : Thrown).

Inductive FatalError :=
| ApiKeyRequired
| IterationsOutOfRange
| AllIterationsFailed.

Inductive Outcome (A : Type) :=
| Returns (a : A)
| Throws (e : FatalError).

Arguments Returns {A} a.
Arguments Throws {A} e.

(** [executionTimeMs] is left out: it is read from the clock. *)
Record Metadata := {
  metaPrompt : jsstring;
  metaModel : Model;
  metaIterations : nat;
  metaBrandName : option jsstring;
  metaSearchMode : SearchMode
}.

(** [recommendations] is left out: advisory text built from the fields
    below. *)
Record StabilityResult := {
  consistencyScore : float;
  semanticOverlap : float;
  responses : list ResponseData;
  analysis : Classification;
  brandMentionStats : BrandMentionStats;
  sentimentDistribution : SentimentDistribution;
  metadata : Metadata
}.

Definition orDefault (A : Type) (o : option A) (d : A) : A :=
  match o with
  | Some a => a
  | None => d
  end.

(** [brandName ? extractBrandMentions(cleaned, brandName) : []] *)
Definition mentionsFor (cleaned : jsstring) (brand : option jsstring)
    : list BrandMentionContext :=
  match brand with
  | Some b => if 0 <? length b then extractBrandMentions cleaned b else []
  | None => []
  end.

(** The record pushed for a resolved query. *)
Definition responseData (options : StabilityOptions) (i : nat)
    (result : QueryResult) : ResponseData :=
  let cleanedResponse := cleanResponse (response result) in
  let contexts := mentionsFor cleanedResponse (brandName options) in
  {| iteration := i;
     content := response result;
     contentLength := length (response result);
     estimatedTokens := estimateTokenCount (response result);
     brandMentions := length contexts;
     brandMentionContexts := contexts;
     keyPoints := extractKeyPoints cleanedResponse;
     responseSentiment := analyzeSentiment cleanedResponse;
     latencyMs := queryLatencyMs result;
     responseSearchMode := orDefault (searchMode options) memory;
     citations := queryCitations result |}.

Definition iterationError (i : nat) (error : Thrown) : IterationError :=
  {| errorIteration := i;
     errorMessage :=
       match error with
       | ThrownError msg => msg
       | ThrownValue _ => str "Unknown error"
       end;
     errorObject :=
       match error with
       | ThrownError msg => msg
       | ThrownValue repr => repr
       end |}.

Definition queryArgs (options : StabilityOptions) : QueryArgs :=
  {| queryModel := orDefault (model options) gemini;
     queryPrompt := prompt options;
     queryApiKey := apiKey options;
     queryTemperature := orDefault (temperature options) 0.7%float;
     queryMaxTokens := orDefault (maxTokens options) 2048;
     querySearchMode := orDefault (searchMode options) memory |}.

(** The state of the loop: the responses pushed and the events so far. *)
Definition RunState : Type := list ResponseData * list Event.

(** One turn of the loop, [try] and [catch]. *)
Definition runIteration (llm : QueryCapability) (options : StabilityOptions)
    (totalIterations : nat) (st : RunState) (i : nat) : RunState :=
  match llm (queryArgs options) i with
  | Resolved result =>
      let events1 :=
        if onProgress options then [ProgressCalled i totalIterations] else [] in
      let events2 :=
        if i <? totalIterations
        then [Delayed (orDefault (iterationDelayMs options) 1000)] else [] in
      (fst st ++ [responseData options i result], snd st ++ events1 ++ events2)
  | Rejected error =>
      (fst st,
       snd st ++
         [ if onError options then ErrorCalled (iterationError i error)
           else ConsoleErrorLogged i error ])
  end.

Definition analyzeStability (llm : QueryCapability) (options : StabilityOptions)
    : Outcome StabilityResult * list Event :=
  let iterations0 := orDefault (iterations options) 5%Z in
  if length (apiKey options) =? 0 then (Throws ApiKeyRequired, [])
  else if (iterations0 <? 1)%Z || (10 <? iterations0)%Z
  then (Throws IterationsOutOfRange, [])
  else
    let n := Z.to_nat iterations0 in
    let st := fold_left (runIteration llm options n) (seq 1 n) ([], []) in
    let responses0 := fst st in
    if length responses0 =? 0 then (Throws AllIterationsFailed, snd st)
    else
      let semanticOverlap0 := calculateAverageOverlap responses0 in
      let classification := classifyKeyMessages responses0 in
      let brandStats := calculateBrandMentionStats responses0 in
      let sentimentDist := calculateSentimentDistribution responses0 in
      let confidenceScore :=
        calculateConfidenceScore semanticOverlap0 brandStats
          (length (coreStableMessages classification)) in
      (Returns
         {| consistencyScore := confidenceScore;
            semanticOverlap := semanticOverlap0;
            responses := responses0;
            analysis := classification;
            brandMentionStats := brandStats;
            sentimentDistribution := sentimentDist;
            metadata :=
              {| metaPrompt := prompt options;
                 metaModel := orDefault (model options) gemini;
                 metaIterations := length responses0;
                 metaBrandName := brandName options;
                 metaSearchMode := orDefault (searchMode options) memory |} |},
       snd st).







(** The tokens are in text order: each starts at or after [lo], is not
    empty, and the next ones start at or after its end. *)
Fixpoint tokensFrom (lo : nat) (ts : list BrandDetector.Token) : Prop :=
  match ts with
  | [] => True
  | t :: ts' =>
      lo <= BrandDetector.tokenStart t
      /\ BrandDetector.tokenStart t < BrandDetector.tokenEnd t
      /\ tokensFrom (BrandDetector.tokenEnd t) ts'
  end.

(** The order of two spans: by start offset, then by end offset. *)
Definition spanBefore (p q : nat * nat) : Prop :=
  fst p < fst q \/ (fst p = fst q /\ snd p < snd q).

(** The state of the detection loops: the occurrences found so far are in
    span order and all come before the span [bound]. *)
Definition detected_before (bound : nat * nat)
    (detected : list BrandDetector.DetectedBrand) : Prop :=
  StronglySorted (fun a b => spanBefore (BrandDetector.span a) (BrandDetector.span b))
    detected
  /\ Forall (fun d => spanBefore (BrandDetector.span d) bound) detected.

(* ================================================================== *)
(** ** brand-detector: what the loops of the detector compute *)
(* ================================================================== *)

(** A token of [tokenize] on the text [s0]: a non-empty slice of token
    characters. *)
Definition tokenOk (s0 : jsstring) (t : BrandDetector.Token) : Prop :=
  BrandDetector.tokenStart t < BrandDetector.tokenEnd t /\
  BrandDetector.tokenEnd t <= length s0 /\
  BrandDetector.text t
    = substring (BrandDetector.tokenStart t) (BrandDetector.tokenEnd t) s0 /\
  forallb BrandDetector.isTokenChar (BrandDetector.text t) = true.

(** The state of the tokenizer after the prefix [pre] of the text: the
    start of the run being read, and the run itself. *)
Definition curStart (pos : nat) (cur : option (jsstring * nat)) : nat :=
  match cur with
  | None => pos
  | Some (_, start) => start
  end.

Definition curOk (pre : jsstring) (cur : option (jsstring * nat)) : Prop :=
  match cur with
  | None => True
  | Some (acc, start) =>
      start < length pre /\ rev acc = skipn start pre /\
      forallb BrandDetector.isTokenChar (rev acc) = true
  end.

(** The occurrence the window of the first [len] tokens of [words] stands
    for, when its text is a brand of the database: what [tryCandidate]
    pushes, before the confidence filter and the duplicate check. *)
Definition windowBrand (d : BrandDetector.Detector)
    (words : list BrandDetector.Token) (len : nat)
    : option BrandDetector.DetectedBrand :=
  match firstn len words with
  | [] => None
  | (w :: _) as span =>
      let candidate := BrandDetector.join_space (map BrandDetector.text span) in
      match map_get (toLowerCase candidate) (BrandDetector.normalizedMap d) with
      | None => None
      | Some normalized0 =>
          if BrandDetector.truthy normalized0 then
            match BrandDetector.getConfidence d normalized0 with
            | Some confidence0 =>
                Some {| BrandDetector.name := candidate;
                        BrandDetector.normalized := normalized0;
                        BrandDetector.confidence := confidence0;
                        BrandDetector.startIndex := BrandDetector.tokenStart w;
                        BrandDetector.endIndex :=
                          BrandDetector.tokenEnd (last span w) |}
            | None => None
            end
          else None
      end
  end.

Definition confident (mc : BrandDetector.BrandConfidence)
    (b : BrandDetector.DetectedBrand) : bool :=
  BrandDetector.meetsMinConfidence (BrandDetector.confidence b) mc.

Definition windowsAt (d : BrandDetector.Detector)
    (mc : BrandDetector.BrandConfidence) (words : list BrandDetector.Token)
    (len : nat) : list BrandDetector.DetectedBrand :=
  match windowBrand d words len with
  | Some b => if confident mc b then [b] else []
  | None => []
  end.

(** The windows of one, two and three tokens, from every token on, in the
    order of the two loops. *)
Fixpoint windowsFrom (d : BrandDetector.Detector)
    (mc : BrandDetector.BrandConfidence) (words : list BrandDetector.Token)
    : list BrandDetector.DetectedBrand :=
  match words with
  | [] => []
  | _ :: rest =>
      flat_map (windowsAt d mc words) (seq 1 (Nat.min 3 (length words)))
      ++ windowsFrom d mc rest
  end.

(** The database of the detector's tests. *)
Definition customDb : BrandDetector.BrandDatabase :=
  {| BrandDetector.brands :=
       map str ["CustomCRM"; "OurBrand"; "CompetitorX"; "NicheTool"; "Target"]%string;
     BrandDetector.high_confidence :=
       map str ["CustomCRM"; "OurBrand"; "NicheTool"]%string;
     BrandDetector.ignored_terms := [str "target"] |}.

(** The occurrences of the brand [n] among [detected], in text order. *)
Definition occurrencesOf (detected : list BrandDetector.DetectedBrand)
    (n : jsstring) : list BrandDetector.DetectedBrand :=
  filter (fun b => str_eqb (BrandDetector.normalized b) n) detected.

(** The groups built from the occurrences [l]: one group per brand, in the
    order of the first occurrences, each holding the occurrences of its
    brand. *)
Definition groupsOf (l : list BrandDetector.DetectedBrand)
    (g : BrandDetector.BrandGroups) : Prop :=
  map fst g = Set_str (map BrandDetector.normalized l) /\
  Forall (fun e => snd e = occurrencesOf l (fst e)) g.

(* ================================================================== *)
(** ** dice-roller: calculateJaccardSimilarity *)
(* ================================================================== *)

Definition calculateJaccardSimilarity (a b : list jsstring) : float :=
  let setA := Set_str (map toLowerCase a) in
  let setB := Set_str (map toLowerCase b) in
  if (length setA =? 0) && (length setB =? 0) then 1%float
  else if (length setA =? 0) || (length setB =? 0) then 0%float
  else
    let intersection := Set_str (filter (fun x => str_mem x setB) setA) in
    let union := Set_str (setA ++ setB) in
    (num (length intersection) / num (length union))%float.

(** *** cleanResponse: deletions *)

(** [l1] is [l2] with some of its elements deleted. *)
Inductive subseq (A : Type) : list A -> list A -> Prop :=
| subseq_nil : subseq [] []
| subseq_skip : forall x l1 l2, subseq l1 l2 -> subseq l1 (x :: l2)
| subseq_keep : forall x l1 l2, subseq l1 l2 -> subseq (x :: l1) (x :: l2).

(** What every regular expression of [stripMarkdown] does at a match: the
    replacement is a part of the matched text. *)
Definition shrinking (m : Matcher) : Prop :=
  forall prev s len replacement,
    m prev s = Some (len, replacement) ->
    1 <= len /\ subseq replacement (firstn len s).

(** Every white-space character of [s] is a single space that follows no
    white space; [inws] tells that the character before [s] is white
    space. *)
Fixpoint collapsed (inws : bool) (s : jsstring) : bool :=
  match s with
  | [] => true
  | c :: s' =>
      if isSpace c then negb inws && Ascii.eqb c " "%char && collapsed true s'
      else collapsed false s'
  end.

(** *** extractBrandMentions: matches and contexts *)





(** *** analyzeStability: the trace of a run *)





(* ================================================================== *)
(** ** dice-roller: cross-model analysis *)
(* ================================================================== *)

Record BrandFrequency := {
  bfBrand : jsstring;
  bfCount : nat;
  bfPercentage : float
}.

Record ModelExperimentResult := {
  mrModel : Model;
  mrResult : StabilityResult;
  uniqueBrands : list jsstring;
  brandFrequencies : list BrandFrequency
}.

Record CrossModelOverlap := {
  modelA : Model;
  modelB : Model;
  sharedBrands : nat;
  sharedBrandNames : list jsstring;
  jaccardIndex : float
}.

Definition round3 (x : float) : float := (Math_round (x * 1000) / 1000)%float.

(** [brands.find((x) => x.toLowerCase() === b)] *)
Definition findOriginal (b : jsstring) (brands : list jsstring)
    : option jsstring :=
  find (fun x => str_eqb (toLowerCase x) b) brands.

(** [found || otherwise]: [undefined] and the empty string are falsy. *)
Definition orElse (found : option jsstring) (otherwise : jsstring) : jsstring :=
  match found with
  | Some x => if length x =? 0 then otherwise else x
  | None => otherwise
  end.

(** The body of the double loop of [calculateCrossModelOverlapStats]. *)
Definition overlapOf (mA mB : ModelExperimentResult) : CrossModelOverlap :=
  let setA := Set_str (map toLowerCase (uniqueBrands mA)) in
  let setB := Set_str (map toLowerCase (uniqueBrands mB)) in
  let intersection := Set_str (filter (fun x => str_mem x setB) setA) in
  let union := Set_str (setA ++ setB) in
  let sharedBrandNames0 :=
    map (fun b =>
           orElse (findOriginal b (uniqueBrands mA))
             (orElse (findOriginal b (uniqueBrands mB)) b)) intersection in
  {| modelA := mrModel mA;
     modelB := mrModel mB;
     sharedBrands := length intersection;
     sharedBrandNames := sharedBrandNames0;
     jaccardIndex :=
       if 0 <? length union
       then round3 (num (length intersection) / num (length union))%float
       else 0%float |}.

(** The pairs [(i, j)], [i < j], in the order of the double loop. *)
Fixpoint calculateCrossModelOverlapStats
    (modelResults : list ModelExperimentResult) : list CrossModelOverlap :=
  match modelResults with
  | [] => []
  | mA :: rest =>
      map (overlapOf mA) rest ++ calculateCrossModelOverlapStats rest
  end.

(** The inner loop of the last step of [findUniversalBrands]: the casing
    of the first model that has a non-empty brand for [b]. *)
Fixpoint firstFound (b : jsstring) (modelResults : list ModelExperimentResult)
    : jsstring :=
  match modelResults with
  | [] => b
  | mr :: rest =>
      match findOriginal b (uniqueBrands mr) with
      | Some found => if length found =? 0 then firstFound b rest else found
      | None => firstFound b rest
      end
  end.

Definition findUniversalBrands (modelResults : list ModelExperimentResult)
    : list jsstring :=
  match modelResults with
  | [] => []
  | first :: others =>
      let commonBrands :=
        fold_left (fun commonBrands mr =>
          let modelBrands := Set_str (map toLowerCase (uniqueBrands mr)) in
          Set_str (filter (fun b => str_mem b modelBrands) commonBrands))
          others (Set_str (map toLowerCase (uniqueBrands first))) in
      map (fun b => firstFound b modelResults) commonBrands
  end.

Definition Model_eqb (a b : Model) : bool :=
  match a, b with
  | gemini, gemini => true
  | openai, openai => true
  | grok, grok => true
  | _, _ => false
  end.

(** [messageModelMap]: representative message -> set of models. *)
Definition MessageModelMap := list (jsstring * list Model).

(** The scan for a similar existing message, with its [break]. *)
Fixpoint addToSimilarMessage (normalized : jsstring) (m : Model)
    (messageModelMap : MessageModelMap) : option MessageModelMap :=
  match messageModelMap with
  | [] => None
  | (existing, models) :: rest =>
      if areSimilarKeyPoints normalized existing
      then Some ((existing, set_add Model_eqb m models) :: rest)
      else option_map (cons (existing, models))
             (addToSimilarMessage normalized m rest)
  end.

Definition addMessage (m : Model) (messageModelMap : MessageModelMap)
    (message0 : jsstring) : MessageModelMap :=
  let normalized := trim (toLowerCase message0) in
  match addToSimilarMessage normalized m messageModelMap with
  | Some map' => map'
  | None => map_set normalized [m] messageModelMap
  end.

Definition collectMessages (modelResults : list ModelExperimentResult)
    : MessageModelMap :=
  fold_left (fun messageModelMap mr =>
      fold_left (addMessage (mrModel mr))
        (coreStableMessages (analysis (mrResult mr))) messageModelMap)
    modelResults [].

Record CrossModelVariable := {
  cmMessage : jsstring;
  appearsInModels : list Model;
  cmFrequency : float
}.

Record UniversalMessages := {
  universalCore : list jsstring;
  crossModelVariable : list CrossModelVariable
}.

(** The body of the loop over [messageModelMap]. *)
Definition classifyMessage (totalModels : nat) (acc : UniversalMessages)
    (entry : jsstring * list Model) : UniversalMessages :=
  let (message0, models) := entry in
  let frequency0 := (num (length models) / num totalModels)%float in
  if length models =? totalModels then
    {| universalCore := universalCore acc ++ [message0];
       crossModelVariable := crossModelVariable acc |}
  else if 1 <? length models then
    {| universalCore := universalCore acc;
       crossModelVariable := crossModelVariable acc ++
         [ {| cmMessage := message0;
              appearsInModels := models;
              cmFrequency := Math_round (frequency0 * 100)%float |} ] |}
  else acc.

Definition findUniversalMessages (modelResults : list ModelExperimentResult)
    : UniversalMessages :=
  if length modelResults =? 0 then
    {| universalCore := []; crossModelVariable := [] |}
  else
    let messageModelMap := collectMessages modelResults in
    let totalModels := length modelResults in
    let found :=
      fold_left (classifyMessage totalModels) messageModelMap
        {| universalCore := []; crossModelVariable := [] |} in
    {| universalCore := universalCore found;
       crossModelVariable :=
         array_sort (fun a b => (cmFrequency b <? cmFrequency a)%float)
           (crossModelVariable found) |}.

(** *** findUniversalMessages: what the message map records *)

(** The model result [mr] has a core message whose normalized form is
    [message0] or is similar to it. *)
Definition supports (mr : ModelExperimentResult) (message0 : jsstring) : Prop :=
  exists msg,
    In msg (coreStableMessages (analysis (mrResult mr))) /\
    (trim (toLowerCase msg) = message0
     \/ areSimilarKeyPoints (trim (toLowerCase msg)) message0 = true).

(** The invariant of [messageModelMap] while the results [rs] are read:
    an entry names each model once, every named model supports the
    message, and the message is a normalized core message. *)
Definition message_ok (rs : list ModelExperimentResult)
    (e : jsstring * list Model) : Prop :=
  NoDup (snd e) /\
  (forall mo, In mo (snd e) ->
     exists mr, In mr rs /\ mrModel mr = mo /\ supports mr (fst e)) /\
  (exists mr msg, In mr rs /\
     In msg (coreStableMessages (analysis (mrResult mr))) /\
     fst e = trim (toLowerCase msg)).

Definition messages_ok (rs : list ModelExperimentResult)
    (m : MessageModelMap) : Prop :=
  NoDup (map fst m) /\ Forall (message_ok rs) m.

(** A sample experiment: three models, one message all of them have as a
    core message and one that two of them have. *)
Definition sampleStabilityResult (coreMessages : list string) : StabilityResult :=
  {| consistencyScore := 80%float;
     semanticOverlap := 80%float;
     responses := [];
     analysis :=
       {| coreStableMessages := map str coreMessages; variableMessages := [];
          outliers := []; keyPointFrequency := [] |};
     brandMentionStats :=
       {| total := 0%float; min := 0%float; max := 0%float; average := 0%float;
          variance := 0%float; standardDeviation := 0%float; allContexts := [] |};
     sentimentDistribution :=
       {| positivePercent := 0%float; neutralPercent := 100%float;
          negativePercent := 0%float |};
     metadata :=
       {| metaPrompt := str "What are the best task trackers?";
          metaModel := gemini; metaIterations := 5; metaBrandName := None;
          metaSearchMode := memory |} |}.

Definition sampleModelResults : list ModelExperimentResult :=
  [ {| mrModel := gemini;
       mrResult := sampleStabilityResult
         ["asana is great for task tracking";
          "trello offers simple kanban boards"]%string;
       uniqueBrands := map str ["Asana"; "Trello"]%string;
       brandFrequencies := [] |};
    {| mrModel := openai;
       mrResult := sampleStabilityResult
         ["Asana is great for task tracking";
          "trello offers simple kanban boards"]%string;
       uniqueBrands := map str ["asana"; "Trello"; "Jira"]%string;
       brandFrequencies := [] |};
    {| mrModel := grok;
       mrResult := sampleStabilityResult ["asana is great for task tracking"%string];
       uniqueBrands := map str ["ASANA"; "Monday"]%string;
       brandFrequencies := [] |} ].

(* ================================================================== *)
(** ** dice-roller: runExperiment *)
(* ================================================================== *)

Record ExperimentApiKeys := {
  geminiApiKey : option jsstring;
  openaiApiKey : option jsstring;
  grokApiKey : option jsstring
}.

(** [expOnProgress] and [expOnError] tell whether the callback is
    supplied.  [analysisConfig] is left out: [runExperiment] does not read
    it. *)
Record ExperimentOptions := {
  expPrompt : jsstring;
  apiKeys : ExperimentApiKeys;
  expIterations : option Z;
  expTemperature : option float;
  expMaxTokens : option nat;
  expBrandName : option jsstring;
  expIterationDelayMs : option nat;
  expSearchMode : option SearchMode;
  expOnProgress : bool;
  expOnError : bool
}.

(** What the experiment does to the outside: an event of the run of one
    model (a progress call is [onProgress(model, i, total)]), or the
    [console.error] for a model whose analysis threw. *)
Inductive ExperimentEvent :=
| ModelEvent (m : Model) (ev : Event)
| ModelErrorLogged (m : Model) (e : FatalError).

Inductive ExperimentError :=
| ApiKeyMissing
| AllModelsFailed.

Inductive ExperimentOutcome (A : Type) :=
| ExperimentReturns (a : A)
| ExperimentThrows (e : ExperimentError).

Arguments ExperimentReturns {A} a.
Arguments ExperimentThrows {A} e.

(** [if (apiKeys.k) modelsToRun.push({ model, apiKey: apiKeys.k })] *)
Definition keyEntry (m : Model) (key : option jsstring)
    : list (Model * jsstring) :=
  match key with
  | Some k => if 0 <? length k then [(m, k)] else []
  | None => []
  end.

Definition modelsToRun (keys : ExperimentApiKeys) : list (Model * jsstring) :=
  keyEntry gemini (geminiApiKey keys)
  ++ keyEntry openai (openaiApiKey keys)
  ++ keyEntry grok (grokApiKey keys).

(** The options handed to [analyzeStability] for one model: the defaults
    are filled in, and no [onError] is passed. *)
Definition stabilityOptionsOf (options : ExperimentOptions) (m : Model)
    (key : jsstring) : StabilityOptions :=
  {| prompt := expPrompt options;
     iterations := Some (orDefault (expIterations options) 5%Z);
     model := Some m;
     apiKey := key;
     temperature := Some (orDefault (expTemperature options) 0.7%float);
     maxTokens := Some (orDefault (expMaxTokens options) 2048);
     brandName := expBrandName options;
     iterationDelayMs := Some (orDefault (expIterationDelayMs options) 1000);
     searchMode := Some (orDefault (expSearchMode options) memory);
     onProgress := expOnProgress options;
     onError := false |}.

(** [extractBrandsFromResponses]: the brand counts of the responses, in
    insertion order.  Its named-entity patterns are not embedded; the
    function is a parameter of the run. *)
Definition BrandExtractor : Type := list ResponseData -> list (jsstring * nat).

Definition brandFrequenciesOf (brandCounts : list (jsstring * nat))
    : list BrandFrequency :=
  let totalMentions := fold_left (fun a b => a + b) (map snd brandCounts) 0 in
  array_sort (fun a b => bfCount b <? bfCount a)
    (map (fun e =>
            {| bfBrand := fst e;
               bfCount := snd e;
               bfPercentage :=
                 if 0 <? totalMentions
                 then Math_round (num (snd e) / num totalMentions * 100)%float
                 else 0%float |}) brandCounts).

(** The state of the loop over the models: [modelResults] and the events
    so far. *)
Definition ExperimentState : Type :=
  list ModelExperimentResult * list ExperimentEvent.

(** One turn of the loop over [modelsToRun], [try] and [catch]. *)
Definition runModel (llm : QueryCapability)
    (extractBrandsFromResponses : BrandExtractor) (options : ExperimentOptions)
    (st : ExperimentState) (entry : Model * jsstring) : ExperimentState :=
  let (m, key) := entry in
  let run := analyzeStability llm (stabilityOptionsOf options m key) in
  let events := map (ModelEvent m) (snd run) in
  match fst run with
  | Returns result =>
      let brandCounts := extractBrandsFromResponses (responses result) in
      (fst st ++ [ {| mrModel := m;
                      mrResult := result;
                      uniqueBrands := map fst brandCounts;
                      brandFrequencies := brandFrequenciesOf brandCounts |} ],
       snd st ++ events)
  | Throws e => (fst st, snd st ++ events ++ [ModelErrorLogged m e])
  end.

(** [totalExecutionTimeMs] is left out: it is read from the clock. *)
Record ExperimentMetadata := {
  expMetaPrompt : jsstring;
  modelsUsed : list Model;
  iterationsPerModel : Z;
  expMetaBrandName : option jsstring;
  expMetaSearchMode : SearchMode
}.

(** [statistics] and [recommendations] are left out: the entropy takes
    logarithms, and the recommendations are advisory text. *)
Record ExperimentResult := {
  expModelResults : list ModelExperimentResult;
  universalCoreMessages : list jsstring;
  crossModelVariableMessages : list CrossModelVariable;
  crossModelOverlap : list CrossModelOverlap;
  universalBrands : list jsstring;
  expMetadata : ExperimentMetadata
}.

Definition runExperiment (llm : QueryCapability)
    (extractBrandsFromResponses : BrandExtractor) (options : ExperimentOptions)
    : ExperimentOutcome ExperimentResult * list ExperimentEvent :=
  let toRun := modelsToRun (apiKeys options) in
  if length toRun =? 0 then (ExperimentThrows ApiKeyMissing, [])
  else
    let st :=
      fold_left (runModel llm extractBrandsFromResponses options) toRun ([], []) in
    let modelResults0 := fst st in
    if length modelResults0 =? 0 then (ExperimentThrows AllModelsFailed, snd st)
    else
      let found := findUniversalMessages modelResults0 in
      (ExperimentReturns
         {| expModelResults := modelResults0;
            universalCoreMessages := universalCore found;
            crossModelVariableMessages := crossModelVariable found;
            crossModelOverlap := calculateCrossModelOverlapStats modelResults0;
            universalBrands := findUniversalBrands modelResults0;
            expMetadata :=
              {| expMetaPrompt := expPrompt options;
                 modelsUsed := map mrModel modelResults0;
                 iterationsPerModel := orDefault (expIterations options) 5%Z;
                 expMetaBrandName := expBrandName options;
                 expMetaSearchMode := orDefault (expSearchMode options) memory |} |},
       snd st).



(** The models whose failure is logged, with the error, in order, and the
    errors handed to [onError]. *)
Definition modelErrorsLogged (events : list ExperimentEvent)
    : list (Model * FatalError) :=
  flat_map (fun ev =>
              match ev with
              | ModelErrorLogged m e => [(m, e)]
              | _ => []
              end) events.

Definition modelErrorsDelivered (events : list ExperimentEvent)
    : list IterationError :=
  flat_map (fun ev =>
              match ev with
              | ModelEvent _ (ErrorCalled e) => [e]
              | _ => []
              end) events.

(** A sample experiment: keys for Gemini and Grok; every Gemini query is
    rejected, the Grok queries resolve. *)
Definition sampleExperimentLlm : QueryCapability := fun args _ =>
  match queryModel args with
  | grok =>
      Resolved {| response := str "Asana is great for task tracking in teams.";
                  queryLatencyMs := 120; queryCitations := None |}
  | _ => Rejected (ThrownError (str "quota exceeded"))
  end.

Definition sampleExperimentOptions : ExperimentOptions :=
  {| expPrompt := str "What are the best task trackers?";
     apiKeys := {| geminiApiKey := Some (str "g-key");
                   openaiApiKey := None;
                   grokApiKey := Some (str "x-key") |};
     expIterations := Some 2%Z; expTemperature := None; expMaxTokens := None;
     expBrandName := None; expIterationDelayMs := None; expSearchMode := None;
     expOnProgress := false; expOnError := true |}.

(** *** cleanResponse: text without markdown *)

(** The characters the expressions of [stripMarkdown] start from:
    [#], [*], [-], [_] and the backquote. *)
Definition isMarkdownMarker (c : ascii) : bool :=
  isChar 35 c || isChar 42 c || isChar 45 c || isChar 95 c || isChar 96 c.

(** No digit of [s] is directly followed by a full stop. *)
Fixpoint noDigitBeforeDot (s : jsstring) : bool :=
  match s with
  | [] => true
  | c :: s' =>
      match s' with
      | d :: _ => negb (isDigit c && isChar 46 d)
      | [] => true
      end && noDigitBeforeDot s'
  end.

(** Text without markdown: no marker character and no numbered item. *)
Definition plainText (s : jsstring) : bool :=
  forallb (fun c => negb (isMarkdownMarker c)) s && noDigitBeforeDot s.

(** *** analyzeStability: the responses of a run *)



(* ================================================================== *)
(** * Properties *)
(* ================================================================== *)

(** ** Strings and sets *)

Lemma str_eqb_eq : forall a b, str_eqb a b = true <-> a = b.
Proof.
  induction a as [|x a IH]; destruct b as [|y b]; simpl; split; intro H;
    try reflexivity; try discriminate.
  - apply andb_true_iff in H. destruct H as [Hx Ha].
    apply Ascii.eqb_eq in Hx. apply IH in Ha. now subst.
  - injection H as -> ->. apply andb_true_iff. split.
    + apply Ascii.eqb_refl.
    + now apply IH.
Qed.

Lemma str_eqb_refl : forall a, str_eqb a a = true.
Proof. intro a. now apply str_eqb_eq. Qed.

Lemma str_eqb_neq : forall a b, str_eqb a b = false <-> a <> b.
Proof.
  intros a b. split.
  - intros H E. apply str_eqb_eq in E. congruence.
  - intro H. destruct (str_eqb a b) eqn:E; [|reflexivity].
    apply str_eqb_eq in E. contradiction.
Qed.

Lemma str_eqb_sym : forall a b, str_eqb a b = str_eqb b a.
Proof.
  intros a b. destruct (str_eqb a b) eqn:E.
  - apply str_eqb_eq in E. subst. symmetry. apply str_eqb_refl.
  - symmetry. apply str_eqb_neq. apply str_eqb_neq in E. congruence.
Qed.

Lemma str_mem_In : forall w l, str_mem w l = true <-> In w l.
Proof.
  intros w l. unfold str_mem. rewrite existsb_exists. split.
  - intros [x [Hx E]]. apply str_eqb_eq in E. now subst.
  - intro H. exists w. split; [assumption | apply str_eqb_refl].
Qed.

Section SetFacts.
Variable A : Type.
Variable eqb : A -> A -> bool.
Hypothesis eqb_eq : forall x y, eqb x y = true <-> x = y.

Lemma existsb_eqb_In : forall x l, existsb (eqb x) l = true <-> In x l.
Proof.
  intros x l. rewrite existsb_exists. split.
  - intros [y [Hy E]]. apply eqb_eq in E. now subst.
  - intro H. exists x. split; [assumption | now apply eqb_eq].
Qed.

Lemma set_add_In : forall x y l, In y (set_add eqb x l) <-> y = x \/ In y l.
Proof.
  intros x y l. unfold set_add.
  destruct (existsb (eqb x) l) eqn:E.
  - apply existsb_eqb_In in E. split; [tauto | intros [-> | H]; assumption].
  - rewrite in_app_iff. simpl. split; intros H; intuition congruence.
Qed.

Lemma set_add_NoDup : forall x l, NoDup l -> NoDup (set_add eqb x l).
Proof.
  intros x l H. unfold set_add.
  destruct (existsb (eqb x) l) eqn:E; [assumption|].
  assert (~ In x l) as Hx.
  { intro Hin. apply existsb_eqb_In in Hin. congruence. }
  clear E. induction H as [|y l Hy Hl IH]; simpl.
  - constructor; [intros [] | constructor].
  - constructor.
    + rewrite in_app_iff. simpl. intros [H | [H | []]].
      * contradiction.
      * subst. apply Hx. now left.
    + apply IH. intro H. apply Hx. now right.
Qed.

Lemma set_add_length : forall x l,
  length l <= length (set_add eqb x l) /\ 0 < length (set_add eqb x l).
Proof.
  intros x l. unfold set_add. destruct (existsb (eqb x) l) eqn:E.
  - split; [lia|]. destruct l; [discriminate | simpl; lia].
  - rewrite length_app. simpl. lia.
Qed.

Lemma set_of_list_acc_NoDup : forall l acc,
  NoDup acc -> NoDup (fold_left (fun acc x => set_add eqb x acc) l acc).
Proof.
  induction l as [|x l IH]; intros acc H; simpl; [assumption|].
  apply IH. now apply set_add_NoDup.
Qed.

Lemma set_of_list_NoDup : forall l, NoDup (set_of_list eqb l).
Proof. intro l. apply set_of_list_acc_NoDup. constructor. Qed.
End SetFacts.

Lemma getSignificantWords_NoDup : forall text, NoDup (getSignificantWords text).
Proof. intro text. apply set_of_list_NoDup. exact str_eqb_eq. Qed.

(** ** Key-point similarity (C3) *)

Lemma shareWordStem_sym : forall a b, shareWordStem a b = shareWordStem b a.
Proof.
  intros a b. unfold shareWordStem.
  rewrite (Nat.min_comm (length b) (length a)).
  destruct (Nat.min (length a) (length b) <? 5); [reflexivity|].
  apply str_eqb_sym.
Qed.

Lemma areSynonyms_sym : forall a b, areSynonyms a b = areSynonyms b a.
Proof.
  intros a b. unfold areSynonyms.
  induction SYNONYM_GROUPS as [|g gs IH]; simpl; [reflexivity|].
  rewrite IH. now rewrite (andb_comm (str_mem a g)).
Qed.

Lemma directOverlap_sym : forall wordsA wordsB,
  NoDup wordsA -> NoDup wordsB ->
  directOverlap wordsA wordsB = directOverlap wordsB wordsA.
Proof.
  intros wa wb Ha Hb. unfold directOverlap, count_if.
  apply Permutation_length. apply NoDup_Permutation.
  - now apply NoDup_filter.
  - now apply NoDup_filter.
  - intro w. rewrite !filter_In, !str_mem_In. tauto.
Qed.

(** C3, counterexample: two normalized key points that are similar in one
    direction only.  From "testing tested zebra" two words share a stem with
    "tester" (stem overlap 2, ratio 1.6/3); from "tester apple orange" only
    one word does (stem overlap 1, ratio 0.8/3 < 0.3). *)
Lemma areSimilarKeyPoints_asymmetric_example :
  let a := str "testing tested zebra" in
  let b := str "tester apple orange" in
  normalizeKeyPoint a = a /\ normalizeKeyPoint b = b /\
  areSimilarKeyPoints a b = true /\ areSimilarKeyPoints b a = false.
Proof. vm_compute. repeat split; reflexivity. Qed.

(** C3, as amended: the direct overlap of the two word sets is the same
    in both directions, and the similarity test gives the same answer in
    both directions whenever the stem-overlap and the concept-overlap
    counts of the two directions coincide. *)
Theorem areSimilarKeyPoints_sym_of_equal_counts : forall a b,
  let wordsA := getSignificantWords a in
  let wordsB := getSignificantWords b in
  directOverlap wordsA wordsB = directOverlap wordsB wordsA /\
  (stemOverlap wordsA wordsB = stemOverlap wordsB wordsA ->
   conceptOverlap wordsA wordsB = conceptOverlap wordsB wordsA ->
   areSimilarKeyPoints a b = areSimilarKeyPoints b a).
Proof.
  intros a b wordsA wordsB.
  assert (Hdirect : directOverlap wordsA wordsB = directOverlap wordsB wordsA)
    by (apply directOverlap_sym; apply getSignificantWords_NoDup).
  split; [exact Hdirect|].
  intros Hstem Hconcept. unfold areSimilarKeyPoints, similarity.
  fold wordsA wordsB. rewrite Hstem, Hconcept, Hdirect.
  rewrite (Nat.min_comm (length wordsB)).
  now rewrite (orb_comm (length wordsB =? 0)).
Qed.

(** The theorem at two key points about the same product. *)
Lemma areSimilarKeyPoints_sym_witness :
  let a := str "asana tracks tasks for teams" in
  let b := str "teams track every task in asana" in
  stemOverlap (getSignificantWords a) (getSignificantWords b)
    = stemOverlap (getSignificantWords b) (getSignificantWords a) /\
  conceptOverlap (getSignificantWords a) (getSignificantWords b)
    = conceptOverlap (getSignificantWords b) (getSignificantWords a) /\
  areSimilarKeyPoints a b = areSimilarKeyPoints b a.
Proof.
  intros a b.
  assert (H1 : stemOverlap (getSignificantWords a) (getSignificantWords b)
    = stemOverlap (getSignificantWords b) (getSignificantWords a))
    by (vm_compute; reflexivity).
  assert (H2 : conceptOverlap (getSignificantWords a) (getSignificantWords b)
    = conceptOverlap (getSignificantWords b) (getSignificantWords a))
    by (vm_compute; reflexivity).
  split; [exact H1 | split; [exact H2 |]].
  exact (proj2 (areSimilarKeyPoints_sym_of_equal_counts a b) H1 H2).
Defined.

(** ** Stable sorting *)

Section SortFacts.
Variable A : Type.
Variable lt : A -> A -> bool.
Variable key : A -> Z.
Hypothesis lt_key : forall a b, lt a b = (key a <? key b)%Z.

Lemma sort_insert_Permutation : forall x l,
  Permutation (sort_insert lt x l) (x :: l).
Proof.
  intros x l. induction l as [|y l IH]; simpl; [reflexivity|].
  destruct (lt y x); [|reflexivity].
  rewrite IH. apply perm_swap.
Qed.

Lemma array_sort_Permutation : forall l, Permutation (array_sort lt l) l.
Proof.
  induction l as [|x l IH]; simpl; [reflexivity|].
  rewrite sort_insert_Permutation. now constructor.
Qed.

Lemma sort_insert_sorted : forall x l,
  StronglySorted (key_le key) l -> StronglySorted (key_le key) (sort_insert lt x l).
Proof.
  intros x l H. induction H as [|y l Hl IH Hy]; simpl.
  - constructor; constructor.
  - rewrite lt_key. destruct (key y <? key x)%Z eqn:E.
    + constructor; [assumption|].
      apply (Permutation_Forall (Permutation_sym (sort_insert_Permutation x l))).
      constructor; [|assumption].
      apply Z.ltb_lt in E. unfold key_le. lia.
    + apply Z.ltb_ge in E. constructor.
      * now constructor.
      * constructor; [exact E|].
        eapply Forall_impl; [|exact Hy].
        intros z Hz. unfold key_le in *. lia.
Qed.

Lemma array_sort_sorted : forall l, StronglySorted (key_le key) (array_sort lt l).
Proof.
  induction l as [|x l IH]; simpl; [constructor|].
  now apply sort_insert_sorted.
Qed.

Lemma sort_insert_filter : forall k x l,
  filter (fun a => (key a =? k)%Z) (sort_insert lt x l)
  = filter (fun a => (key a =? k)%Z) (x :: l).
Proof.
  intros k x l. induction l as [|y l IH]; [reflexivity|].
  simpl sort_insert. rewrite lt_key.
  destruct (key y <? key x)%Z eqn:E; [|reflexivity].
  apply Z.ltb_lt in E. simpl in *. rewrite IH.
  destruct (key x =? k)%Z eqn:Ex; [|reflexivity].
  destruct (key y =? k)%Z eqn:Ey; [|reflexivity].
  apply Z.eqb_eq in Ex, Ey. lia.
Qed.

(** Stability: the elements of any one key keep their original order. *)
Lemma array_sort_stable : forall k l,
  filter (fun a => (key a =? k)%Z) (array_sort lt l)
  = filter (fun a => (key a =? k)%Z) l.
Proof.
  intros k l. induction l as [|x l IH]; [reflexivity|].
  simpl array_sort. rewrite sort_insert_filter. simpl. now rewrite IH.
Qed.
End SortFacts.

Lemma array_sort_ltb_sorted : forall l,
  StronglySorted le (array_sort Nat.ltb l) /\ Permutation (array_sort Nat.ltb l) l.
Proof.
  intro l. split.
  - assert (H := @array_sort_sorted nat Nat.ltb Z.of_nat).
    eapply StronglySorted_ind with (P := StronglySorted le); [constructor | | apply H].
    + intros a l0 _ IH Ha. constructor; [assumption|].
      eapply Forall_impl; [|exact Ha]. intros b Hb. unfold key_le in Hb. lia.
    + intros a b. destruct (Nat.ltb_spec a b), (Z.ltb_spec (Z.of_nat a) (Z.of_nat b)); try reflexivity; lia.
  - apply array_sort_Permutation.
Qed.


(** ** Insertion-ordered maps *)

Lemma map_set_keys : forall (V : Type) k (v : V) m,
  map fst (map_set k v m)
  = if str_mem k (map fst m) then map fst m else map fst m ++ [k].
Proof.
  intros V k v m. induction m as [|[k' v'] m IH]; simpl; [reflexivity|].
  destruct (str_eqb k k') eqn:E; simpl; [reflexivity|].
  rewrite IH. unfold str_mem. now destruct (existsb (str_eqb k) (map fst m)).
Qed.

Lemma map_set_fresh : forall (V : Type) k (v : V) m,
  ~ In k (map fst m) -> map_set k v m = m ++ [(k, v)].
Proof.
  intros V k v m. induction m as [|[k' v'] m IH]; simpl; intro H; [reflexivity|].
  destruct (str_eqb k k') eqn:E.
  - apply str_eqb_eq in E. subst. exfalso. apply H. now left.
  - rewrite IH; [reflexivity|]. intro Hin. apply H. now right.
Qed.

Lemma map_set_NoDup : forall (V : Type) k (v : V) m,
  NoDup (map fst m) -> NoDup (map fst (map_set k v m)).
Proof.
  intros V k v m H. rewrite map_set_keys.
  destruct (str_mem k (map fst m)) eqn:E; [assumption|].
  apply NoDup_app; [assumption | constructor; [intros [] | constructor] |].
  intros x Hx [<- | []]. apply str_mem_In in Hx. congruence.
Qed.

Lemma map_get_In : forall (V : Type) k (v : V) m,
  NoDup (map fst m) -> In (k, v) m -> map_get k m = Some v.
Proof.
  intros V k v m. induction m as [|[k' v'] m IH]; simpl; intros Hnd Hin; [contradiction|].
  inversion Hnd as [|? ? Hk' Hm]; subst.
  destruct Hin as [E | Hin].
  - injection E as -> ->. now rewrite str_eqb_refl.
  - destruct (str_eqb k k') eqn:E.
    + apply str_eqb_eq in E. subst. exfalso. apply Hk'.
      change k' with (fst (k', v)). now apply in_map.
    + now apply IH.
Qed.

(** ** The clusters built by classifyKeyMessages *)

Lemma nat_eqb_eq : forall x y, Nat.eqb x y = true <-> x = y.
Proof. exact Nat.eqb_eq. Qed.

Lemma cluster_ok_add : forall T k its it,
  1 <= it <= T -> cluster_ok T (k, its) ->
  cluster_ok T (k, set_add Nat.eqb it its).
Proof.
  intros T k its it Hit (Hne & Hnd & Hall). unfold cluster_ok. simpl in *.
  repeat split.
  - intro E. pose proof (set_add_length Nat.eqb it its) as [_ H].
    rewrite E in H. simpl in H. lia.
  - now apply (set_add_NoDup Nat.eqb nat_eqb_eq).
  - apply Forall_forall. intros x Hx.
    apply (set_add_In Nat.eqb nat_eqb_eq) in Hx. destruct Hx as [-> | Hx]; [assumption|].
    rewrite Forall_forall in Hall. now apply Hall.
Qed.

Lemma addToFirstSimilar_ok : forall T normalized it m m',
  1 <= it <= T -> clusters_ok T m ->
  addToFirstSimilar normalized it m = Some m' ->
  clusters_ok T m' /\ map fst m' = map fst m.
Proof.
  intros T normalized it m. induction m as [|[k its] m IH]; simpl;
    intros m' Hit [Hnd Hall] H; [discriminate|].
  inversion Hall as [|? ? Hk Hm]; subst.
  destruct (areSimilarKeyPoints normalized k).
  - injection H as <-. split; [|reflexivity]. split; [exact Hnd|].
    constructor; [|assumption]. now apply cluster_ok_add.
  - destruct (addToFirstSimilar normalized it m) as [m0|] eqn:E; [|discriminate].
    injection H as <-. inversion Hnd as [|? ? Hk' Hnd']; subst.
    destruct (IH m0 Hit (conj Hnd' Hm) eq_refl) as [[Hnd0 Hall0] Hkeys].
    split; [|simpl; now rewrite Hkeys].
    split; [simpl; rewrite Hkeys; exact Hnd | now constructor].
Qed.

Lemma addKeyPoint_ok : forall T i m keyPoint,
  i + 1 <= T -> clusters_ok T m -> clusters_ok T (addKeyPoint i m keyPoint).
Proof.
  intros T i m keyPoint Hi Hm. unfold addKeyPoint.
  destruct (addToFirstSimilar (normalizeKeyPoint keyPoint) (i + 1) m) as [m'|] eqn:E.
  - eapply addToFirstSimilar_ok; [| exact Hm | exact E]. lia.
  - destruct Hm as [Hnd Hall]. split; [now apply map_set_NoDup|].
    clear E. induction m as [|[k its] m IH]; simpl.
    + repeat constructor; simpl; [discriminate | intros [] | lia | lia].
    + inversion Hall; subst. inversion Hnd; subst.
      destruct (str_eqb (normalizeKeyPoint keyPoint) k).
      * constructor; [|assumption].
        repeat split; simpl; [discriminate | repeat constructor; intros [] |
                              repeat constructor; lia].
      * constructor; [assumption | now apply IH].
Qed.

Lemma fold_addKeyPoint_ok : forall T i kps m,
  i + 1 <= T -> clusters_ok T m -> clusters_ok T (fold_left (addKeyPoint i) kps m).
Proof.
  intros T i kps. induction kps as [|kp kps IH]; simpl; intros m Hi Hm; [assumption|].
  apply IH; [assumption | now apply addKeyPoint_ok].
Qed.

Lemma clusterFrom_ok : forall responses i m T,
  i + length responses <= T -> clusters_ok T m ->
  clusters_ok T (clusterFrom i responses m).
Proof.
  intro rs0. induction rs0 as [|r rs IH]; simpl; intros i m T Hi Hm; [assumption|].
  apply IH; [lia|]. apply fold_addKeyPoint_ok; [lia | assumption].
Qed.

Lemma clusterKeyPoints_ok : forall responses,
  clusters_ok (length responses) (clusterKeyPoints responses).
Proof.
  intro responses. apply clusterFrom_ok; [simpl; lia|].
  split; constructor.
Qed.

Lemma cluster_size_bounds : forall T k its,
  cluster_ok T (k, its) -> 1 <= length its <= T.
Proof.
  intros T k its (Hne & Hnd & Hall). simpl in *. split.
  - destruct its; [congruence | simpl; lia].
  - assert (H : length its <= length (seq 1 T)).
    { apply NoDup_incl_length; [assumption|].
      intros x Hx. rewrite Forall_forall in Hall. apply in_seq.
      specialize (Hall x Hx). lia. }
    now rewrite length_seq in H.
Qed.


(** ** classifyKeyMessages: the three buckets (C5, C9) *)

Lemma classify_fold : forall T m acc,
  let r := fold_left (classifyCluster T) m acc in
  coreStableMessages r
    = coreStableMessages acc ++ map fst (filter (inBucket CoreBucket T) m) /\
  variableMessages r
    = variableMessages acc
      ++ map (variableMessageOf T) (filter (inBucket VariableBucket T) m) /\
  outliers r = outliers acc ++ map fst (filter (inBucket OutlierBucket T) m) /\
  keyPointFrequency r
    = fold_left (fun rec e => map_set (fst e) (length (snd e)) rec) m
        (keyPointFrequency acc).
Proof.
  intros T m. induction m as [|[k its] m IH]; intro acc; cbv zeta in *; cbn [fold_left filter map].
  - now rewrite !app_nil_r.
  - specialize (IH (classifyCluster T acc (k, its))).
    destruct IH as (Hc & Hv & Ho & Hf).
    rewrite Hc, Hv, Ho, Hf. clear Hc Hv Ho Hf.
    unfold classifyCluster, inBucket, bucketOf. cbn [fst snd].
    destruct (num_ge (clusterFrequency (length its) T) CORE_MESSAGE_THRESHOLD);
      [|destruct (num_ge (clusterFrequency (length its) T) VARIABLE_MESSAGE_THRESHOLD)];
      simpl; rewrite <- ?app_assoc; repeat split; reflexivity.
Qed.

Lemma frequency_record_fold : forall (m : KeyPointMap) rec,
  NoDup (map fst rec ++ map fst m) ->
  fold_left (fun rec e => map_set (fst e) (length (snd e)) rec) m rec
  = rec ++ map (fun e => (fst e, length (snd e))) m.
Proof.
  induction m as [|[k its] m IH]; intros rec H; simpl.
  - now rewrite app_nil_r.
  - rewrite map_set_fresh.
    + rewrite IH.
      * now rewrite <- app_assoc.
      * rewrite map_app. simpl. now rewrite <- app_assoc.
    + simpl in H. apply NoDup_remove_2 in H. intro Hin. apply H.
      apply in_or_app. now left.
Qed.

Lemma classifyKeyMessages_lists : forall responses,
  let T := length responses in
  let m := clusterKeyPoints responses in
  let r := classifyKeyMessages responses in
  coreStableMessages r = map fst (filter (inBucket CoreBucket T) m) /\
  variableMessages r
    = map (variableMessageOf T) (filter (inBucket VariableBucket T) m) /\
  outliers r = map fst (filter (inBucket OutlierBucket T) m) /\
  keyPointFrequency r = map (fun e => (fst e, length (snd e))) m.
Proof.
  intros responses T m r.
  destruct (classify_fold T m emptyClassification) as (Hc & Hv & Ho & Hf).
  repeat split; try assumption.
  unfold r, classifyKeyMessages. fold T. fold m. rewrite Hf.
  apply (frequency_record_fold m []). simpl.
  apply clusterKeyPoints_ok.
Qed.

Lemma bucket_cases : forall T e,
  (inBucket CoreBucket T e = true /\ inBucket VariableBucket T e = false
     /\ inBucket OutlierBucket T e = false) \/
  (inBucket CoreBucket T e = false /\ inBucket VariableBucket T e = true
     /\ inBucket OutlierBucket T e = false) \/
  (inBucket CoreBucket T e = false /\ inBucket VariableBucket T e = false
     /\ inBucket OutlierBucket T e = true).
Proof.
  intros T e. unfold inBucket. destruct (bucketOf (length (snd e)) T); tauto.
Qed.

Lemma three_way_Permutation : forall T (m : KeyPointMap),
  Permutation
    (filter (inBucket CoreBucket T) m ++ filter (inBucket VariableBucket T) m
       ++ filter (inBucket OutlierBucket T) m) m.
Proof.
  intros T m. induction m as [|e m IH]; simpl; [reflexivity|].
  destruct (bucket_cases T e) as [(-> & -> & ->) | [(-> & -> & ->) | (-> & -> & ->)]].
  - simpl. now constructor.
  - etransitivity; [symmetry; apply Permutation_middle | now constructor].
  - rewrite app_assoc.
    etransitivity; [symmetry; apply Permutation_middle|].
    constructor. now rewrite <- app_assoc.
Qed.

Lemma NoDup_app_disjoint : forall (A : Type) (l1 l2 : list A) x,
  NoDup (l1 ++ l2) -> In x l1 -> In x l2 -> False.
Proof.
  intros A l1 l2 x. induction l1 as [|y l1 IH]; simpl; intros H H1 H2; [contradiction|].
  inversion H as [|? ? Hy Hnd]; subst. destruct H1 as [-> | H1].
  - apply Hy. apply in_or_app. now right.
  - now apply IH.
Qed.

Lemma map_message_variableMessageOf : forall T (l : KeyPointMap),
  map message (map (variableMessageOf T) l) = map fst l.
Proof. intros T l. rewrite map_map. reflexivity. Qed.

(** C9: the three lists returned by classifyKeyMessages partition the
    cluster representatives: together they are a rearrangement of the
    duplicate-free list of representatives, so every representative is in
    exactly one list (and once); and keyPointFrequency maps every
    representative to the size of its duplicate-free iteration set. *)
Theorem classifyKeyMessages_partition : forall responses,
  let clusters := clusterKeyPoints responses in
  let r := classifyKeyMessages responses in
  let core := coreStableMessages r in
  let variable := map message (variableMessages r) in
  NoDup (map fst clusters) /\
  Permutation (core ++ variable ++ outliers r) (map fst clusters) /\
  (forall k, In k (map fst clusters) ->
     (In k core /\ ~ In k variable /\ ~ In k (outliers r)) \/
     (~ In k core /\ In k variable /\ ~ In k (outliers r)) \/
     (~ In k core /\ ~ In k variable /\ In k (outliers r))) /\
  (forall k iterations, In (k, iterations) clusters ->
     NoDup iterations /\
     map_get k (keyPointFrequency r) = Some (length iterations)).
Proof.
  intros responses clusters r core variable.
  destruct (classifyKeyMessages_lists responses) as (Hc & Hv & Ho & Hf).
  destruct (clusterKeyPoints_ok responses) as [Hnd Hall].
  fold clusters in Hc, Hv, Ho, Hf, Hnd, Hall. fold r in Hc, Hv, Ho, Hf.
  assert (Hperm : Permutation (core ++ variable ++ outliers r) (map fst clusters)).
  { unfold core, variable. rewrite Hc, Hv, Ho, map_message_variableMessageOf.
    rewrite <- !map_app. apply Permutation_map. apply three_way_Permutation. }
  assert (Hnd3 : NoDup (core ++ variable ++ outliers r)).
  { eapply Permutation_NoDup; [symmetry; exact Hperm | exact Hnd]. }
  split; [exact Hnd|]. split; [exact Hperm|]. split.
  - intros k Hk.
    apply (Permutation_in _ (Permutation_sym Hperm)) in Hk.
    assert (Hcv : In k core -> In k variable -> False).
    { intros H1 H2. apply (NoDup_app_disjoint _ _ k Hnd3 H1).
      apply in_or_app. now left. }
    assert (Hco : In k core -> In k (outliers r) -> False).
    { intros H1 H2. apply (NoDup_app_disjoint _ _ k Hnd3 H1).
      apply in_or_app. now right. }
    assert (Hvo : In k variable -> In k (outliers r) -> False).
    { apply NoDup_app_remove_l in Hnd3. intros H1 H2.
      exact (NoDup_app_disjoint _ _ k Hnd3 H1 H2). }
    apply in_app_or in Hk. destruct Hk as [Hk | Hk]; [tauto|].
    apply in_app_or in Hk. destruct Hk as [Hk | Hk]; tauto.
  - intros k its Hin. split.
    + rewrite Forall_forall in Hall. now destruct (Hall _ Hin) as (_ & H & _).
    + rewrite Hf. apply map_get_In.
      * rewrite map_map. exact Hnd.
      * change (k, length its) with ((fun e : jsstring * list nat => (fst e, length (snd e))) (k, its)).
        now apply in_map.
Qed.


(** For the iteration counts the orchestrator admits (at most 10), the
    binary64 comparisons of [classifyCluster] decide exactly the fractions
    of the specification, and the rounded percentage is the exact one. *)
Lemma map_eq_pointwise : forall (A B : Type) (f g : A -> B) l x,
  map f l = map g l -> In x l -> f x = g x.
Proof.
  intros A B f g l x. induction l as [|y l IH]; simpl; intros E H; [contradiction|].
  injection E as E1 E2. destruct H as [-> | H]; [assumption | now apply IH].
Qed.

Lemma bucketOf_exact : forall T c,
  T <= 10 -> 1 <= c <= T ->
  bucketOf c T = specBucket c T /\
  Math_round (clusterFrequency c T * 100)%float = num (roundedPercent c T).
Proof.
  intros T c HT Hc.
  set (pairs := flat_map (fun T => map (fun c => (c, T)) (seq 1 T)) (seq 1 10)).
  assert (Hin : In (c, T) pairs).
  { apply in_flat_map. exists T. split; [apply in_seq; lia|].
    apply (in_map (fun c => (c, T))). apply in_seq. lia. }
  assert (E : map (fun p => (bucketOf (fst p) (snd p),
                             Math_round (clusterFrequency (fst p) (snd p) * 100)%float)) pairs
            = map (fun p => (specBucket (fst p) (snd p),
                             num (roundedPercent (fst p) (snd p)))) pairs)
    by (vm_compute; reflexivity).
  apply (map_eq_pointwise _ _ _ (c, T) E) in Hin. simpl in Hin.
  injection Hin as H1 H2. now split.
Qed.

Lemma specBucket_cases : forall c T,
  (specBucket c T = CoreBucket <-> 8 * T <= 10 * c) /\
  (specBucket c T = VariableBucket <-> 3 * T <= 10 * c < 8 * T) /\
  (specBucket c T = OutlierBucket <-> 10 * c < 3 * T).
Proof.
  intros c T. unfold specBucket.
  destruct (Nat.leb_spec (8 * T) (10 * c)); [|destruct (Nat.leb_spec (3 * T) (10 * c))];
    repeat split; intros; try discriminate; try reflexivity; lia.
Qed.

Lemma inBucket_iff : forall b T e,
  inBucket b T e = true <-> bucketOf (length (snd e)) T = b.
Proof.
  intros b T e. unfold inBucket.
  destruct (bucketOf (length (snd e)) T), b; split; intro; try reflexivity; discriminate.
Qed.

Lemma NoDup_keys_functional : forall (V : Type) (m : list (jsstring * V)) k a b,
  NoDup (map fst m) -> In (k, a) m -> In (k, b) m -> a = b.
Proof.
  intros V m k a b. induction m as [|[k' v] m IH]; simpl; intros Hnd Ha Hb; [contradiction|].
  inversion Hnd as [|? ? Hk Hm]; subst.
  destruct Ha as [Ea | Ha], Hb as [Eb | Hb].
  - congruence.
  - injection Ea as -> ->. exfalso. apply Hk.
    change k with (fst (k, b)). now apply in_map.
  - injection Eb as -> ->. exfalso. apply Hk.
    change k with (fst (k, a)). now apply in_map.
  - now apply IH.
Qed.

Lemma In_bucket_keys : forall b T (m : KeyPointMap) k iterations,
  NoDup (map fst m) -> In (k, iterations) m ->
  (In k (map fst (filter (inBucket b T) m)) <-> bucketOf (length iterations) T = b).
Proof.
  intros b T m k its Hnd Hin. split.
  - intro H. apply in_map_iff in H. destruct H as [[k' its'] [Hk H]].
    simpl in Hk. subst k'. apply filter_In in H. destruct H as [Hin' Hb].
    rewrite (NoDup_keys_functional m k its its' Hnd Hin Hin').
    now apply inBucket_iff in Hb.
  - intro H. change k with (fst (k, its)). apply in_map.
    apply filter_In. split; [assumption|]. now apply inBucket_iff.
Qed.

(** C5: with at most 10 iterations (the orchestrator's bound), a cluster
    of frequency f = count/total is in coreStableMessages iff f >= 0.8, in
    variableMessages iff 0.3 <= f < 0.8 (with the rounded percentage of f
    and its iteration numbers sorted ascending), in outliers iff f < 0.3;
    and with 5 iterations, 4 appearances are core, 2 variable, 1 outlier.
    The fractions are compared exactly, as cross-multiplied integers. *)
Theorem classifyKeyMessages_buckets : forall responses,
  length responses <= 10 ->
  let T := length responses in
  let r := classifyKeyMessages responses in
  (forall k iterations, In (k, iterations) (clusterKeyPoints responses) ->
     let count := length iterations in
     (In k (coreStableMessages r) <-> 8 * T <= 10 * count) /\
     (In k (map message (variableMessages r)) <-> 3 * T <= 10 * count < 8 * T) /\
     (In k (outliers r) <-> 10 * count < 3 * T) /\
     (3 * T <= 10 * count < 8 * T ->
        exists vm, In vm (variableMessages r) /\ message vm = k /\
          frequency vm = num (roundedPercent count T) /\
          appearancePattern vm = array_sort Nat.ltb iterations /\
          StronglySorted le (appearancePattern vm) /\
          Permutation (appearancePattern vm) iterations)) /\
  bucketOf 4 5 = CoreBucket /\ bucketOf 2 5 = VariableBucket /\
  bucketOf 1 5 = OutlierBucket.
Proof.
  intros responses HT T r. split; [|vm_compute; repeat split; reflexivity].
  intros k its Hin count.
  destruct (classifyKeyMessages_lists responses) as (Hc & Hv & Ho & _).
  destruct (clusterKeyPoints_ok responses) as [Hnd Hall].
  fold T in Hc, Hv, Ho, Hall. fold r in Hc, Hv, Ho.
  assert (Hcount : 1 <= count <= T).
  { rewrite Forall_forall in Hall. apply (cluster_size_bounds (k := k)).
    exact (Hall _ Hin). }
  destruct (bucketOf_exact HT Hcount) as [Hb Hr]. fold T in Hb, Hr.
  destruct (specBucket_cases count T) as (Sc & Sv & So).
  rewrite Hc, Hv, Ho, map_message_variableMessageOf.
  rewrite !(In_bucket_keys _ T _ _ _ Hnd Hin). fold count. rewrite Hb.
  split; [exact Sc|]. split; [exact Sv|]. split; [exact So|].
  intro H. exists (variableMessageOf T (k, its)).
  split; [|split; [reflexivity|split; [exact Hr|split; [reflexivity|]]]].
  - apply in_map. apply filter_In. split; [assumption|].
    apply inBucket_iff. simpl. fold count. rewrite Hb. now apply Sv.
  - apply array_sort_ltb_sorted.
Qed.

(** The theorem at the end-to-end scenario: the Asana cluster (4 of 5) is
    core, the Trello cluster (1 of 5) an outlier. *)
Lemma classifyKeyMessages_buckets_witness :
  length sampleRun <= 10 /\
  In (str "asana is great for task tracking")
     (coreStableMessages (classifyKeyMessages sampleRun)) /\
  In (str "trello works well") (outliers (classifyKeyMessages sampleRun)).
Proof.
  assert (H : length sampleRun <= 10) by (simpl; lia).
  split; [exact H|].
  pose proof (classifyKeyMessages_buckets sampleRun H) as [Hall _].
  assert (H1 : In (str "asana is great for task tracking", [1; 2; 3; 4])
                 (clusterKeyPoints sampleRun)) by (vm_compute; left; reflexivity).
  assert (H2 : In (str "trello works well", [5])
                 (clusterKeyPoints sampleRun))
    by (vm_compute; right; left; reflexivity).
  split.
  - apply (proj2 (proj1 (Hall _ _ H1))). simpl. lia.
  - apply (proj2 (proj1 (proj2 (proj2 (Hall _ _ H2))))). simpl. lia.
Defined.


(** ** The consistency score (C6) *)

Lemma SFmul_comm : forall prec emax x y,
  SFmul prec emax x y = SFmul prec emax y x.
Proof.
  intros prec emax x y.
  destruct x as [sx|sx| |sx mx ex], y as [sy|sy| |sy my ey]; simpl;
    try reflexivity; try (now rewrite xorb_comm).
  now rewrite xorb_comm, Pos.mul_comm, Z.add_comm.
Qed.

Lemma float_mul_comm : forall x y : float, (x * y = y * x)%float.
Proof.
  intros x y. apply Prim2SF_inj. rewrite !FloatAxioms.mul_spec. apply SFmul_comm.
Qed.

Lemma ltb_leb : forall x y : float, (x <? y)%float = true -> (x <=? y)%float = true.
Proof.
  intros x y. rewrite FloatAxioms.ltb_spec, FloatAxioms.leb_spec. unfold SFltb, SFleb.
  now destruct (SFcompare (Prim2SF x) (Prim2SF y)) as [[]|].
Qed.

Lemma SFcompare_antisym : forall x y,
  SFcompare y x = option_map CompOpp (SFcompare x y).
Proof.
  intros x y.
  destruct x as [sx|sx| |sx mx ex], y as [sy|sy| |sy my ey]; simpl;
    try reflexivity;
    try (destruct sx; reflexivity); try (destruct sy; reflexivity);
    try (destruct sx, sy; reflexivity).
  destruct sx, sy; try reflexivity; f_equal;
    rewrite (Z.compare_antisym ex ey);
    destruct (ex ?= ey)%Z; simpl; try reflexivity;
    rewrite (Pos.compare_cont_antisym mx my Eq); simpl;
    now destruct (Pos.compare_cont Eq mx my).
Qed.

Lemma is_nan_false_Prim2SF : forall x,
  is_nan x = false -> Prim2SF x <> S754_nan.
Proof.
  intros x H E. unfold is_nan in H. rewrite FloatAxioms.eqb_spec, E in H.
  discriminate.
Qed.

Lemma not_ltb_leb : forall x y : float,
  is_nan x = false -> is_nan y = false ->
  (x <? y)%float = false -> (y <=? x)%float = true.
Proof.
  intros x y Hx Hy. apply is_nan_false_Prim2SF in Hx, Hy.
  rewrite FloatAxioms.ltb_spec, FloatAxioms.leb_spec. unfold SFltb, SFleb.
  rewrite (SFcompare_antisym (Prim2SF x) (Prim2SF y)).
  destruct (SFcompare (Prim2SF x) (Prim2SF y)) as [[]|] eqn:E; simpl;
    try reflexivity; try discriminate.
  exfalso. destruct (Prim2SF x), (Prim2SF y); simpl in E; congruence.
Qed.

(** A clamped number is NaN or lies between 0 and 100. *)
Lemma clamp_range : forall x : float,
  let r := clamp 0 100 x in
  is_nan r = true \/ ((0 <=? r)%float = true /\ (r <=? 100)%float = true).
Proof.
  intros x r. unfold r, clamp.
  destruct (is_nan x) eqn:Hx.
  - left. unfold Math_max. rewrite Hx, orb_true_r. reflexivity.
  - right.
    assert (Hm : is_nan (Math_max 0 x) = false
                 /\ (0 <=? Math_max 0 x)%float = true).
    { unfold Math_max. rewrite Hx. simpl.
      destruct (0 <? x)%float eqn:E1; [split; [assumption | now apply ltb_leb]|].
      destruct (x <? 0)%float; split; reflexivity. }
    destruct Hm as [Hn H0]. set (m := Math_max 0 x) in *.
    unfold Math_min. rewrite Hn. simpl.
    destruct (100 <? m)%float eqn:E1; [split; reflexivity|].
    destruct (m <? 100)%float eqn:E2; [split; [assumption | now apply ltb_leb]|].
    split; [assumption|]. now apply not_ltb_leb.
Qed.

(** C6: the consistency score computed by calculateConfidenceScore is the
    formula of the specification, in binary64 arithmetic: round(0.4 x
    semanticOverlap + 0.3 x varianceScore + 0.3 x coreScore) clamped to
    [0,100], varianceScore = max(0, 100 - (brandVariance/5) x 100),
    coreScore = min(100, coreMessageCount x 20); the clamped value is a
    number between 0 and 100 unless an input makes it NaN. *)
Theorem calculateConfidenceScore_formula :
  forall (semanticOverlap : float) (brandStats : BrandMentionStats)
         (coreMessagesCount : nat),
  let score :=
    calculateConfidenceScore semanticOverlap brandStats coreMessagesCount in
  score
  = specConsistencyScore semanticOverlap (variance brandStats) coreMessagesCount
  /\ (is_nan score = true
      \/ ((0 <=? score)%float = true /\ (score <=? 100)%float = true)).
Proof.
  intros s stats n score.
  assert (E : score = specConsistencyScore s (variance stats) n).
  { unfold score, calculateConfidenceScore, specConsistencyScore, clamp,
      specVarianceScore, specCoreScore.
    now rewrite (float_mul_comm 0.4 s), (float_mul_comm 0.3 (Math_max _ _)),
      (float_mul_comm 0.3 (Math_min _ _)). }
  split; [exact E|]. rewrite E. apply clamp_range.
Qed.

(** ** BrandDetector.detectBrands (C4) *)

Lemma firstn_NoDup : forall (A : Type) n (l : list A),
  NoDup l -> NoDup (firstn n l).
Proof.
  intros A n l H. rewrite <- (firstn_skipn n l) in H.
  now apply NoDup_app_remove_r in H.
Qed.

Lemma firstn_StronglySorted : forall (A : Type) (R : A -> A -> Prop) n l,
  StronglySorted R l -> StronglySorted R (firstn n l).
Proof.
  intros A R n l H. revert n.
  induction H as [|x l Hl IH Hx]; intro n; destruct n; simpl; try constructor.
  - apply IH.
  - rewrite Forall_forall in *. intros y Hy. apply Hx.
    rewrite <- (firstn_skipn n l). apply in_or_app. now left.
Qed.

Lemma existsb_sameSpan : forall s e detected,
  existsb (BrandDetector.sameSpan s e) detected = true
  <-> In (s, e) (map BrandDetector.span detected).
Proof.
  intros s e detected. rewrite existsb_exists, in_map_iff.
  unfold BrandDetector.sameSpan, BrandDetector.span.
  split; intros [d [H1 H2]]; exists d.
  - apply andb_true_iff in H2. destruct H2 as [Hs He].
    apply Nat.eqb_eq in Hs, He. split; [congruence | assumption].
  - injection H1 as Hs He. split; [assumption|].
    apply andb_true_iff. split; now apply Nat.eqb_eq.
Qed.

Lemma tryCandidate_NoDup : forall d minConfidence words detected len,
  NoDup (map BrandDetector.span detected) ->
  NoDup (map BrandDetector.span
           (BrandDetector.tryCandidate d minConfidence words detected len)).
Proof.
  intros d mc words detected len H. unfold BrandDetector.tryCandidate.
  destruct (firstn len words) as [|w ws]; [assumption|].
  destruct (map_get _ _) as [normalized0|]; [|assumption].
  destruct (BrandDetector.truthy normalized0); [|assumption].
  destruct (BrandDetector.getConfidence d normalized0) as [c|]; [|assumption].
  destruct (BrandDetector.meetsMinConfidence c mc); [|assumption].
  cbv zeta.
  set (s0 := BrandDetector.tokenStart w).
  set (e0 := BrandDetector.tokenEnd (last (w :: ws) w)).
  destruct (existsb (BrandDetector.sameSpan s0 e0) detected) eqn:E; [assumption|].
  rewrite map_app. apply NoDup_app; [assumption | |].
  - constructor; [intros [] | constructor].
  - intros x Hx [<- | []]. unfold BrandDetector.span in Hx at 1.
    cbn [BrandDetector.startIndex BrandDetector.endIndex] in Hx.
    apply existsb_sameSpan in Hx. congruence.
Qed.

Lemma detectFrom_NoDup : forall d minConfidence words detected,
  NoDup (map BrandDetector.span detected) ->
  NoDup (map BrandDetector.span
           (BrandDetector.detectFrom d minConfidence words detected)).
Proof.
  intros d mc words. induction words as [|w ws IH]; intros detected H; [exact H|].
  cbn [BrandDetector.detectFrom]. apply IH.
  generalize (seq 1 (Nat.min 3 (length (w :: ws)))). intro lens.
  revert detected H. induction lens as [|len lens IHl]; intros detected H; [exact H|].
  cbn [fold_left]. apply IHl. now apply tryCandidate_NoDup.
Qed.

(** C4, counterexample: with the brands "Google" and "Google Cloud" the
    text "Google Cloud" yields the occurrences (0,6) and (0,12): they
    overlap and start at the same offset. *)
Lemma detectBrands_overlap_example :
  let db := {| BrandDetector.brands := [str "Google"; str "Google Cloud"];
               BrandDetector.high_confidence := [];
               BrandDetector.ignored_terms := [] |} in
  map BrandDetector.span
    (BrandDetector.detectBrands (BrandDetector.new db) (str "Google Cloud")
       {| BrandDetector.minConfidence := None;
          BrandDetector.maxResults := None |})
  = [(0, 6); (0, 12)].
Proof. vm_compute. reflexivity. Qed.

Lemma StronglySorted_snoc : forall (A : Type) (R : A -> A -> Prop) l x,
  StronglySorted R l -> Forall (fun y => R y x) l -> StronglySorted R (l ++ [x]).
Proof.
  intros A R l x H Hx. induction H as [|y l Hl IH Hy]; simpl.
  - constructor; constructor.
  - inversion Hx as [|? ? Hyx Hlx]; subst. constructor.
    + now apply IH.
    + apply Forall_app. split; [assumption | now constructor].
Qed.

Lemma StronglySorted_impl : forall (A : Type) (R R' : A -> A -> Prop) l,
  (forall a b, R a b -> R' a b) -> StronglySorted R l -> StronglySorted R' l.
Proof.
  intros A R R' l HR H. induction H as [|x l Hl IH Hx]; constructor; [assumption|].
  eapply Forall_impl; [|exact Hx]. intros y Hy. now apply HR.
Qed.

Lemma tokenizeFrom_ordered : forall s pos,
  (forall lo, lo <= pos ->
     tokensFrom lo (BrandDetector.tokenizeFrom s pos None)) /\
  (forall lo acc start, lo <= start -> start < pos ->
     tokensFrom lo (BrandDetector.tokenizeFrom s pos (Some (acc, start)))).
Proof.
  induction s as [|c s IH]; intro pos; split.
  - intros lo _. exact I.
  - intros lo acc start H1 H2. cbn. repeat split; [assumption | assumption].
  - intros lo Hlo. cbn [BrandDetector.tokenizeFrom].
    destruct (BrandDetector.isTokenChar c).
    + apply (proj2 (IH (S pos))); lia.
    + apply (proj1 (IH (S pos))). lia.
  - intros lo acc start H1 H2. cbn [BrandDetector.tokenizeFrom].
    destruct (BrandDetector.isTokenChar c).
    + apply (proj2 (IH (S pos))); lia.
    + cbn. repeat split; [assumption | assumption |].
      apply (proj1 (IH (S pos))). lia.
Qed.

Lemma tokensFrom_weaken : forall ts lo lo',
  lo' <= lo -> tokensFrom lo ts -> tokensFrom lo' ts.
Proof.
  intros [|t ts] lo lo' Hlo H; [exact I|].
  cbn in *. destruct H as (H1 & H2 & H3). repeat split; [lia | assumption | assumption].
Qed.

(** The end of the last of the first [len] tokens grows with [len]. *)
Lemma span_end_bounds : forall ts lo len w,
  tokensFrom lo ts -> 1 <= len <= length ts ->
  lo < BrandDetector.tokenEnd (last (firstn len ts) w) /\
  tokensFrom (BrandDetector.tokenEnd (last (firstn len ts) w)) (skipn len ts).
Proof.
  induction ts as [|t ts IH]; intros lo len w H Hlen; [simpl in Hlen; lia|].
  cbn in H. destruct H as (H1 & H2 & H3).
  destruct len as [|len]; [lia|]. cbn [firstn skipn].
  destruct len as [|len].
  - cbn. split; [lia | assumption].
  - simpl in Hlen.
    destruct (IH (BrandDetector.tokenEnd t) (S len) w H3 ltac:(lia)) as [I1 I2].
    destruct ts as [|t' ts]; [simpl in Hlen; lia|].
    cbn [firstn] in *. cbn [last] in *. split; [lia | assumption].
Qed.

Lemma span_end_increasing : forall ts lo len w,
  tokensFrom lo ts -> 1 <= len -> S len <= length ts ->
  BrandDetector.tokenEnd (last (firstn len ts) w)
  < BrandDetector.tokenEnd (last (firstn (S len) ts) w).
Proof.
  induction ts as [|t ts IH]; intros lo len w H Hlen Hlen'; [simpl in Hlen'; lia|].
  cbn in H. destruct H as (H1 & H2 & H3).
  destruct len as [|len]; [lia|]. simpl in Hlen'.
  destruct ts as [|t' ts]; [simpl in Hlen'; lia|].
  destruct len as [|len].
  - cbn. cbn in H3. lia.
  - change (firstn (S (S len)) (t :: t' :: ts)) with (t :: firstn (S len) (t' :: ts)).
    change (firstn (S (S (S len))) (t :: t' :: ts))
      with (t :: firstn (S (S len)) (t' :: ts)).
    assert (E : forall n, last (t :: firstn (S n) (t' :: ts)) w
                          = last (firstn (S n) (t' :: ts)) w) by reflexivity.
    rewrite !E. apply (IH (BrandDetector.tokenEnd t)); [assumption | lia | simpl in Hlen' |- *; lia].
Qed.

Lemma last_nonempty_default : forall (A : Type) (x : A) l d d',
  last (x :: l) d = last (x :: l) d'.
Proof.
  intros A x l. revert x. induction l as [|y l IH]; intros x d d'; [reflexivity|].
  change (last (x :: y :: l) d) with (last (y :: l) d).
  change (last (x :: y :: l) d') with (last (y :: l) d'). apply IH.
Qed.

Lemma spanBefore_trans : forall p q r,
  spanBefore p q -> spanBefore q r -> spanBefore p r.
Proof. unfold spanBefore. intros p q r H1 H2. lia. Qed.

Lemma detected_before_weaken : forall b b' detected,
  (b = b' \/ spanBefore b b') ->
  detected_before b detected -> detected_before b' detected.
Proof.
  intros b b' detected Hb [Hs Hall]. split; [assumption|].
  eapply Forall_impl; [|exact Hall]. intros d Hd. cbv beta in Hd.
  destruct Hb as [<- | Hb]; [assumption | eapply spanBefore_trans; eassumption].
Qed.

Lemma tryCandidate_ordered : forall d mc words detected len w bound',
  1 <= len <= length words ->
  let c := (BrandDetector.tokenStart (hd w words),
            BrandDetector.tokenEnd (last (firstn len words) w)) in
  detected_before c detected -> spanBefore c bound' ->
  detected_before bound' (BrandDetector.tryCandidate d mc words detected len).
Proof.
  intros d mc words detected len w bound' Hlen c Hd Hb.
  assert (Hkeep : detected_before bound' detected).
  { apply (detected_before_weaken (b := c)); [now right | assumption]. }
  unfold BrandDetector.tryCandidate.
  destruct words as [|w0 ws]; [simpl in Hlen; lia|].
  destruct len as [|len]; [lia|]. cbn [firstn].
  destruct (map_get _ _) as [normalized0|]; [|assumption].
  destruct (BrandDetector.truthy normalized0); [|assumption].
  destruct (BrandDetector.getConfidence d normalized0) as [cf|]; [|assumption].
  destruct (BrandDetector.meetsMinConfidence cf mc); [|assumption].
  cbv zeta. destruct (existsb _ detected); [assumption|].
  assert (Hc : c = (BrandDetector.tokenStart w0,
                    BrandDetector.tokenEnd (last (w0 :: firstn len ws) w))).
  { reflexivity. }
  assert (Hlast := last_nonempty_default w0 (firstn len ws) w0 w).
  rewrite Hlast. destruct Hd as [Hs Hall]. split.
  - apply StronglySorted_snoc; [assumption|].
    eapply Forall_impl; [|exact Hall]. intros x Hx. cbv beta in Hx.
    unfold BrandDetector.span at 2. cbn [BrandDetector.startIndex BrandDetector.endIndex].
    rewrite <- Hc. exact Hx.
  - apply Forall_app. split; [apply Hkeep|]. constructor; [|constructor].
    unfold BrandDetector.span. cbn [BrandDetector.startIndex BrandDetector.endIndex].
    rewrite <- Hc. exact Hb.
Qed.

Lemma inner_loop_ordered : forall d mc w0 ws lo k len detected,
  tokensFrom lo (w0 :: ws) ->
  1 <= len -> len + k <= S (length (w0 :: ws)) ->
  (k = 0 \/
   detected_before (BrandDetector.tokenStart w0,
                    BrandDetector.tokenEnd (last (firstn len (w0 :: ws)) w0))
     detected) ->
  detected_before (S (BrandDetector.tokenStart w0), 0) detected ->
  detected_before (S (BrandDetector.tokenStart w0), 0)
    (fold_left (BrandDetector.tryCandidate d mc (w0 :: ws)) (seq len k) detected).
Proof.
  intros d mc w0 ws lo k. induction k as [|k IH]; intros len detected Ht Hlen Hk Hc Hs.
  - exact Hs.
  - cbn [seq fold_left]. destruct Hc as [Hc | Hc]; [discriminate|].
    assert (Hlen' : 1 <= len <= length (w0 :: ws)) by lia.
    apply IH; [assumption | lia | lia | |].
    + destruct k as [|k]; [now left | right].
      apply (@tryCandidate_ordered d mc (w0 :: ws) detected len w0 _ Hlen'); [exact Hc|].
      right. split; [reflexivity|]. cbn [snd].
      apply (@span_end_increasing (w0 :: ws) lo len w0); [assumption | lia | lia].
    + apply (@tryCandidate_ordered d mc (w0 :: ws) detected len w0 _ Hlen'); [exact Hc|].
      left. cbn [fst hd]. lia.
Qed.

Lemma detectFrom_ordered : forall d mc words lo detected,
  tokensFrom lo words -> detected_before (lo, 0) detected ->
  StronglySorted
    (fun a b => spanBefore (BrandDetector.span a) (BrandDetector.span b))
    (BrandDetector.detectFrom d mc words detected).
Proof.
  intros d mc words. induction words as [|w0 ws IH]; intros lo detected Ht Hd.
  - exact (proj1 Hd).
  - cbn [BrandDetector.detectFrom].
    pose proof Ht as Ht'. cbn in Ht'. destruct Ht' as (H1 & H2 & H3).
    apply (IH (BrandDetector.tokenEnd w0)); [assumption|].
    apply (detected_before_weaken (b := (S (BrandDetector.tokenStart w0), 0))).
    { destruct (Nat.eq_dec (S (BrandDetector.tokenStart w0)) (BrandDetector.tokenEnd w0))
        as [E | E]; [left; now rewrite E | right; left; cbn; lia]. }
    assert (Hstart : detected_before (S (BrandDetector.tokenStart w0), 0) detected).
    { apply (detected_before_weaken (b := (lo, 0))); [|assumption].
      destruct (Nat.eq_dec lo (S (BrandDetector.tokenStart w0))) as [E | E];
        [left; now rewrite E | right; left; cbn; lia]. }
    apply (@inner_loop_ordered d mc w0 ws lo
             (Nat.min 3 (length (w0 :: ws))) 1 detected);
      [assumption | lia | cbn [length]; lia | | assumption].
    right. apply (detected_before_weaken (b := (lo, 0))); [|assumption].
    right. unfold spanBefore. cbn [firstn last fst snd]. lia.
Qed.

(** A list already in order is left as it is by the stable sort. *)
Lemma array_sort_sorted_id : forall (A : Type) (lt : A -> A -> bool) (l : list A),
  StronglySorted (fun a b => lt b a = false) l -> array_sort lt l = l.
Proof.
  intros A lt l H. induction H as [|x l Hl IH Hx]; [reflexivity|].
  cbn [array_sort]. rewrite IH. destruct l as [|y l]; [reflexivity|].
  cbn [sort_insert]. inversion Hx as [|? ? Hy _]; subst. now rewrite Hy.
Qed.

(** C4, as amended: for every database, text and options, the occurrences
    returned by detectBrands are in increasing order of (start offset, end
    offset): the start offsets never decrease, occurrences with the same
    start come in increasing order of end, and no two occurrences have the
    same (start, end) span. *)
Theorem detectBrands_sorted_distinct : forall db t options,
  let result := BrandDetector.detectBrands (BrandDetector.new db) t options in
  StronglySorted
    (fun a b => spanBefore (BrandDetector.span a) (BrandDetector.span b)) result
  /\ StronglySorted
       (fun a b => BrandDetector.startIndex a <= BrandDetector.startIndex b) result
  /\ NoDup (map BrandDetector.span result).
Proof.
  intros db t options result. unfold result, BrandDetector.detectBrands.
  set (lt := fun a b => BrandDetector.startIndex a <? BrandDetector.startIndex b).
  set (detected := BrandDetector.detectFrom _ _ _ _).
  assert (Hord : StronglySorted
    (fun a b => spanBefore (BrandDetector.span a) (BrandDetector.span b)) detected).
  { apply (@detectFrom_ordered _ _ _ 0 []).
    - apply (proj1 (tokenizeFrom_ordered t 0)). lia.
    - split; constructor. }
  assert (Hid : array_sort lt detected = detected).
  { apply array_sort_sorted_id.
    apply (StronglySorted_impl
             (R := fun a b => spanBefore (BrandDetector.span a) (BrandDetector.span b)));
      [|exact Hord].
    intros a b Hab. unfold lt. apply Nat.ltb_ge.
    unfold spanBefore, BrandDetector.span in Hab. cbn [fst snd] in Hab. lia. }
  assert (Hstart : StronglySorted
    (fun a b => BrandDetector.startIndex a <= BrandDetector.startIndex b) detected).
  { apply (StronglySorted_impl
             (R := fun a b => spanBefore (BrandDetector.span a) (BrandDetector.span b)));
      [|exact Hord].
    intros a b Hab. unfold spanBefore, BrandDetector.span in Hab.
    cbn [fst snd] in Hab. lia. }
  assert (Hnd : NoDup (map BrandDetector.span detected)).
  { apply detectFrom_NoDup. constructor. }
  rewrite Hid. unfold BrandDetector.slice0.
  destruct (BrandDetector.maxResults options) as [k|]; [|now repeat split].
  destruct (k <? 0)%Z; repeat split;
    try (now apply firstn_StronglySorted);
    rewrite <- firstn_map; now apply firstn_NoDup.
Qed.

(** ** extractKeyPoints (C8) *)




Lemma dropWhile_incl : forall (A : Type) (p : A -> bool) l x,
  In x (dropWhile p l) -> In x l.
Proof.
  intros A p l x. induction l as [|y l IH]; simpl; [tauto|].
  destruct (p y); [intro H; right; now apply IH | tauto].
Qed.

Lemma trim_incl : forall s c, In c (trim s) -> In c s.
Proof.
  intros s c H. unfold trim, trimEnd, trimStart in H.
  apply in_rev in H. apply dropWhile_incl in H. apply in_rev in H.
  now apply dropWhile_incl in H.
Qed.





(** ** Whole-word matching and analyzeSentiment (C7) *)

Lemma toLowerChar_idem : forall c, toLowerChar (toLowerChar c) = toLowerChar c.
Proof. intro c. destruct c as [[] [] [] [] [] [] [] []]; vm_compute; reflexivity. Qed.

Lemma isWordChar_toLowerChar : forall c, isWordChar (toLowerChar c) = isWordChar c.
Proof. intro c. destruct c as [[] [] [] [] [] [] [] []]; vm_compute; reflexivity. Qed.

Lemma caseless_eqb_toLowerChar : forall c x,
  caseless_eqb (toLowerChar c) x = caseless_eqb c x.
Proof. intros c x. unfold caseless_eqb. now rewrite toLowerChar_idem. Qed.

Lemma caseless_eqb_isWordChar : forall a b,
  caseless_eqb a b = true -> isWordChar a = isWordChar b.
Proof.
  intros a b H. unfold caseless_eqb in H. apply Ascii.eqb_eq in H.
  rewrite <- (isWordChar_toLowerChar a), <- (isWordChar_toLowerChar b).
  now rewrite H.
Qed.

Lemma caseless_eqb_trans : forall a b c,
  caseless_eqb a b = true -> caseless_eqb c b = true -> caseless_eqb a c = true.
Proof.
  intros a b c H1 H2. unfold caseless_eqb in *.
  apply Ascii.eqb_eq in H1, H2. apply Ascii.eqb_eq. congruence.
Qed.

Lemma isWordOpt_lower : forall o,
  isWordOpt (option_map toLowerChar o) = isWordOpt o.
Proof. intros [c|]; simpl; [apply isWordChar_toLowerChar | reflexivity]. Qed.

Lemma startsWith_ci_lower : forall w s,
  startsWith_ci w (toLowerCase s) = startsWith_ci w s.
Proof.
  induction w as [|x w IH]; intros [|c s]; simpl; try reflexivity.
  now rewrite caseless_eqb_toLowerChar, IH.
Qed.

Lemma nth_error_lower : forall n s,
  nth_error (toLowerCase s) n = option_map toLowerChar (nth_error s n).
Proof. intros n s. unfold toLowerCase. apply nth_error_map. Qed.

Lemma wordMatchAt_lower : forall w prev s,
  wordMatchAt w (option_map toLowerChar prev) (toLowerCase s)
  = wordMatchAt w prev s.
Proof.
  intros w prev s. unfold wordMatchAt, boundary.
  rewrite startsWith_ci_lower, !nth_error_lower, !isWordOpt_lower.
  destruct s as [|c s]; simpl; [reflexivity|].
  now rewrite isWordChar_toLowerChar.
Qed.

Lemma occurrencesFrom_lower : forall w s prev,
  occurrencesFrom w (option_map toLowerChar prev) (toLowerCase s)
  = occurrencesFrom w prev s.
Proof.
  intros w s. induction s as [|c s IH]; intro prev; [reflexivity|].
  change (toLowerCase (c :: s)) with (toLowerChar c :: toLowerCase s).
  cbn [occurrencesFrom].
  change (toLowerChar c :: toLowerCase s) with (toLowerCase (c :: s)).
  rewrite wordMatchAt_lower.
  change (Some (toLowerChar c)) with (option_map toLowerChar (Some c)).
  now rewrite IH.
Qed.

Section NoOverlap.
Variable w0 : ascii.
Variable wrest : jsstring.
Let w := w0 :: wrest.
Hypothesis Hw : noInternalStart w = true.

(** Inside a match the pattern cannot match again. *)
Lemma wordMatchAt_inside : forall p prevw r rem c s,
  caseless_eqb p prevw = true ->
  noStartInside w0 prevw (r :: rem) = true ->
  startsWith_ci (r :: rem) (c :: s) = true ->
  wordMatchAt w (Some p) (c :: s) = false.
Proof.
  intros p prevw r rem c s Hp Hno Hs. simpl in Hno, Hs.
  apply andb_true_iff in Hno. destruct Hno as [Hno _].
  apply andb_true_iff in Hs. destruct Hs as [Hc _].
  unfold wordMatchAt, w. simpl.
  destruct (boundary (Some p) (Some c)) eqn:Hb; [|reflexivity].
  destruct (caseless_eqb c w0) eqn:Hc0; [|reflexivity].
  exfalso. unfold boundary in Hb. simpl in Hb.
  rewrite (caseless_eqb_isWordChar _ _ Hp), (caseless_eqb_isWordChar _ _ Hc) in Hb.
  rewrite Hb in Hno. simpl in Hno.
  assert (Hr : caseless_eqb r w0 = true).
  { unfold caseless_eqb in *. apply Ascii.eqb_eq in Hc, Hc0.
    apply Ascii.eqb_eq. congruence. }
  rewrite Hr in Hno. discriminate.
Qed.

Lemma regexMatchesFrom_count : forall s prev pos,
  length (regexMatchesFrom w prev s pos 0) = occurrencesFrom w prev s /\
  (forall p prevw rem,
     prev = Some p -> caseless_eqb p prevw = true ->
     noStartInside w0 prevw rem = true -> startsWith_ci rem s = true ->
     length (regexMatchesFrom w prev s pos (length rem))
     = occurrencesFrom w prev s).
Proof.
  induction s as [|c s IH]; intros prev pos.
  - split; [reflexivity|]. intros p prevw rem _ _ _ _. now destruct rem.
  - assert (H0 : length (regexMatchesFrom w prev (c :: s) pos 0)
                 = occurrencesFrom w prev (c :: s)).
    { cbn [regexMatchesFrom occurrencesFrom].
      destruct (wordMatchAt w prev (c :: s)) eqn:E.
      - cbn [length Nat.add]. f_equal.
        assert (Hs : caseless_eqb c w0 = true /\ startsWith_ci wrest s = true).
        { unfold wordMatchAt, w in E. simpl in E.
          apply andb_true_iff in E. destruct E as [E _].
          apply andb_true_iff in E. destruct E as [_ E].
          now apply andb_true_iff in E. }
        destruct Hs as [Hc Hrest].
        replace (length w - 1) with (length wrest) by (unfold w; simpl; lia).
        destruct (IH (Some c) (S pos)) as [_ IH2].
        exact (IH2 c w0 wrest eq_refl Hc Hw Hrest).
      - destruct (IH (Some c) (S pos)) as [IH1 _]. exact IH1. }
    split; [exact H0|].
    intros p prevw rem Hprev Hp Hno Hs. destruct rem as [|r rem]; [exact H0|].
    subst prev. cbn [length regexMatchesFrom occurrencesFrom].
    rewrite (@wordMatchAt_inside p prevw r rem c s Hp Hno Hs).
    simpl in Hno, Hs. apply andb_true_iff in Hno, Hs.
    destruct Hno as [_ Hno], Hs as [Hc Hs].
    destruct (IH (Some c) (S pos)) as [_ IH2].
    exact (IH2 c r rem eq_refl Hc Hno Hs).
Qed.
End NoOverlap.

(** The successive matches of [/\bw\b/gi] on the lower-cased text are as
    many as the whole-word, case-insensitive occurrences of [w] in the
    text, for every [w] inside which no occurrence of [w] can start. *)
Lemma regexMatches_count : forall w text,
  noInternalStart w = true ->
  length (regexMatches w (toLowerCase text)) = wholeWordOccurrences w text.
Proof.
  intros w text Hw. destruct w as [|w0 wrest]; [discriminate|].
  unfold regexMatches, wholeWordOccurrences.
  destruct (regexMatchesFrom_count w0 wrest Hw (toLowerCase text) None 0) as [H _].
  rewrite H. exact (occurrencesFrom_lower (w0 :: wrest) text None).
Qed.

Lemma indicatorScore_occurrences : forall indicators text,
  forallb noInternalStart indicators = true ->
  indicatorScore indicators (toLowerCase text)
  = indicatorOccurrences indicators text.
Proof.
  intros indicators text H. unfold indicatorScore, indicatorOccurrences.
  assert (G : forall acc,
    fold_left (fun score word => score + length (regexMatches word (toLowerCase text)))
      indicators acc
    = acc + list_sum (map (fun word => wholeWordOccurrences word text) indicators)).
  { induction indicators as [|w ws IH]; intro acc; simpl; [lia|].
    simpl in H. apply andb_true_iff in H. destruct H as [Hw Hws].
    rewrite (IH Hws), (regexMatches_count _ text Hw). lia. }
  exact (G 0).
Qed.

(** On counts up to 60 the binary64 evaluation of [a > b * 1.5] is the
    integer comparison used in [analyzeSentiment]. *)
Lemma exceeds_1_5_checked :
  forallb (fun a => forallb (fun b =>
    Bool.eqb (exceeds_1_5 a b) (exceeds_1_5_float a b)) (seq 0 61)) (seq 0 61)
  = true.
Proof. vm_compute. reflexivity. Qed.

(** C7: analyzeSentiment counts the whole-word, case-insensitive
    occurrences of the positive and of the negative indicators in the text
    and returns positive exactly when the positive count exceeds 1.5 times
    the negative count, negative exactly when the negative count exceeds
    1.5 times the positive count, and neutral otherwise. *)
Theorem analyzeSentiment_spec : forall text,
  let p := indicatorOccurrences POSITIVE_INDICATORS text in
  let n := indicatorOccurrences NEGATIVE_INDICATORS text in
  (analyzeSentiment text = positive <-> 3 * n < 2 * p) /\
  (analyzeSentiment text = negative <-> 3 * p < 2 * n) /\
  (analyzeSentiment text = neutral <-> ~ 3 * n < 2 * p /\ ~ 3 * p < 2 * n).
Proof.
  intros text p n. unfold analyzeSentiment.
  rewrite !indicatorScore_occurrences by (vm_compute; reflexivity).
  fold p n. unfold exceeds_1_5.
  destruct (Nat.ltb_spec (3 * n) (2 * p)); [|destruct (Nat.ltb_spec (3 * p) (2 * n))];
    repeat split; intros; try discriminate; try reflexivity; try lia.
Qed.

(** ** extractBrandMentions (C10) *)








(** ** cleanResponse (C2) *)

Lemma noAdjacentFrom_squeezeFrom : forall ch s b,
  noAdjacentFrom ch b (squeezeFrom ch b s) = true.
Proof.
  intros ch s. induction s as [|c s IH]; intro b; [reflexivity|].
  cbn [squeezeFrom]. destruct (Ascii.eqb c ch) eqn:E.
  - destruct b; [apply IH|]. cbn [noAdjacentFrom]. rewrite E. apply IH.
  - cbn [noAdjacentFrom]. rewrite E, andb_false_r. apply IH.
Qed.

Lemma squeezeFrom_fixed : forall ch s b,
  noAdjacentFrom ch b s = true -> squeezeFrom ch b s = s.
Proof.
  intros ch s. induction s as [|c s IH]; intros b H; [reflexivity|].
  cbn [noAdjacentFrom] in H. apply andb_true_iff in H. destruct H as [H1 H2].
  cbn [squeezeFrom]. destruct (Ascii.eqb c ch) eqn:E.
  - destruct b; [discriminate|]. now rewrite (IH true H2).
  - now rewrite (IH false H2).
Qed.

Lemma noAdjacentFrom_weaken : forall ch s b,
  noAdjacentFrom ch b s = true -> noAdjacentFrom ch false s = true.
Proof.
  intros ch [|c s] b H; [reflexivity|].
  cbn [noAdjacentFrom] in *. apply andb_true_iff in H. now destruct H as [_ ->].
Qed.

Lemma noAdjacentFrom_other : forall ch ch' s b b',
  Ascii.eqb ch' ch = false -> b && b' = false ->
  noAdjacentFrom ch b s = true ->
  noAdjacentFrom ch b (squeezeFrom ch' b' s) = true.
Proof.
  intros ch ch' s. induction s as [|c s IH]; intros b b' Hne Hbb H; [reflexivity|].
  cbn [noAdjacentFrom] in H. apply andb_true_iff in H. destruct H as [H1 H2].
  cbn [squeezeFrom]. destruct (Ascii.eqb c ch') eqn:E.
  - apply Ascii.eqb_eq in E. subst c. rewrite Hne in *.
    destruct b'.
    + rewrite andb_true_r in Hbb. subst b. now apply IH.
    + cbn [noAdjacentFrom]. rewrite Hne, andb_false_r. now apply IH.
  - cbn [noAdjacentFrom]. rewrite H1. apply IH; [assumption | | assumption].
    apply andb_false_r.
Qed.

Lemma noAdjacentFrom_app : forall ch l1 l2 b,
  noAdjacentFrom ch b (l1 ++ l2) = true ->
  noAdjacentFrom ch b l1 = true /\ noAdjacentFrom ch false l2 = true.
Proof.
  intros ch l1. induction l1 as [|c l1 IH]; intros l2 b H.
  - split; [reflexivity | now apply (noAdjacentFrom_weaken _ _ b)].
  - cbn [app noAdjacentFrom] in *. apply andb_true_iff in H. destruct H as [H1 H2].
    destruct (IH _ _ H2) as [H3 H4]. now rewrite H1, H3.
Qed.

Lemma takeWhile_dropWhile : forall (A : Type) (p : A -> bool) l,
  takeWhile p l ++ dropWhile p l = l.
Proof.
  intros A p l. induction l as [|x l IH]; simpl; [reflexivity|].
  destruct (p x); simpl; [now rewrite IH | reflexivity].
Qed.

Lemma trimEnd_prefix : forall s,
  s = trimEnd s ++ rev (takeWhile isSpace (rev s)).
Proof.
  intro s. unfold trimEnd. rewrite <- rev_app_distr, takeWhile_dropWhile.
  now rewrite rev_involutive.
Qed.

Lemma noAdjacent_trim : forall ch s,
  noAdjacent ch s = true -> noAdjacent ch (trim s) = true.
Proof.
  intros ch s H. unfold noAdjacent, trim in *.
  rewrite <- (takeWhile_dropWhile isSpace s) in H.
  apply noAdjacentFrom_app in H. destruct H as [_ H].
  fold (trimStart s) in H. rewrite (trimEnd_prefix (trimStart s)) in H.
  now apply noAdjacentFrom_app in H.
Qed.

Lemma dropWhile_idem : forall (A : Type) (p : A -> bool) l,
  dropWhile p (dropWhile p l) = dropWhile p l.
Proof.
  intros A p l. induction l as [|x l IH]; simpl; [reflexivity|].
  destruct (p x) eqn:E; [exact IH | simpl; now rewrite E].
Qed.

Lemma dropWhile_head : forall (A : Type) (p : A -> bool) l,
  match dropWhile p l with
  | [] => True
  | x :: _ => p x = false
  end.
Proof.
  intros A p l. induction l as [|x l IH]; simpl; [exact I|].
  destruct (p x) eqn:E; [exact IH | exact E].
Qed.

Lemma trimStart_fixed : forall s,
  match s with [] => True | c :: _ => isSpace c = false end -> trimStart s = s.
Proof. intros [|c s] H; [reflexivity|]. unfold trimStart. simpl. now rewrite H. Qed.

Lemma trim_idem : forall s, trim (trim s) = trim s.
Proof.
  intro s. unfold trim. set (a := trimStart s).
  assert (Ha : match a with [] => True | c :: _ => isSpace c = false end)
    by apply dropWhile_head.
  assert (Hb : trimStart (trimEnd a) = trimEnd a).
  { apply trimStart_fixed. pose proof (trimEnd_prefix a) as E.
    destruct (trimEnd a) as [|c t]; [exact I|].
    rewrite E in Ha. exact Ha. }
  rewrite Hb. unfold trimEnd. now rewrite rev_involutive, dropWhile_idem.
Qed.

(** The whitespace steps of cleanResponse are idempotent on every input. *)
Lemma normalizeWhitespace_idem : forall s,
  normalizeWhitespace (normalizeWhitespace s) = normalizeWhitespace s.
Proof.
  intro s. unfold normalizeWhitespace at 1.
  set (z := normalizeWhitespace s).
  assert (Hlf : noAdjacent LF z = true).
  { unfold z, normalizeWhitespace. apply noAdjacent_trim.
    apply noAdjacentFrom_other; [reflexivity | reflexivity|].
    apply noAdjacentFrom_squeezeFrom. }
  assert (Hsp : noAdjacent SP z = true).
  { unfold z, normalizeWhitespace. apply noAdjacent_trim.
    apply noAdjacentFrom_squeezeFrom. }
  unfold squeeze. rewrite (squeezeFrom_fixed _ _ _ Hlf), (squeezeFrom_fixed _ _ _ Hsp).
  unfold z, normalizeWhitespace. apply trim_idem.
Qed.




(** ** analyzeStability (C1) *)



Section Run.
Variable llm : QueryCapability.
Variable options : StabilityOptions.
Variable n : nat.

End Run.

Lemma filter_nil_iff : forall (A : Type) (p : A -> bool) l,
  filter p l = [] <-> forall x, In x l -> p x = false.
Proof.
  intros A p l. induction l as [|y l IH]; simpl.
  - split; [intros _ x [] | reflexivity].
  - destruct (p y) eqn:E.
    + split; [discriminate|]. intro H. specialize (H y (or_introl eq_refl)). congruence.
    + rewrite IH. split.
      * intros H x [<- | Hx]; [assumption | now apply H].
      * intros H x Hx. apply H. now right.
Qed.



(* ================================================================== *)
(** * Further properties of the two packages *)
(* ================================================================== *)

Section BrandDetectorFacts.
Import BrandDetector.

Lemma map_get_set : forall (V : Type) k k' (v : V) m,
  map_get k (map_set k' v m) = if str_eqb k k' then Some v else map_get k m.
Proof.
  intros V k k' v m. induction m as [|[k0 v0] m IH]; simpl.
  - reflexivity.
  - destruct (str_eqb k' k0) eqn:E; simpl.
    + apply str_eqb_eq in E. subst k0. now destruct (str_eqb k k').
    + destruct (str_eqb k k0) eqn:E0.
      * destruct (str_eqb k k') eqn:E1; [|reflexivity].
        apply str_eqb_eq in E0, E1. subst. rewrite str_eqb_refl in E. discriminate.
      * exact IH.
Qed.

Lemma set_of_list_In : forall l x, In x (Set_str l) <-> In x l.
Proof.
  intros l x. unfold Set_str, set_of_list.
  assert (G : forall acc, In x (fold_left (fun acc y => set_add str_eqb y acc) l acc)
                          <-> In x acc \/ In x l).
  { induction l as [|y l IH]; intro acc; simpl; [tauto|].
    rewrite IH, (@set_add_In _ _ str_eqb_eq). intuition. }
  rewrite G. simpl. tauto.
Qed.

Lemma str_mem_Set_str : forall x l, str_mem x (Set_str l) = str_mem x l.
Proof.
  intros x l. destruct (str_mem x l) eqn:E.
  - apply str_mem_In. apply set_of_list_In. now apply str_mem_In.
  - destruct (str_mem x (Set_str l)) eqn:E'; [|reflexivity].
    apply (proj1 (str_mem_In _ _)) in E'. apply (proj1 (set_of_list_In _ _)) in E'.
    apply (proj2 (str_mem_In _ _)) in E'. congruence.
Qed.

(** The map built by the constructor returns, for a lower-case key, the
    last brand of the database with that lower-case form. *)
Lemma normalizedMap_get : forall db k,
  map_get k (normalizedMap (new db))
  = find (fun b => str_eqb k (toLowerCase b)) (rev (brands db)).
Proof.
  intros db k. unfold new. cbn [normalizedMap].
  generalize (brands db). intro l.
  induction l as [|b l IH] using rev_ind; [reflexivity|].
  rewrite fold_left_app, rev_app_distr. cbn [fold_left rev app find].
  rewrite map_get_set. destruct (str_eqb k (toLowerCase b)); [reflexivity | exact IH].
Qed.

Lemma find_last : forall (p : jsstring -> bool) l1 b l2,
  p b = true -> Forall (fun x => p x = false) l2 ->
  find p (rev (l1 ++ b :: l2)) = Some b.
Proof.
  intros p l1 b l2 Hb Hl2. rewrite rev_app_distr. cbn [rev].
  rewrite <- app_assoc. cbn [app].
  assert (G : forall l r, Forall (fun x => p x = false) l -> find p (l ++ r) = find p r).
  { induction l as [|x l IH]; intros r H; [reflexivity|].
    inversion H; subst. simpl. rewrite H2. now apply IH. }
  rewrite G; [simpl; now rewrite Hb|].
  apply Forall_rev. exact Hl2.
Qed.

End BrandDetectorFacts.

Section TokenizeFacts.
Import BrandDetector.

Lemma substring_app_pre : forall a (pre s : jsstring),
  a <= length pre ->
  substring a (length pre) (pre ++ s) = skipn a pre.
Proof.
  intros a pre s Ha. unfold substring.
  rewrite skipn_app. replace (a - length pre) with 0 by lia. cbn [skipn].
  rewrite firstn_app. rewrite length_skipn.
  replace (length pre - a - (length pre - a)) with 0 by lia.
  cbn [firstn]. rewrite app_nil_r. apply firstn_all2. rewrite length_skipn. lia.
Qed.

Lemma tokenizeFrom_spec : forall s pre cur,
  curOk pre cur ->
  let s0 := pre ++ s in
  let ts := tokenizeFrom s (length pre) cur in
  Forall (tokenOk s0) ts /\
  Forall (fun t => curStart (length pre) cur <= tokenStart t) ts /\
  StronglySorted (fun a b => tokenEnd a < tokenStart b) ts /\
  (forall i c, nth_error s0 i = Some c -> isTokenChar c = true ->
     curStart (length pre) cur <= i ->
     exists t, In t ts /\ tokenStart t <= i < tokenEnd t).
Proof.
  induction s as [|c s IH]; intros pre cur Hcur s0 ts.
  - subst ts s0. cbn [tokenizeFrom]. rewrite app_nil_r.
    destruct cur as [[acc start]|].
    + destruct Hcur as (H1 & H2 & H3). cbn [curStart].
      assert (Hok : tokenOk pre {| text := rev acc; tokenStart := start; tokenEnd := length pre |}).
      { unfold tokenOk. cbn. repeat split; [lia | lia | | exact H3].
        rewrite H2. rewrite <- (app_nil_r pre) at 3.
        symmetry. apply substring_app_pre. lia. }
      repeat split.
      * constructor; [exact Hok | constructor].
      * constructor; [cbn; lia | constructor].
      * constructor; constructor.
      * intros i c0 Hi Hc Hs. eexists. split; [left; reflexivity|]. cbn.
        split; [lia|]. apply nth_error_Some. congruence.
    + repeat split; try constructor.
      intros i c0 Hi Hc Hs. cbn in Hs.
      assert (i < length pre) by (apply nth_error_Some; congruence). lia.
  - assert (E0 : s0 = (pre ++ [c]) ++ s) by (subst s0; now rewrite <- app_assoc).
    assert (El : length (pre ++ [c]) = S (length pre)) by (rewrite length_app; simpl; lia).
    subst ts. cbn [tokenizeFrom]. destruct (isTokenChar c) eqn:Ec.
    + (* token character *)
      destruct cur as [[acc start]|].
      * destruct Hcur as (H1 & H2 & H3).
        assert (Hcur' : curOk (pre ++ [c]) (Some (c :: acc, start))).
        { cbn. rewrite El. split; [lia|]. split.
          - rewrite H2, skipn_app. replace (start - length pre) with 0 by lia. reflexivity.
          - rewrite forallb_app, H3. cbn. now rewrite Ec. }
        specialize (IH (pre ++ [c]) (Some (c :: acc, start)) Hcur').
        cbv zeta in IH. rewrite El, <- E0 in IH. exact IH.
      * assert (Hcur' : curOk (pre ++ [c]) (Some ([c], length pre))).
        { cbn. rewrite El. split; [lia|]. split.
          - rewrite skipn_app, skipn_all. now replace (length pre - length pre) with 0 by lia.
          - now rewrite Ec. }
        specialize (IH (pre ++ [c]) (Some ([c], length pre)) Hcur').
        cbv zeta in IH. rewrite El, <- E0 in IH. exact IH.
    + (* separator *)
      specialize (IH (pre ++ [c]) None I). cbv zeta in IH. rewrite El, <- E0 in IH.
      destruct IH as (I1 & I2 & I3 & I4). cbn [curStart] in I2, I4.
      assert (Hnot : forall i c0, nth_error s0 i = Some c0 -> isTokenChar c0 = true ->
                       i <> length pre).
      { intros i c0 Hi Hc0 ->. subst s0. rewrite nth_error_app2 in Hi by lia.
        replace (length pre - length pre) with 0 in Hi by lia. cbn in Hi. congruence. }
      destruct cur as [[acc start]|].
      * destruct Hcur as (H1 & H2 & H3). cbn [curStart].
        assert (Hok : tokenOk s0 {| text := rev acc; tokenStart := start; tokenEnd := length pre |}).
        { unfold tokenOk. cbn. repeat split; [lia | subst s0; rewrite length_app; lia | | exact H3].
          rewrite H2. subst s0. symmetry. apply substring_app_pre. lia. }
        repeat split.
        -- constructor; assumption.
        -- constructor; [cbn; lia|]. eapply Forall_impl; [|exact I2]. cbn. intros; lia.
        -- constructor; [assumption|]. eapply Forall_impl; [|exact I2]. cbn. intros; lia.
        -- intros i c0 Hi Hc Hs.
           destruct (Nat.lt_ge_cases i (length pre)) as [Hlt | Hge].
           ++ eexists. split; [left; reflexivity|]. cbn. lia.
           ++ assert (i <> length pre) by (eapply Hnot; eassumption).
              destruct (I4 i c0 Hi Hc ltac:(lia)) as [t [Ht Hr]].
              exists t. split; [now right | assumption].
      * cbn [curStart]. repeat split.
        -- assumption.
        -- eapply Forall_impl; [|exact I2]. cbn. intros; lia.
        -- assumption.
        -- intros i c0 Hi Hc Hs.
           assert (i <> length pre) by (eapply Hnot; eassumption).
           apply (I4 i c0 Hi Hc). lia.
Qed.

End TokenizeFacts.

Section ConfidenceFacts.
Import BrandDetector.

Lemma find_lower_some : forall k l b,
  find (fun b => str_eqb k (toLowerCase b)) l = Some b ->
  In b l /\ toLowerCase b = k.
Proof.
  intros k l b H. apply find_some in H. destruct H as [H1 H2].
  apply str_eqb_eq in H2. now split.
Qed.

(** X1: isBrand answers true exactly for the texts that equal a brand of the
    database up to letter case, and getConfidence returns null for every
    text that isBrand rejects. *)
Theorem isBrand_iff_listed : forall db t,
  (isBrand (new db) t = true
   <-> exists b, In b (brands db) /\ toLowerCase b = toLowerCase t) /\
  (isBrand (new db) t = false -> getConfidence (new db) t = None).
Proof.
  intros db t. unfold isBrand, getConfidence. rewrite normalizedMap_get.
  destruct (find _ (rev (brands db))) as [b|] eqn:E.
  - split; [|discriminate]. split; [|reflexivity]. intros _.
    apply find_lower_some in E. destruct E as [Hin Hl].
    exists b. split; [now apply in_rev | assumption].
  - split; [|reflexivity]. split; [discriminate|].
    intros [b [Hin Hl]]. exfalso.
    apply in_rev in Hin. pose proof (find_none _ _ E b Hin) as Hn.
    cbv beta in Hn. rewrite Hl, str_eqb_refl in Hn. discriminate.
Qed.

(** X2: when the database lists several brands that differ only in letter
    case, the last one is the stored name; getConfidence returns null
    when that name is empty, high when it is in high_confidence,
    otherwise low when the lower-cased query is in ignored_terms, and
    medium in every other case. *)
Theorem getConfidence_last_entry : forall db t l1 b l2,
  brands db = l1 ++ b :: l2 ->
  toLowerCase b = toLowerCase t ->
  Forall (fun b' => toLowerCase b' <> toLowerCase t) l2 ->
  getConfidence (new db) t =
    if length b =? 0 then None
    else if str_mem b (high_confidence db) then Some high
    else if str_mem (toLowerCase t) (ignored_terms db) then Some low
    else Some medium.
Proof.
  intros db t l1 b l2 Hb Hl Hl2. unfold getConfidence.
  rewrite normalizedMap_get, Hb.
  rewrite (@find_last (fun b0 => str_eqb (toLowerCase t) (toLowerCase b0)) l1 b l2).
  - unfold truthy. destruct (length b =? 0); [reflexivity|]. cbn [negb].
    unfold new. cbn [highConfidenceSet ignoredTermsSet].
    now rewrite !str_mem_Set_str.
  - rewrite Hl. apply str_eqb_refl.
  - eapply Forall_impl; [|exact Hl2]. intros x Hx. cbv beta in *.
    apply str_eqb_neq. congruence.
Qed.

(** The theorem at the database of the detector's tests: "Target" is a
    brand and a dictionary word. *)
Lemma getConfidence_last_entry_witness :
  let l1 := map str ["CustomCRM"; "OurBrand"; "CompetitorX"; "NicheTool"]%string in
  brands customDb = l1 ++ str "Target" :: [] /\
  toLowerCase (str "Target") = toLowerCase (str "TARGET") /\
  getConfidence (new customDb) (str "TARGET") = Some low.
Proof.
  intro l1.
  assert (H1 : brands customDb = l1 ++ str "Target" :: []) by reflexivity.
  assert (H2 : toLowerCase (str "Target") = toLowerCase (str "TARGET"))
    by (vm_compute; reflexivity).
  split; [exact H1|]. split; [exact H2|].
  rewrite (@getConfidence_last_entry customDb (str "TARGET") l1 (str "Target") []
             H1 H2 (Forall_nil _)).
  vm_compute. reflexivity.
Defined.

End ConfidenceFacts.

Section DetectFacts.
Import BrandDetector.

Lemma spanBefore_irrefl_detected : forall c detected,
  detected_before c detected ->
  existsb (sameSpan (fst c) (snd c)) detected = false.
Proof.
  intros c detected [_ Hall]. destruct (existsb _ detected) eqn:E; [|reflexivity].
  exfalso. apply existsb_exists in E. destruct E as [x [Hx Hs]].
  rewrite Forall_forall in Hall. specialize (Hall x Hx).
  unfold sameSpan in Hs. apply andb_true_iff in Hs. destruct Hs as [H1 H2].
  apply Nat.eqb_eq in H1, H2. unfold spanBefore, span in Hall. cbn [fst snd] in Hall. lia.
Qed.

Lemma tryCandidate_window : forall d mc words detected len w,
  1 <= len <= length words ->
  detected_before (tokenStart (hd w words), tokenEnd (last (firstn len words) w))
    detected ->
  tryCandidate d mc words detected len = detected ++ windowsAt d mc words len.
Proof.
  intros d mc words detected len w Hlen Hd.
  apply spanBefore_irrefl_detected in Hd. cbn [fst snd] in Hd.
  unfold tryCandidate, windowsAt, windowBrand, confident.
  destruct words as [|w0 ws]; [simpl in Hlen; lia|].
  destruct len as [|len]; [lia|]. cbn [firstn hd] in *.
  destruct (map_get _ _) as [normalized0|]; [|now rewrite app_nil_r].
  destruct (truthy normalized0); [|now rewrite app_nil_r].
  destruct (getConfidence d normalized0) as [cf|]; [|now rewrite app_nil_r].
  cbn [confidence].
  destruct (meetsMinConfidence cf mc); [|now rewrite app_nil_r].
  cbv zeta. rewrite (last_nonempty_default w0 (firstn len ws) w0 w), Hd.
  reflexivity.
Qed.

Lemma inner_loop_windows : forall d mc w0 ws lo k len detected,
  tokensFrom lo (w0 :: ws) ->
  1 <= len -> len + k <= S (length (w0 :: ws)) ->
  (k = 0 \/
   detected_before (tokenStart w0, tokenEnd (last (firstn len (w0 :: ws)) w0))
     detected) ->
  fold_left (tryCandidate d mc (w0 :: ws)) (seq len k) detected
  = detected ++ flat_map (windowsAt d mc (w0 :: ws)) (seq len k).
Proof.
  intros d mc w0 ws lo k. induction k as [|k IH]; intros len detected Ht Hlen Hk Hc.
  - cbn. now rewrite app_nil_r.
  - cbn [seq fold_left flat_map]. destruct Hc as [Hc | Hc]; [discriminate|].
    assert (Hlen' : 1 <= len <= length (w0 :: ws)) by lia.
    rewrite IH; [| assumption | lia | lia |].
    + rewrite (@tryCandidate_window d mc (w0 :: ws) detected len w0 Hlen' Hc).
      now rewrite <- app_assoc.
    + destruct k as [|k]; [now left | right].
      apply (@tryCandidate_ordered d mc (w0 :: ws) detected len w0 _ Hlen'); [exact Hc|].
      right. split; [reflexivity|]. cbn [snd].
      apply (@span_end_increasing (w0 :: ws) lo len w0); [assumption | lia | lia].
Qed.

Lemma detectFrom_windows : forall d mc words lo detected,
  tokensFrom lo words -> detected_before (lo, 0) detected ->
  detectFrom d mc words detected = detected ++ windowsFrom d mc words.
Proof.
  intros d mc words. induction words as [|w0 ws IH]; intros lo detected Ht Hd.
  - cbn. now rewrite app_nil_r.
  - cbn [detectFrom windowsFrom].
    pose proof Ht as Ht'. cbn in Ht'. destruct Ht' as (H1 & H2 & H3).
    assert (Hstart : detected_before (S (tokenStart w0), 0) detected).
    { apply (detected_before_weaken (b := (lo, 0))); [|assumption].
      destruct (Nat.eq_dec lo (S (tokenStart w0))) as [E | E];
        [left; now rewrite E | right; left; cbn; lia]. }
    assert (Hfirst : detected_before
              (tokenStart w0, tokenEnd (last (firstn 1 (w0 :: ws)) w0)) detected).
    { apply (detected_before_weaken (b := (lo, 0))); [|assumption].
      right. unfold spanBefore. cbn [firstn last fst snd]. lia. }
    rewrite (IH (tokenEnd w0)); [| assumption |].
    + rewrite (@inner_loop_windows d mc w0 ws lo (Nat.min 3 (length (w0 :: ws))) 1 detected);
        [now rewrite <- app_assoc | assumption | lia | cbn [length]; lia | now right].
    + apply (detected_before_weaken (b := (S (tokenStart w0), 0))).
      { destruct (Nat.eq_dec (S (tokenStart w0)) (tokenEnd w0))
          as [E | E]; [left; now rewrite E | right; left; cbn; lia]. }
      apply (@inner_loop_ordered d mc w0 ws lo (Nat.min 3 (length (w0 :: ws))) 1 detected);
        [assumption | lia | cbn [length]; lia | now right | assumption].
Qed.

(** The result of [detectBrands] before [slice]: the sort leaves the
    occurrences in the order the loops found them. *)
Lemma detectBrands_windows : forall d t options,
  detectBrands d t options
  = slice0 (maxResults options)
      (windowsFrom d
         (match minConfidence options with Some c => c | None => low end)
         (tokenize t)).
Proof.
  intros d t options. unfold detectBrands.
  set (mc := match minConfidence options with Some c => c | None => low end).
  assert (Ht : tokensFrom 0 (tokenize t)).
  { apply (proj1 (tokenizeFrom_ordered t 0)). lia. }
  assert (Hd0 : detected_before (0, 0) []) by (split; constructor).
  assert (Hord : StronglySorted (fun a b => spanBefore (span a) (span b))
                   (detectFrom d mc (tokenize t) [])).
  { apply (@detectFrom_ordered _ _ _ 0 []); assumption. }
  rewrite array_sort_sorted_id.
  - now rewrite (@detectFrom_windows d mc (tokenize t) 0 [] Ht Hd0).
  - apply (StronglySorted_impl (R := fun a b => spanBefore (span a) (span b)));
      [|exact Hord].
    intros a b Hab. apply Nat.ltb_ge.
    unfold spanBefore, span in Hab. cbn [fst snd] in Hab. lia.
Qed.

End DetectFacts.

Section DetectTheorems.
Import BrandDetector.

Lemma confident_low : forall b, confident low b = true.
Proof. intro b. unfold confident, meetsMinConfidence. now destruct (confidence b). Qed.

Lemma windowsAt_filter : forall d mc words len,
  windowsAt d mc words len = filter (confident mc) (windowsAt d low words len).
Proof.
  intros d mc words len. unfold windowsAt.
  destruct (windowBrand d words len) as [b|]; [|reflexivity].
  rewrite confident_low. cbn [filter]. now destruct (confident mc b).
Qed.

Lemma flat_map_filter : forall (A B : Type) (p : B -> bool) (f g : A -> list B) l,
  (forall x, f x = filter p (g x)) ->
  flat_map f l = filter p (flat_map g l).
Proof.
  intros A B p f g l H. induction l as [|x l IH]; [reflexivity|].
  cbn [flat_map]. now rewrite filter_app, H, IH.
Qed.

Lemma windowsFrom_filter : forall d mc words,
  windowsFrom d mc words = filter (confident mc) (windowsFrom d low words).
Proof.
  intros d mc words. induction words as [|w ws IH]; [reflexivity|].
  cbn [windowsFrom]. rewrite filter_app, <- IH. f_equal.
  apply flat_map_filter. intro len. apply windowsAt_filter.
Qed.

(** X7: raising minConfidence only removes occurrences: the result for a
    minimum is the default result filtered by that minimum, the minimum
    low is the default, and a non-negative maxResults k keeps the first k
    occurrences of the unlimited result. *)
Theorem detectBrands_minConfidence_filter : forall d t mc,
  detectBrands d t {| minConfidence := Some mc; maxResults := None |}
  = filter (fun b => meetsMinConfidence (confidence b) mc)
      (detectBrands d t {| minConfidence := None; maxResults := None |}) /\
  detectBrands d t {| minConfidence := Some low; maxResults := None |}
  = detectBrands d t {| minConfidence := None; maxResults := None |} /\
  (forall k, (0 <= k)%Z ->
     detectBrands d t {| minConfidence := Some mc; maxResults := Some k |}
     = firstn (Z.to_nat k)
         (detectBrands d t {| minConfidence := Some mc; maxResults := None |})).
Proof.
  intros d t mc. rewrite !detectBrands_windows. cbn [minConfidence maxResults slice0].
  split; [apply windowsFrom_filter|]. split; [reflexivity|].
  intros k Hk. rewrite detectBrands_windows. cbn [minConfidence maxResults slice0].
  destruct (Z.ltb_spec k 0); [lia | reflexivity].
Qed.

Lemma tokensFrom_suffix : forall pre suf lo,
  tokensFrom lo (pre ++ suf) -> exists lo', tokensFrom lo' suf.
Proof.
  induction pre as [|x pre IH]; intros suf lo H; [now exists lo|].
  cbn in H. destruct H as (_ & _ & H). now apply IH in H.
Qed.

Lemma windowsFrom_In : forall d mc words b,
  In b (windowsFrom d mc words) <->
  exists pre suffix len,
    words = pre ++ suffix /\ 1 <= len <= Nat.min 3 (length suffix) /\
    windowBrand d suffix len = Some b /\ confident mc b = true.
Proof.
  intros d mc words b. induction words as [|w ws IH].
  - cbn. split; [tauto|]. intros (pre & suffix & len & H & Hlen & _).
    symmetry in H. apply app_eq_nil in H. destruct H as [_ ->]. simpl in Hlen. lia.
  - cbn [windowsFrom]. rewrite in_app_iff, IH, in_flat_map. split.
    + intros [[len [Hlen Hb]] | (pre & suffix & len & H & Hlen & Hw & Hc)].
      * exists [], (w :: ws), len. apply in_seq in Hlen.
        unfold windowsAt in Hb.
        destruct (windowBrand d (w :: ws) len) as [b'|]; [|contradiction].
        destruct (confident mc b') eqn:Ec; [|contradiction].
        destruct Hb as [-> | []].
        repeat split; [lia | lia | assumption].
      * exists (w :: pre), suffix, len. subst ws. repeat split; try assumption; lia.
    + intros (pre & suffix & len & H & Hlen & Hw & Hc).
      destruct pre as [|x pre].
      * left. exists len. cbn in H. subst suffix. split; [apply in_seq; lia|].
        unfold windowsAt. rewrite Hw, Hc. now left.
      * right. injection H as -> ->. exists pre, suffix, len. repeat split; try assumption; lia.
Qed.

Lemma In_slice0 : forall (A : Type) k (l : list A) x,
  In x (slice0 k l) -> In x l.
Proof.
  intros A k l x. unfold slice0. destruct k as [k|]; [|tauto].
  destruct (k <? 0)%Z; intro H;
    match type of H with In _ (firstn ?n _) =>
      rewrite <- (firstn_skipn n l); apply in_or_app; now left end.
Qed.

Lemma normalizedMap_stored : forall db k n,
  map_get k (normalizedMap (new db)) = Some n ->
  In n (brands db) /\ toLowerCase n = k /\
  map_get (toLowerCase n) (normalizedMap (new db)) = Some n.
Proof.
  intros db k n H. pose proof H as H'. rewrite normalizedMap_get in H'.
  apply find_lower_some in H'. destruct H' as [Hin Hl].
  split; [now apply in_rev|]. split; [assumption | now rewrite Hl].
Qed.

(** On a database the confidence of the stored name is the confidence of
    every text with the same lower-case form. *)
Lemma getConfidence_stored : forall db t n,
  map_get (toLowerCase t) (normalizedMap (new db)) = Some n ->
  getConfidence (new db) n = getConfidence (new db) t.
Proof.
  intros db t n H. destruct (normalizedMap_stored db _ H) as (_ & Hl & Hn).
  unfold getConfidence. now rewrite Hn, H, Hl.
Qed.

Lemma windowBrand_Some : forall db words len b,
  windowBrand (new db) words len = Some b ->
  exists w rest,
    firstn len words = w :: rest /\
    name b = join_space (map text (w :: rest)) /\
    startIndex b = tokenStart w /\
    endIndex b = tokenEnd (last rest w) /\
    In (normalized b) (brands db) /\
    toLowerCase (normalized b) = toLowerCase (name b) /\
    getConfidence (new db) (name b) = Some (confidence b).
Proof.
  intros db words len b H. unfold windowBrand in H.
  destruct (firstn len words) as [|w rest] eqn:Ef; [discriminate|].
  cbv zeta in H.
  remember (join_space (map text (w :: rest))) as candidate eqn:Ecand.
  assert (El : last (w :: rest) w = last rest w) by (destruct rest; reflexivity).
  rewrite El in H. clear El.
  remember (last rest w) as lastToken eqn:Elast.
  destruct (map_get _ _) as [n|] eqn:En; [|discriminate].
  destruct (truthy n); [|discriminate].
  destruct (getConfidence (new db) n) as [c|] eqn:Ec; [|discriminate].
  injection H as <-. cbn [name normalized confidence startIndex endIndex].
  exists w, rest. destruct (normalizedMap_stored db _ En) as (Hin & Hl & _).
  rewrite <- (getConfidence_stored db _ En).
  repeat split; try assumption; try reflexivity. now rewrite Elast.
Qed.

End DetectTheorems.

Section DetectTheorems2.
Import BrandDetector.

Lemma tokensFrom_last : forall rest post lo d,
  tokensFrom lo (rest ++ post) -> rest <> [] -> lo < tokenEnd (last rest d).
Proof.
  induction rest as [|x rest IH]; intros post lo d H Hne; [contradiction|].
  cbn in H. destruct H as (H1 & H2 & H3).
  destruct rest as [|y rest]; [cbn; lia|].
  change (last (x :: y :: rest) d) with (last (y :: rest) d).
  assert (tokenEnd x < tokenEnd (last (y :: rest) d)); [|lia].
  apply (IH post); [exact H3 | discriminate].
Qed.

Lemma tokenize_tokenOk : forall t, Forall (tokenOk t) (tokenize t).
Proof.
  intro t. exact (proj1 (@tokenizeFrom_spec t [] None I)).
Qed.

(** X4: every occurrence returned by detectBrands stands for one, two or
    three consecutive tokens of the text; its name is their texts joined
    by single spaces, its span runs from the start of the first to the
    end of the last of them (a non-empty span inside the text), its
    normalized name is a brand of the database equal to the name up to
    letter case, and its confidence is the one getConfidence gives and
    meets the requested minimum. *)
Theorem detectBrands_sound : forall db t options b,
  In b (detectBrands (new db) t options) ->
  exists pre w rest post,
    tokenize t = pre ++ (w :: rest) ++ post /\ length rest <= 2 /\
    name b = join_space (map text (w :: rest)) /\
    startIndex b = tokenStart w /\ endIndex b = tokenEnd (last rest w) /\
    startIndex b < endIndex b <= length t /\
    In (normalized b) (brands db) /\
    toLowerCase (normalized b) = toLowerCase (name b) /\
    getConfidence (new db) (name b) = Some (confidence b) /\
    meetsMinConfidence (confidence b)
      (match minConfidence options with Some c => c | None => low end) = true.
Proof.
  intros db t options b H. rewrite detectBrands_windows in H.
  apply In_slice0 in H. apply windowsFrom_In in H.
  destruct H as (pre & suffix & len & Hw & Hlen & Hb & Hc).
  apply windowBrand_Some in Hb.
  destruct Hb as (w & rest & Hf & Hname & Hs & He & Hin & Hl & Hconf).
  assert (Hsuf : suffix = (w :: rest) ++ skipn len suffix).
  { rewrite <- Hf. symmetry. apply firstn_skipn. }
  assert (Hrest : length rest <= 2).
  { assert (length (firstn len suffix) <= len) by apply firstn_le_length.
    rewrite Hf in H. simpl in H. lia. }
  exists pre, w, rest, (skipn len suffix).
  rewrite <- Hsuf. repeat split; try assumption.
  - (* start < end *)
    assert (Ht : tokensFrom 0 (tokenize t)).
    { apply (proj1 (tokenizeFrom_ordered t 0)). lia. }
    rewrite Hw in Ht. apply tokensFrom_suffix in Ht. destruct Ht as [lo Ht].
    rewrite Hsuf in Ht. cbn in Ht. destruct Ht as (_ & H2 & H3).
    rewrite Hs, He. destruct rest as [|y rest]; [exact H2|].
    assert (tokenEnd w < tokenEnd (last (y :: rest) w)); [|lia].
    apply (@tokensFrom_last (y :: rest) (skipn len suffix)); [exact H3 | discriminate].
  - (* end <= length *)
    pose proof (tokenize_tokenOk t) as Hok. rewrite Forall_forall in Hok.
    assert (Hlast : In (last rest w) (tokenize t)).
    { rewrite Hw, Hsuf. apply in_or_app. right. apply in_or_app. left.
      destruct rest as [|y rest]; [now left|].
      right. rewrite (last_nonempty_default y rest w y).
      assert (Hne : y :: rest <> []) by discriminate.
      destruct (exists_last Hne) as (l' & a & E). rewrite E.
      rewrite last_last. apply in_or_app. right. now left. }
    rewrite He. exact (proj1 (proj2 (Hok _ Hlast))).
Qed.

(** The theorem at a text of the detector's tests. *)
Lemma detectBrands_sound_witness :
  let t := str "I recommend CustomCRM and OurBrand for this use case." in
  let options := {| minConfidence := None; maxResults := None |} in
  let b := {| name := str "OurBrand"; normalized := str "OurBrand";
              confidence := high; startIndex := 26; endIndex := 34 |} in
  In b (detectBrands (new customDb) t options) /\
  exists pre w rest post,
    tokenize t = pre ++ (w :: rest) ++ post /\ length rest <= 2 /\
    name b = join_space (map text (w :: rest)) /\
    startIndex b = tokenStart w /\ endIndex b = tokenEnd (last rest w) /\
    startIndex b < endIndex b <= length t /\
    In (normalized b) (brands customDb) /\
    toLowerCase (normalized b) = toLowerCase (name b) /\
    getConfidence (new customDb) (name b) = Some (confidence b) /\
    meetsMinConfidence (confidence b) low = true.
Proof.
  intros t options b.
  assert (Hin : In b (detectBrands (new customDb) t options))
    by (vm_compute; right; left; reflexivity).
  split; [exact Hin|].
  exact (detectBrands_sound customDb t options b Hin).
Defined.

(** X5: without maxResults, detectBrands misses no window: whenever one, two
    or three consecutive tokens, joined by single spaces, form a text
    whose confidence meets the minimum, an occurrence with that name,
    that confidence and the span of those tokens is returned. *)
Theorem detectBrands_complete : forall db t mc pre w rest post c,
  tokenize t = pre ++ (w :: rest) ++ post -> length rest <= 2 ->
  getConfidence (new db) (join_space (map text (w :: rest))) = Some c ->
  meetsMinConfidence c mc = true ->
  exists b,
    In b (detectBrands (new db) t
            {| minConfidence := Some mc; maxResults := None |}) /\
    name b = join_space (map text (w :: rest)) /\ confidence b = c /\
    startIndex b = tokenStart w /\ endIndex b = tokenEnd (last rest w).
Proof.
  intros db t mc pre w rest post c Ht Hrest Hc Hmc.
  remember (join_space (map text (w :: rest))) as candidate eqn:Ecand.
  pose proof Hc as Hc'. unfold getConfidence in Hc'.
  destruct (map_get (toLowerCase candidate) (normalizedMap (new db))) as [n|] eqn:En;
    [|discriminate].
  destruct (truthy n) eqn:Etr; [|discriminate]. clear Hc'.
  pose proof (getConfidence_stored db _ En) as Hn. rewrite Hc in Hn.
  set (b := {| name := candidate; normalized := n; confidence := c;
               startIndex := tokenStart w; endIndex := tokenEnd (last rest w) |}).
  exists b. split; [|repeat split].
  rewrite detectBrands_windows. cbn [minConfidence maxResults slice0].
  apply windowsFrom_In. exists pre, ((w :: rest) ++ post), (S (length rest)).
  split; [exact Ht|]. split.
  - rewrite length_app. cbn [length]. lia.
  - split; [|exact Hmc]. unfold windowBrand.
    assert (Ef : firstn (S (length rest)) ((w :: rest) ++ post) = w :: rest).
    { change (S (length rest)) with (length (w :: rest)).
      rewrite firstn_app, Nat.sub_diag, firstn_all. cbn [firstn]. apply app_nil_r. }
    rewrite Ef. cbv zeta. rewrite <- Ecand, En, Etr, Hn.
    assert (El : last (w :: rest) w = last rest w) by (destruct rest; reflexivity).
    now rewrite El.
Qed.

(** The theorem at a text of the detector's tests. *)
Lemma detectBrands_complete_witness :
  let t := str "Use CustomCRM, CompetitorX, or NicheTool." in
  let w := {| text := str "CompetitorX"; tokenStart := 15; tokenEnd := 26 |} in
  let pre := [ {| text := str "Use"; tokenStart := 0; tokenEnd := 3 |};
               {| text := str "CustomCRM"; tokenStart := 4; tokenEnd := 13 |} ] in
  let post := [ {| text := str "or"; tokenStart := 28; tokenEnd := 30 |};
                {| text := str "NicheTool."; tokenStart := 31; tokenEnd := 41 |} ] in
  tokenize t = pre ++ [w] ++ post /\
  getConfidence (new customDb) (str "CompetitorX") = Some medium /\
  exists b,
    In b (detectBrands (new customDb) t
            {| minConfidence := Some medium; maxResults := None |}) /\
    name b = str "CompetitorX" /\ confidence b = medium /\
    startIndex b = 15 /\ endIndex b = 26.
Proof.
  intros t w pre post.
  assert (H1 : tokenize t = pre ++ (w :: []) ++ post) by (vm_compute; reflexivity).
  assert (H2 : getConfidence (new customDb) (join_space (map text (w :: [])))
               = Some medium) by (vm_compute; reflexivity).
  split; [exact H1|]. split; [exact H2|].
  exact (detectBrands_complete customDb t medium pre w [] post
           H1 (le_S _ _ (le_S _ _ (le_n 0))) H2 eq_refl).
Defined.

End DetectTheorems2.

Section TokenTheorems.
Import BrandDetector.

(** X3: the tokens of tokenize are the maximal runs of the characters
    [A-Za-z0-9_.-]: every token is a non-empty slice of the text made of
    such characters, the tokens come in text order with at least one
    other character between two of them, and every such character of the
    text lies inside a token. *)
Theorem tokenize_maximal_runs : forall s,
  let ts := tokenize s in
  Forall (fun t => tokenStart t < tokenEnd t <= length s /\
                   text t = substring (tokenStart t) (tokenEnd t) s /\
                   forallb isTokenChar (text t) = true) ts /\
  StronglySorted (fun a b => tokenEnd a < tokenStart b) ts /\
  (forall i c, nth_error s i = Some c -> isTokenChar c = true ->
     exists t, In t ts /\ tokenStart t <= i < tokenEnd t).
Proof.
  intros s ts. destruct (@tokenizeFrom_spec s [] None I) as (H1 & _ & H3 & H4).
  cbn [app length] in *. fold (tokenize s) in *. fold ts in H1, H3, H4.
  split; [|split; [exact H3|]].
  - eapply Forall_impl; [|exact H1]. intros t (A & B & C & D). tauto.
  - intros i c Hi Hc. apply (H4 i c Hi Hc). cbn. lia.
Qed.

Lemma StronglySorted_In : forall (A : Type) (R : A -> A -> Prop) l a b,
  StronglySorted R l -> In a l -> In b l -> a = b \/ R a b \/ R b a.
Proof.
  intros A R l a b H. induction H as [|x l Hl IH Hx]; intros Ha Hb; [contradiction|].
  rewrite Forall_forall in Hx.
  destruct Ha as [-> | Ha], Hb as [-> | Hb].
  - now left.
  - right. left. now apply Hx.
  - right. right. now apply Hx.
  - now apply IH.
Qed.

Lemma token_delimited : forall s t i c,
  In t (tokenize s) -> nth_error s i = Some c ->
  i = tokenEnd t \/ S i = tokenStart t -> isTokenChar c = false.
Proof.
  intros s t i c Ht Hi Hpos.
  destruct (@tokenizeFrom_spec s [] None I) as (H1 & _ & H3 & H4).
  cbn [app length] in *. fold (tokenize s) in *.
  destruct (isTokenChar c) eqn:Ec; [exfalso | reflexivity].
  destruct (H4 i c Hi Ec ltac:(cbn; lia)) as [t' [Ht' Hr]].
  rewrite Forall_forall in H1.
  destruct (H1 t Ht) as (A & _). destruct (H1 t' Ht') as (A' & _).
  destruct (@StronglySorted_In _ _ _ t t' H3 Ht Ht') as [E | [E | E]].
  - subst t'. lia.
  - lia.
  - lia.
Qed.

(** X6: an occurrence returned by detectBrands is never followed nor preceded
    directly by a character of [A-Za-z0-9_.-]; so a brand written directly
    before a full stop or a hyphen is not reported, unless the database
    lists it with that character. *)
Theorem detectBrands_delimited : forall db t options b,
  In b (detectBrands (new db) t options) ->
  (forall c, nth_error t (endIndex b) = Some c -> isTokenChar c = false) /\
  (forall i c, S i = startIndex b -> nth_error t i = Some c ->
     isTokenChar c = false).
Proof.
  intros db t options b H. rewrite detectBrands_windows in H.
  apply In_slice0 in H. apply windowsFrom_In in H.
  destruct H as (pre & suffix & len & Hw & Hlen & Hb & Hc).
  apply windowBrand_Some in Hb.
  destruct Hb as (w & rest & Hf & _ & Hs & He & _).
  assert (Hsuf : suffix = (w :: rest) ++ skipn len suffix).
  { rewrite <- Hf. symmetry. apply firstn_skipn. }
  assert (Hfirst : In w (tokenize t)).
  { rewrite Hw, Hsuf. apply in_or_app. right. now left. }
  assert (Hlast : In (last rest w) (tokenize t)).
  { rewrite Hw, Hsuf. apply in_or_app. right. apply in_or_app. left.
    destruct rest as [|y rest]; [now left|].
    right. rewrite (last_nonempty_default y rest w y).
    assert (Hne : y :: rest <> []) by discriminate.
    destruct (exists_last Hne) as (l' & a & E). rewrite E.
    rewrite last_last. apply in_or_app. right. now left. }
  split.
  - intros c Hc'. apply (@token_delimited t (last rest w) (endIndex b) c);
      [assumption | assumption | left; exact He].
  - intros i c Hi Hc'. apply (@token_delimited t w i c);
      [assumption | assumption | right; congruence].
Qed.

(** The theorem at a text of the detector's tests: the occurrence of
    CustomCRM is reported; "Target." is one token, and no brand. *)
Lemma detectBrands_delimited_witness :
  let t := str "Use CustomCRM or Target." in
  let options := {| minConfidence := None; maxResults := None |} in
  let b := {| name := str "CustomCRM"; normalized := str "CustomCRM";
              confidence := high; startIndex := 4; endIndex := 13 |} in
  detectBrands (new customDb) t options = [b] /\
  (forall c, nth_error t (endIndex b) = Some c -> isTokenChar c = false) /\
  (forall i c, S i = startIndex b -> nth_error t i = Some c ->
     isTokenChar c = false).
Proof.
  intros t options b.
  assert (E : detectBrands (new customDb) t options = [b]) by (vm_compute; reflexivity).
  split; [exact E|].
  apply (detectBrands_delimited customDb t options b).
  rewrite E. left. reflexivity.
Defined.

End TokenTheorems.

Section GroupFacts.
Import BrandDetector.

Lemma Set_str_snoc : forall l x,
  Set_str (l ++ [x]) = set_add str_eqb x (Set_str l).
Proof. intros l x. unfold Set_str, set_of_list. now rewrite fold_left_app. Qed.

Lemma Set_str_NoDup : forall l, NoDup (Set_str l).
Proof. intro l. apply set_of_list_NoDup. exact str_eqb_eq. Qed.

Lemma occurrencesOf_snoc : forall l b n,
  occurrencesOf (l ++ [b]) n
  = occurrencesOf l n ++ (if str_eqb (normalized b) n then [b] else []).
Proof. intros l b n. unfold occurrencesOf. now rewrite filter_app. Qed.

Lemma occurrencesOf_nil_iff : forall l n,
  occurrencesOf l n = [] <-> ~ In n (map normalized l).
Proof.
  intros l n. unfold occurrencesOf. rewrite filter_nil_iff, in_map_iff. split.
  - intros H [b [Hb Hin]]. specialize (H b Hin). rewrite Hb, str_eqb_refl in H. discriminate.
  - intros H b Hin. apply str_eqb_neq. intro E. apply H. now exists b.
Qed.

Lemma map_set_values : forall (l : list DetectedBrand) b (g : BrandGroups) v,
  NoDup (map fst g) ->
  Forall (fun e => snd e = occurrencesOf l (fst e)) g ->
  v = match map_get (normalized b) g with
      | Some o => o ++ [b]
      | None => occurrencesOf l (normalized b) ++ [b]
      end ->
  Forall (fun e => snd e = occurrencesOf (l ++ [b]) (fst e))
    (map_set (normalized b) v g).
Proof.
  intros l b g. induction g as [|[k0 v0] g IH]; intros v Hnd Hall Hv.
  - cbn in *. constructor; [|constructor]. cbn.
    rewrite occurrencesOf_snoc, str_eqb_refl. exact Hv.
  - cbn [map fst] in Hnd. inversion Hnd as [|? ? Hk0 Hnd']; subst.
    inversion Hall as [|? ? Hv0 Hall']; subst. cbn [fst snd] in Hv0.
    cbn [map_set map_get] in *.
    destruct (str_eqb (normalized b) k0) eqn:E.
    + apply str_eqb_eq in E. constructor.
      * cbn [fst snd]. rewrite occurrencesOf_snoc, <- E, str_eqb_refl. now rewrite E, <- Hv0.
      * rewrite Forall_forall in *. intros e He. rewrite (Hall' e He).
        rewrite occurrencesOf_snoc.
        destruct (str_eqb (normalized b) (fst e)) eqn:E'; [|now rewrite app_nil_r].
        exfalso. apply str_eqb_eq in E'. apply Hk0. rewrite <- E, E'. now apply in_map.
    + constructor.
      * cbn [fst snd]. rewrite occurrencesOf_snoc, E, app_nil_r. exact Hv0.
      * now apply IH.
Qed.

Lemma groupBrand_ok : forall l g b,
  groupsOf l g -> groupsOf (l ++ [b]) (groupBrand g b).
Proof.
  intros l g b [Hk Hv]. unfold groupBrand.
  assert (Hnd : NoDup (map fst g)) by (rewrite Hk; apply Set_str_NoDup).
  split.
  - rewrite map_set_keys, map_app.
    change (map normalized [b]) with [normalized b].
    rewrite Set_str_snoc, <- Hk. reflexivity.
  - apply map_set_values; [assumption | assumption |].
    destruct (map_get (normalized b) g) as [o|] eqn:E; [reflexivity|].
    assert (Hn : ~ In (normalized b) (map fst g)).
    { intro Hin. apply in_map_iff in Hin. destruct Hin as [[k v] [Hkk Hin]].
      cbn in Hkk. subst k. rewrite (@map_get_In _ _ _ _ Hnd Hin) in E. discriminate. }
    rewrite Hk in Hn. rewrite set_of_list_In in Hn.
    apply occurrencesOf_nil_iff in Hn. now rewrite Hn.
Qed.

Lemma fold_groupBrand_ok : forall todo l g,
  groupsOf l g -> groupsOf (l ++ todo) (fold_left groupBrand todo g).
Proof.
  induction todo as [|b todo IH]; intros l g H; cbn [fold_left].
  - now rewrite app_nil_r.
  - replace (l ++ b :: todo) with ((l ++ [b]) ++ todo) by now rewrite <- app_assoc.
    apply IH. now apply groupBrand_ok.
Qed.

Lemma groups_ok : forall l, groupsOf l (fold_left groupBrand l []).
Proof.
  intro l. apply (fold_groupBrand_ok l (l := []) (g := [])).
  split; [reflexivity | constructor].
Qed.

(** Every occurrence is in exactly one group. *)
Lemma occurrences_partition : forall (l : list DetectedBrand) keys,
  NoDup keys -> (forall b, In b l -> In (normalized b) keys) ->
  list_sum (map (fun n => length (occurrencesOf l n)) keys) = length l.
Proof.
  induction l as [|b l IH]; intros keys Hnd Hall.
  - cbn. induction keys; [reflexivity | cbn; apply IHkeys]; now inversion Hnd.
  - assert (Hb : In (normalized b) keys) by (apply Hall; now left).
    assert (IH' := IH keys Hnd (fun b' H => Hall b' (or_intror H))).
    cbn [length]. rewrite <- IH'. clear IH IH' Hall.
    induction keys as [|k keys IHk]; [contradiction|].
    inversion Hnd as [|? ? Hk Hnd']; subst.
    cbn [map list_sum]. unfold occurrencesOf at 1. cbn [filter].
    fold (occurrencesOf l k).
    destruct (str_eqb (normalized b) k) eqn:E.
    + apply str_eqb_eq in E. cbn [length].
      assert (Hrest : map (fun n => length (occurrencesOf (b :: l) n)) keys
                      = map (fun n => length (occurrencesOf l n)) keys).
      { apply map_ext_in. intros n Hn. unfold occurrencesOf. cbn [filter].
        destruct (str_eqb (normalized b) n) eqn:E'; [|reflexivity].
        apply str_eqb_eq in E'. exfalso. apply Hk. congruence. }
      rewrite Hrest. unfold list_sum. cbn [fold_right]. lia.
    + destruct Hb as [Hb | Hb]; [rewrite Hb, str_eqb_refl in E; discriminate|].
      unfold list_sum in *. cbn [fold_right]. rewrite (IHk Hnd' Hb). lia.
Qed.

End GroupFacts.

Section AnalyzeFacts.
Import BrandDetector.

Variable d : Detector.
Variable t : jsstring.
Variable options : BrandDetectorOptions.

Let extended0 := match extended options with Some b => b | None => false end.
Let contextRadius0 := match contextRadius options with Some r => r | None => 50%Z end.
Let mc := match analysisMinConfidence options with Some c => c | None => low end.
Let dets := detectBrands d t {| minConfidence := Some mc; maxResults := None |}.
Let names := Set_str (map normalized dets).
Let mentions0 :=
  map (fun n => mentionOf t extended0 contextRadius0 (n, occurrencesOf dets n)) names.
Let lt := fun a b : BrandMention => count b <? count a.
Let key := fun m : BrandMention => (- Z.of_nat (count m))%Z.

Lemma analyze_lt_key : forall a b, lt a b = (key a <? key b)%Z.
Proof.
  intros a b. unfold lt, key.
  destruct (Nat.ltb_spec (count b) (count a)),
    (Z.ltb_spec (- Z.of_nat (count a)) (- Z.of_nat (count b))); try reflexivity; lia.
Qed.

Lemma analyze_mentions : mentions (analyzeLLMResponse d t options) = array_sort lt mentions0.
Proof.
  unfold analyzeLLMResponse. cbv zeta. cbn [mentions].
  fold extended0 contextRadius0 mc. fold dets. fold lt. f_equal.
  destruct (groups_ok dets) as [Hk Hv]. fold names in Hk.
  unfold mentions0. rewrite <- Hk, map_map.
  apply map_ext_in. intros [n occs] Hin.
  rewrite Forall_forall in Hv. specialize (Hv _ Hin). cbn [fst snd] in *.
  now rewrite Hv.
Qed.

Lemma analyze_fields :
  totalBrands (analyzeLLMResponse d t options)
    = length (mentions (analyzeLLMResponse d t options)) /\
  totalMentions (analyzeLLMResponse d t options)
    = list_sum (map count (mentions (analyzeLLMResponse d t options))) /\
  topBrand (analyzeLLMResponse d t options)
    = match mentions (analyzeLLMResponse d t options) with
      | m :: _ => Some (brand m)
      | [] => None
      end.
Proof.
  unfold analyzeLLMResponse. cbv zeta. cbn [totalBrands totalMentions topBrand mentions].
  split; [reflexivity|]. split; [|reflexivity].
  generalize (array_sort (fun a b => count b <? count a)
    (map (mentionOf t match extended options with Some b => b | None => false end
            match contextRadius options with Some r => r | None => 50%Z end)
       (fold_left groupBrand
          (detectBrands d t
             {| minConfidence :=
                  Some match analysisMinConfidence options with Some c => c | None => low end;
                maxResults := None |}) []))).
  intro l. assert (G : forall acc, fold_left (fun sum m => sum + count m) l acc
                         = acc + list_sum (map count l)).
  { induction l as [|m l IH]; intro acc; cbn [fold_left map]; unfold list_sum in *;
      cbn [fold_right]; [lia|]. rewrite IH. lia. }
  exact (G 0).
Qed.

Lemma filter_map_comm : forall (A B : Type) (f : A -> B) (p : B -> bool) l,
  filter p (map f l) = map f (filter (fun x => p (f x)) l).
Proof.
  intros A B f p l. induction l as [|x l IH]; [reflexivity|].
  cbn [map filter]. destruct (p (f x)); cbn [map]; now rewrite IH.
Qed.

Lemma no_elements_nil : forall (A : Type) (l : list A),
  (forall x, ~ In x l) -> l = [].
Proof.
  intros A [|x l] H; [reflexivity|]. exfalso. apply (H x). now left.
Qed.

Lemma mentions0_brand : map brand mentions0 = names.
Proof. unfold mentions0. rewrite map_map. cbn. apply map_id. Qed.

Lemma mentions0_count :
  map count mentions0 = map (fun n => length (occurrencesOf dets n)) names.
Proof. unfold mentions0. rewrite map_map. reflexivity. Qed.

Lemma names_occurs : forall n, In n names -> occurrencesOf dets n <> [].
Proof.
  intros n Hn E. apply occurrencesOf_nil_iff in E. apply E.
  unfold names in Hn. exact (proj1 (set_of_list_In _ _) Hn).
Qed.

Lemma analyze_brands :
  Permutation (map brand (mentions (analyzeLLMResponse d t options))) names.
Proof.
  rewrite analyze_mentions, <- mentions0_brand.
  apply Permutation_map. apply array_sort_Permutation.
Qed.

Lemma analyze_total :
  totalMentions (analyzeLLMResponse d t options) = length dets.
Proof.
  destruct analyze_fields as (_ & Hm & _). rewrite Hm.
  pose proof (array_sort_Permutation lt mentions0) as Hp.
  rewrite analyze_mentions.
  rewrite (Permutation_list_sum (Permutation_map count Hp)) by exact 0.
  rewrite mentions0_count. apply occurrences_partition.
  - apply Set_str_NoDup.
  - intros b Hin. apply set_of_list_In. now apply in_map.
Qed.

Lemma analyze_count : forall m,
  In m (mentions (analyzeLLMResponse d t options)) ->
  In (brand m) names /\ count m = length (occurrencesOf dets (brand m)).
Proof.
  intros m Hin. rewrite analyze_mentions in Hin.
  apply (Permutation_in _ (array_sort_Permutation lt mentions0)) in Hin.
  unfold mentions0 in Hin. apply in_map_iff in Hin.
  destruct Hin as [n [<- Hn]]. now split.
Qed.

(** X8: analyzeLLMResponse reports every detected occurrence once:
    totalMentions is the number of occurrences detectBrands returns for
    the same minimum confidence, totalBrands the number of distinct
    normalized names among them, and the mentions are one per such name,
    each with the number of its occurrences (at least 1), the confidence
    of its first occurrence and, in extended mode only, one context
    window per occurrence. *)
Theorem analyzeLLMResponse_counts :
  let r := analyzeLLMResponse d t options in
  totalMentions r = length dets /\
  totalBrands r = length names /\
  Permutation (map brand (mentions r)) names /\
  (forall m, In m (mentions r) ->
     count m = length (occurrencesOf dets (brand m)) /\
     1 <= count m /\
     (exists b rest, occurrencesOf dets (brand m) = b :: rest /\
                     mentionConfidence m = confidence b) /\
     contexts m =
       if extended0 then
         Some (map (fun o => extractContextWindow t (startIndex o) (endIndex o)
                               contextRadius0)
                 (occurrencesOf dets (brand m)))
       else None).
Proof.
  intro r. destruct analyze_fields as (Hb & Hm & _). fold r in Hb, Hm.
  pose proof analyze_mentions as Hs. fold r in Hs.
  pose proof (array_sort_Permutation lt mentions0) as Hp. rewrite <- Hs in Hp.
  split; [|split; [|split]].
  - exact analyze_total.
  - rewrite Hb, (Permutation_length Hp). unfold mentions0. apply length_map.
  - exact analyze_brands.
  - intros m Hin. apply (Permutation_in _ Hp) in Hin.
    unfold mentions0 in Hin. apply in_map_iff in Hin.
    destruct Hin as [n [<- Hn]]. cbn [mentionOf brand count mentionConfidence contexts].
    pose proof (@names_occurs n Hn) as Hne.
    destruct (occurrencesOf dets n) as [|b rest] eqn:E; [contradiction|].
    repeat split; [cbn; lia | now exists b, rest].
Qed.

(** X9: the mentions of analyzeLLMResponse are in descending order of count,
    brands of equal count in the order of their first occurrence in the
    text; topBrand is null exactly when nothing is detected, and
    otherwise a detected brand that no other brand occurs more often
    than. *)
Theorem analyzeLLMResponse_order :
  let r := analyzeLLMResponse d t options in
  StronglySorted (fun a b => count b <= count a) (mentions r) /\
  (forall k,
     map brand (filter (fun m => count m =? k) (mentions r))
     = filter (fun n => length (occurrencesOf dets n) =? k) names) /\
  (topBrand r = None <-> dets = []) /\
  (forall top, topBrand r = Some top ->
     In top (map normalized dets) /\
     forall n, length (occurrencesOf dets n) <= length (occurrencesOf dets top)).
Proof.
  intro r. destruct analyze_fields as (_ & _ & Htop). fold r in Htop.
  pose proof analyze_mentions as Hs. fold r in Hs.
  pose proof (array_sort_Permutation lt mentions0) as Hp. rewrite <- Hs in Hp.
  assert (Hsorted : StronglySorted (fun a b => count b <= count a) (mentions r)).
  { rewrite Hs. apply (StronglySorted_impl (R := key_le key));
      [|exact (array_sort_sorted lt key analyze_lt_key mentions0)].
    intros a b Hab. unfold key_le, key in Hab. lia. }
  assert (Hcount : forall m, In m (mentions r) ->
            In (brand m) names /\ count m = length (occurrencesOf dets (brand m))).
  { intros m Hin. apply (Permutation_in _ Hp) in Hin.
    unfold mentions0 in Hin. apply in_map_iff in Hin.
    destruct Hin as [n [<- Hn]]. now split. }
  split; [exact Hsorted|]. split; [|split].
  - intro k.
    assert (Hk : forall m, (count m =? k) = (key m =? - Z.of_nat k)%Z).
    { intro m. unfold key.
      destruct (Nat.eqb_spec (count m) k),
        (Z.eqb_spec (- Z.of_nat (count m)) (- Z.of_nat k)); try reflexivity; lia. }
    rewrite (filter_ext _ _ Hk), Hs, (array_sort_stable lt key analyze_lt_key).
    rewrite <- (filter_ext _ _ Hk). unfold mentions0.
    rewrite filter_map_comm, map_map. cbn. apply map_id.
  - rewrite Htop. split.
    + intro H. destruct (mentions r) as [|m ms] eqn:E; [|discriminate].
      apply Permutation_nil in Hp. unfold mentions0 in Hp.
      apply map_eq_nil in Hp. apply no_elements_nil. intros b Hb.
      assert (Hin : In (normalized b) names).
      { unfold names. apply set_of_list_In. now apply in_map. }
      rewrite Hp in Hin. contradiction.
    + intro H. destruct (mentions r) as [|m ms] eqn:E; [reflexivity|]. exfalso.
      destruct (Hcount m (or_introl eq_refl)) as [Hn _].
      unfold names in Hn. apply (proj1 (set_of_list_In _ _)) in Hn.
      rewrite H in Hn. contradiction.
  - intros top Ht. rewrite Htop in Ht.
    destruct (mentions r) as [|m ms] eqn:E; [discriminate|]. injection Ht as <-.
    destruct (Hcount m (or_introl eq_refl)) as [Hn Hc]. split.
    + exact (proj1 (set_of_list_In _ _) Hn).
    + intro n. rewrite <- Hc.
      destruct (in_dec (list_eq_dec ascii_dec) n names) as [Hin | Hnot].
      * assert (Hm' : exists m', In m' (m :: ms) /\ brand m' = n).
        { rewrite <- mentions0_brand in Hin. apply in_map_iff in Hin.
          destruct Hin as [m0 [Hb Hin0]]. exists m0. split; [|exact Hb].
          apply (Permutation_in _ (Permutation_sym Hp)). exact Hin0. }
        destruct Hm' as [m' [[<- | Hin'] Hb]].
        -- rewrite <- Hb, <- Hc. lia.
        -- destruct (Hcount m' (or_intror Hin')) as [_ Hc']. rewrite Hb in Hc'.
           rewrite <- Hc'. inversion Hsorted as [|? ? _ Hall]; subst.
           rewrite Forall_forall in Hall. exact (Hall m' Hin').
      * assert (E0 : occurrencesOf dets n = []).
        { apply occurrencesOf_nil_iff. intro H. apply Hnot.
          unfold names. now apply set_of_list_In. }
        rewrite E0. cbn. lia.
Qed.

End AnalyzeFacts.

Section WindowFacts.
Import BrandDetector.

Lemma slice_substring : forall (t : jsstring) a b,
  a <= b <= length t ->
  slice (Z.of_nat a) (Z.of_nat b) t = substring a b t.
Proof.
  intros t a b H. unfold slice, substring.
  destruct (Z.ltb_spec (Z.of_nat a) 0); [lia|].
  destruct (Z.ltb_spec (Z.of_nat b) 0); [lia|].
  rewrite !Z.min_l by lia. rewrite <- Nat2Z.inj_sub by lia.
  now rewrite !Nat2Z.id.
Qed.

Lemma firstn_plus : forall (A : Type) n m (l : list A),
  firstn (n + m) l = firstn n l ++ firstn m (skipn n l).
Proof.
  intros A n. induction n as [|n IH]; intros m l; [reflexivity|].
  destruct l as [|x l]; cbn [Nat.add firstn skipn app].
  - now rewrite firstn_nil.
  - now rewrite IH.
Qed.

Lemma substring_split : forall (t : jsstring) a b c,
  a <= b <= c ->
  substring a c t = substring a b t ++ substring b c t.
Proof.
  intros t a b c H. unfold substring.
  replace (c - a) with ((b - a) + (c - b)) by lia.
  rewrite firstn_plus. f_equal.
  rewrite skipn_skipn. now replace (b - a + a) with b by lia.
Qed.

(** X10: for a span inside the text and a non-negative radius, the context
    window is the mention itself with up to radius characters of the
    text on each side, preceded by an ellipsis exactly when text is cut
    off before it and followed by one exactly when text is cut off
    after it. *)
Theorem extractContextWindow_shape : forall t s e r,
  s <= e <= length t -> (0 <= r)%Z ->
  let lo := s - Z.to_nat r in
  let hi := Nat.min (length t) (e + Z.to_nat r) in
  extractContextWindow t s e r
  = (if 0 <? lo then str "..." else [])
    ++ (substring lo s t ++ substring s e t ++ substring e hi t)
    ++ (if hi <? length t then str "..." else []).
Proof.
  intros t s e r Hse Hr lo hi. unfold extractContextWindow.
  assert (Elo : Z.max 0 (Z.of_nat s - r) = Z.of_nat lo) by (unfold lo; lia).
  assert (Ehi : Z.min (Z.of_nat (length t)) (Z.of_nat e + r) = Z.of_nat hi)
    by (unfold hi; lia).
  rewrite Elo, Ehi.
  assert (Hlo : lo <= s) by (unfold lo; lia).
  assert (Hhi : e <= hi <= length t) by (unfold hi; lia).
  rewrite slice_substring by lia.
  rewrite (substring_split t (a := lo) (b := s) (c := hi)) by lia.
  rewrite (substring_split t (a := s) (b := e) (c := hi)) by lia.
  assert (E1 : (0 <? Z.of_nat lo)%Z = (0 <? lo)).
  { destruct (Z.ltb_spec 0 (Z.of_nat lo)), (Nat.ltb_spec 0 lo); try reflexivity; lia. }
  assert (E2 : (Z.of_nat hi <? Z.of_nat (length t))%Z = (hi <? length t)).
  { destruct (Z.ltb_spec (Z.of_nat hi) (Z.of_nat (length t))),
      (Nat.ltb_spec hi (length t)); try reflexivity; lia. }
  rewrite E1, E2.
  destruct (0 <? lo), (hi <? length t); cbn [app]; rewrite ?app_nil_r; reflexivity.
Qed.

(** The theorem at the extended-mode text of the detector's tests, with
    the radius of that test. *)
Lemma extractContextWindow_shape_witness :
  let t := str "For CRM solutions, CustomCRM is the best choice available." in
  19 <= 28 <= length t /\ (0 <= 30)%Z /\
  extractContextWindow t 19 28 30
  = str "For CRM solutions, " ++ str "CustomCRM"
    ++ str " is the best choice available." .
Proof.
  intro t.
  assert (H1 : 19 <= 28 <= length t) by (vm_compute; split; repeat constructor).
  assert (H2 : (0 <= 30)%Z) by lia.
  split; [exact H1|]. split; [exact H2|].
  rewrite (extractContextWindow_shape t H1 H2). vm_compute. reflexivity.
Defined.

End WindowFacts.

Section NamesFacts.
Import BrandDetector.

Lemma getConfidence_lower : forall d x y,
  toLowerCase x = toLowerCase y -> getConfidence d x = getConfidence d y.
Proof. intros d x y H. unfold getConfidence. now rewrite H. Qed.

Lemma getConfidence_truthy : forall d x c,
  getConfidence d x = Some c ->
  exists n, map_get (toLowerCase x) (normalizedMap d) = Some n /\ n <> [].
Proof.
  intros d x c H. unfold getConfidence in H.
  destruct (map_get _ _) as [n|]; [|discriminate]. exists n. split; [reflexivity|].
  intros ->. discriminate.
Qed.

(** What every occurrence says about its brand. *)
Lemma detected_brand : forall db t options b,
  In b (detectBrands (new db) t options) ->
  In (normalized b) (brands db) /\ normalized b <> [] /\
  map_get (toLowerCase (normalized b)) (normalizedMap (new db))
    = Some (normalized b) /\
  getConfidence (new db) (normalized b) = Some (confidence b) /\
  meetsMinConfidence (confidence b)
    (match minConfidence options with Some c => c | None => low end) = true.
Proof.
  intros db t options b H.
  rewrite detectBrands_windows in H. apply In_slice0 in H.
  apply windowsFrom_In in H. destruct H as (pre & suffix & len & _ & _ & Hb & Hc).
  unfold windowBrand in Hb.
  destruct (firstn len suffix) as [|w rest]; [discriminate|]. cbv zeta in Hb.
  destruct (map_get _ _) as [n0|] eqn:En0; [|discriminate].
  destruct (truthy n0) eqn:Etr; [|discriminate].
  destruct (getConfidence (new db) n0) as [c0|] eqn:Ec0; [|discriminate].
  injection Hb as <-. unfold confident in Hc. cbn [normalized confidence] in *.
  destruct (normalizedMap_stored db _ En0) as (Hin & _ & Hn0).
  repeat split; try assumption.
  intros ->. discriminate.
Qed.

(** X11: extractBrandNames returns, without repetition, exactly the
    normalized names of the occurrences detectBrands finds at the given
    minimum confidence (medium when omitted); each is a brand of the
    database whose confidence meets the minimum, and they are the brands
    of the mentions analyzeLLMResponse reports for that minimum. *)
Theorem extractBrandNames_spec : forall db t mc,
  let mc0 := match mc with Some c => c | None => medium end in
  let dets := detectBrands (new db) t
                {| minConfidence := Some mc0; maxResults := None |} in
  let names := extractBrandNames (new db) t mc in
  NoDup names /\
  (forall n, In n names <-> exists b, In b dets /\ normalized b = n) /\
  (forall n, In n names ->
     In n (brands db) /\
     exists c, getConfidence (new db) n = Some c /\
               meetsMinConfidence c mc0 = true) /\
  Permutation names
    (map brand
       (mentions (analyzeLLMResponse (new db) t
                    {| extended := None; contextRadius := None;
                       analysisMinConfidence := Some mc0 |}))).
Proof.
  intros db t mc mc0 dets names.
  assert (Hn : names = Set_str (map normalized dets)) by reflexivity.
  assert (Hin : forall n, In n names <-> exists b, In b dets /\ normalized b = n).
  { intro n. rewrite Hn, set_of_list_In, in_map_iff. split; intros [b [H1 H2]]; exists b; tauto. }
  split; [rewrite Hn; apply Set_str_NoDup|]. split; [exact Hin|]. split.
  - intros n H. apply Hin in H. destruct H as [b [Hb <-]].
    destruct (detected_brand db t _ b Hb) as (H1 & _ & _ & H4 & H5).
    split; [exact H1|]. exists (confidence b). now split.
  - symmetry. rewrite Hn.
    exact (analyze_brands (new db) t
             {| extended := None; contextRadius := None;
                analysisMinConfidence := Some mc0 |}).
Qed.

End NamesFacts.

Section CountFacts.
Import BrandDetector.

(** X12: countBrandMentions without a brand name, or with the empty string,
    is the totalMentions of analyzeLLMResponse with default options; for
    the brand of a reported mention it is that mention's count; for a
    non-empty text that is no brand it is 0; and it does not depend on
    the letter case of the brand name. *)
Theorem countBrandMentions_consistent : forall db t,
  let d := new db in
  let r := analyzeLLMResponse d t
             {| extended := None; contextRadius := None;
                analysisMinConfidence := None |} in
  countBrandMentions d t None = totalMentions r /\
  countBrandMentions d t (Some []) = totalMentions r /\
  (forall m, In m (mentions r) ->
     countBrandMentions d t (Some (brand m)) = count m) /\
  (forall n, n <> [] -> isBrand d n = false ->
     countBrandMentions d t (Some n) = 0) /\
  (forall n n', n <> [] -> n' <> [] -> toLowerCase n = toLowerCase n' ->
     countBrandMentions d t (Some n) = countBrandMentions d t (Some n')).
Proof.
  intros db t d r.
  set (opts := {| extended := None; contextRadius := None;
                  analysisMinConfidence := None |}) in *.
  assert (Ed : detectBrands d t {| minConfidence := None; maxResults := None |}
               = detectBrands d t {| minConfidence := Some low; maxResults := None |}).
  { now rewrite !detectBrands_windows. }
  pose proof (analyze_total d t opts) as Ht. cbn [analysisMinConfidence opts] in Ht.
  fold r in Ht.
  assert (Etr : forall n : jsstring, n <> [] -> truthy n = true).
  { intros [|c n] H; [contradiction | reflexivity]. }
  split; [|split; [|split; [|split]]].
  - cbn [countBrandMentions]. now rewrite Ed, Ht.
  - cbn [countBrandMentions truthy length Nat.eqb negb]. now rewrite Ed, Ht.
  - intros m Hm. destruct (analyze_count d t opts m Hm) as [Hn Hc].
    cbn [analysisMinConfidence opts] in Hn, Hc.
    apply (proj1 (set_of_list_In _ _)) in Hn. apply in_map_iff in Hn.
    destruct Hn as [b [Hb Hin]].
    destruct (detected_brand db t _ b Hin) as (_ & Hne & Hget & _).
    rewrite Hb in Hne, Hget.
    unfold countBrandMentions. rewrite (Etr _ Hne), Ed. unfold d. rewrite Hget.
    rewrite Hc. reflexivity.
  - intros n Hne Hb. unfold countBrandMentions. rewrite (Etr _ Hne).
    unfold isBrand in Hb. destruct (map_get (toLowerCase n) (normalizedMap d)); [discriminate|].
    generalize (detectBrands d t {| minConfidence := None; maxResults := None |}).
    intro l. induction l; [reflexivity | exact IHl].
  - intros n n' Hn Hn' E. unfold countBrandMentions.
    now rewrite (Etr _ Hn), (Etr _ Hn'), E.
Qed.

End CountFacts.

Section SortGeneral.
Variable A : Type.
Variable lt : A -> A -> bool.
Hypothesis lt_asym : forall a b, lt a b = true -> lt b a = false.
Hypothesis le_trans : forall a b c,
  lt b a = false -> lt c b = false -> lt c a = false.

Lemma sort_insert_sorted_total : forall x l,
  StronglySorted (fun a b => lt b a = false) l ->
  StronglySorted (fun a b => lt b a = false) (sort_insert lt x l).
Proof.
  intros x l H. induction H as [|y l Hl IH Hy]; cbn [sort_insert].
  - constructor; constructor.
  - destruct (lt y x) eqn:E.
    + constructor; [assumption|].
      apply (Permutation_Forall (Permutation_sym (sort_insert_Permutation lt x l))).
      constructor; [now apply lt_asym | assumption].
    + constructor; [now constructor|].
      constructor; [exact E|].
      eapply Forall_impl; [|exact Hy]. intros z Hz. cbv beta in *.
      now apply (@le_trans x y z).
Qed.

Lemma array_sort_sorted_total : forall l,
  StronglySorted (fun a b => lt b a = false) (array_sort lt l).
Proof.
  induction l as [|x l IH]; cbn [array_sort]; [constructor|].
  now apply sort_insert_sorted_total.
Qed.
End SortGeneral.

Section SuggestFacts.
Import BrandDetector.

Lemma str_ltb_asym : forall a b, str_ltb a b = true -> str_ltb b a = false.
Proof.
  induction a as [|x a IH]; intros [|y b] H; cbn [str_ltb] in *;
    try reflexivity; try discriminate.
  apply orb_true_iff in H. apply orb_false_iff.
  destruct H as [H | H].
  - apply Nat.ltb_lt in H. split; [apply Nat.ltb_ge; lia|].
    apply andb_false_iff. left. apply Nat.eqb_neq. lia.
  - apply andb_true_iff in H. destruct H as [H1 H2]. apply Nat.eqb_eq in H1.
    split; [apply Nat.ltb_ge; lia|]. apply andb_false_iff. right. now apply IH.
Qed.

Lemma str_le_trans : forall a b c,
  str_ltb b a = false -> str_ltb c b = false -> str_ltb c a = false.
Proof.
  induction a as [|x a IH]; intros b c H1 H2.
  - now destruct c.
  - destruct c as [|z c]; [destruct b; cbn [str_ltb] in *; discriminate|].
    destruct b as [|y b]; [cbn [str_ltb] in H1; discriminate|].
    cbn [str_ltb] in *. apply orb_false_iff in H1, H2. apply orb_false_iff.
    destruct H1 as [A1 B1], H2 as [A2 B2].
    apply Nat.ltb_ge in A1, A2. apply andb_false_iff in B1, B2.
    split; [apply Nat.ltb_ge; lia|]. apply andb_false_iff.
    destruct (Nat.eqb_spec (code z) (code x)) as [E | E]; [right | now left].
    destruct B1 as [B1 | B1]; [apply Nat.eqb_neq in B1; lia|].
    destruct B2 as [B2 | B2]; [apply Nat.eqb_neq in B2; lia|].
    now apply (IH b c).
Qed.

Lemma suggestFrom_closed : forall lp k entries acc,
  let n := Z.to_nat (Z.max 1 k) in
  length acc < n ->
  suggestFrom lp k entries acc
  = acc ++ map snd (firstn (n - length acc)
                      (filter (fun e => startsWith lp (fst e)) entries)).
Proof.
  intros lp k entries. induction entries as [|[key v] entries IH]; intros acc n Hacc.
  - cbn. rewrite firstn_nil. cbn. now rewrite app_nil_r.
  - cbn [suggestFrom filter fst]. destruct (startsWith lp key).
    + cbv zeta. rewrite length_app. cbn [length].
      destruct (Z.leb_spec k (Z.of_nat (length acc + 1))) as [Hk | Hk].
      * assert (E : n - length acc = 1) by (unfold n in *; lia).
        rewrite E. cbn [firstn map snd]. reflexivity.
      * assert (Hlt : length (acc ++ [v]) < n)
          by (rewrite length_app; cbn [length]; unfold n in *; lia).
        rewrite (IH (acc ++ [v]) Hlt). rewrite length_app. cbn [length].
        fold n. destruct (n - length acc) as [|m] eqn:Em; [lia|].
        replace (n - (length acc + 1)) with m by lia.
        cbn [firstn map snd]. now rewrite <- app_assoc.
    + now apply IH.
Qed.

Lemma normalizedMap_keys : forall db,
  map fst (normalizedMap (new db)) = Set_str (map toLowerCase (brands db)).
Proof.
  intro db. unfold new. cbn [normalizedMap]. unfold Set_str, set_of_list.
  generalize (brands db). intro l.
  induction l as [|b l IH] using rev_ind; [reflexivity|].
  rewrite map_app, !fold_left_app. cbn [fold_left map].
  rewrite map_set_keys, IH. reflexivity.
Qed.

Lemma normalizedMap_entry : forall db k v,
  In (k, v) (normalizedMap (new db)) -> In v (brands db) /\ toLowerCase v = k.
Proof.
  intros db k v H.
  assert (Hnd : NoDup (map fst (normalizedMap (new db)))).
  { rewrite normalizedMap_keys. apply Set_str_NoDup. }
  pose proof (@map_get_In _ _ _ _ Hnd H) as Hg.
  destruct (normalizedMap_stored db _ Hg) as (H1 & H2 & _). now split.
Qed.

Lemma filter_fst : forall (V : Type) (p : jsstring -> bool) (m : list (jsstring * V)),
  map fst (filter (fun e => p (fst e)) m) = filter p (map fst m).
Proof.
  intros V p m. induction m as [|[k v] m IH]; [reflexivity|].
  cbn [filter map fst]. destruct (p k); cbn [map fst]; now rewrite IH.
Qed.

(** X13: getSuggestions takes the brands whose lower-cased name starts with
    the lower-cased partial text, in database order and one per
    lower-case form, stops at the limit (10 when omitted) but never before
    the first match, so it returns min(max(1, limit), matches)
    suggestions, all brands of the database, sorted by code units. *)
Theorem getSuggestions_spec : forall db partial limit,
  let k := Z.to_nat (Z.max 1 (match limit with Some k => k | None => 10%Z end)) in
  let matching :=
    filter (startsWith (toLowerCase partial))
      (Set_str (map toLowerCase (brands db))) in
  let result := getSuggestions (new db) partial limit in
  length result = Nat.min k (length matching) /\
  Permutation (map toLowerCase result) (firstn k matching) /\
  (forall s, In s result -> In s (brands db)) /\
  StronglySorted (fun a b => str_ltb b a = false) result.
Proof.
  intros db partial limit k matching result.
  set (lp := toLowerCase partial) in *.
  set (entries := filter (fun e => startsWith lp (fst e)) (normalizedMap (new db))).
  assert (Hres : result = array_sort str_ltb (map snd (firstn k entries))).
  { unfold result, getSuggestions. cbv zeta. fold lp.
    rewrite suggestFrom_closed by (cbn [length]; lia).
    cbn [length app]. now rewrite Nat.sub_0_r. }
  assert (Hkeys : map fst entries = matching).
  { unfold entries, matching. now rewrite filter_fst, normalizedMap_keys. }
  assert (Hent : forall e, In e (firstn k entries) ->
                   In (snd e) (brands db) /\ toLowerCase (snd e) = fst e).
  { intros [key v] He. apply normalizedMap_entry.
    assert (Hin : In (key, v) entries).
    { rewrite <- (firstn_skipn k entries). apply in_or_app. now left. }
    unfold entries in Hin. now apply filter_In in Hin. }
  pose proof (array_sort_Permutation str_ltb (map snd (firstn k entries))) as Hp.
  rewrite <- Hres in Hp.
  split; [|split; [|split]].
  - rewrite (Permutation_length Hp), length_map, length_firstn, <- Hkeys.
    now rewrite length_map.
  - assert (E : map toLowerCase (map snd (firstn k entries)) = firstn k matching).
    { rewrite map_map, <- Hkeys, firstn_map.
      apply map_ext_in. intros e He. exact (proj2 (Hent e He)). }
    rewrite <- E. now apply Permutation_map.
  - intros s Hs. apply (Permutation_in _ Hp) in Hs. apply in_map_iff in Hs.
    destruct Hs as [e [<- He]]. exact (proj1 (Hent e He)).
  - rewrite Hres. apply array_sort_sorted_total.
    + exact str_ltb_asym.
    + exact str_le_trans.
Qed.

End SuggestFacts.

(** ** cleanResponse: the shape of the result *)

Lemma noAdjacentFrom_split : forall ch pre post b,
  noAdjacentFrom ch b (pre ++ ch :: ch :: post) = false.
Proof.
  intros ch pre. induction pre as [|c pre IH]; intros post b.
  - cbn [app noAdjacentFrom]. rewrite Ascii.eqb_refl. cbn. now rewrite andb_false_r.
  - cbn [app noAdjacentFrom]. rewrite IH. apply andb_false_r.
Qed.

Lemma trim_fixed_ends : forall s,
  trim s = s ->
  (forall c rest, s = c :: rest -> isSpace c = false) /\
  (forall c pre, s = pre ++ [c] -> isSpace c = false).
Proof.
  intros s H. split.
  - intros c rest E. rewrite <- H in E. unfold trim in E.
    pose proof (dropWhile_head isSpace s) as Hh. fold (trimStart s) in Hh.
    pose proof (trimEnd_prefix (trimStart s)) as Hp. rewrite E in Hp.
    rewrite Hp in Hh. exact Hh.
  - intros c pre E. rewrite <- H in E. unfold trim, trimEnd in E.
    apply (f_equal (@rev ascii)) in E. rewrite rev_involutive, rev_app_distr in E.
    cbn [rev app] in E.
    pose proof (dropWhile_head isSpace (rev (trimStart s))) as Hh.
    rewrite E in Hh. exact Hh.
Qed.

(** X14: the text cleanResponse returns is in white-space normal form: it
    holds no two spaces and no two line feeds in a row, it neither starts
    nor ends with a white-space character, and normalising its white
    space again changes nothing. *)
Theorem cleanResponse_whitespace_normal : forall x,
  let y := cleanResponse x in
  (forall pre post c, y = pre ++ c :: c :: post -> c <> SP /\ c <> LF) /\
  (forall c rest, y = c :: rest -> isSpace c = false) /\
  (forall c pre, y = pre ++ [c] -> isSpace c = false) /\
  normalizeWhitespace y = y.
Proof.
  intros x y.
  assert (Hlf : noAdjacent LF y = true).
  { unfold y, cleanResponse, normalizeWhitespace. apply noAdjacent_trim.
    apply noAdjacentFrom_other; [reflexivity | reflexivity|].
    apply noAdjacentFrom_squeezeFrom. }
  assert (Hsp : noAdjacent SP y = true).
  { unfold y, cleanResponse, normalizeWhitespace. apply noAdjacent_trim.
    apply noAdjacentFrom_squeezeFrom. }
  assert (Htrim : trim y = y).
  { unfold y, cleanResponse, normalizeWhitespace. apply trim_idem. }
  destruct (@trim_fixed_ends y Htrim) as [Hfirst Hlast].
  split; [|split; [exact Hfirst | split; [exact Hlast|]]].
  - intros pre post c E. split; intros ->.
    + unfold noAdjacent in Hsp. rewrite E, noAdjacentFrom_split in Hsp. discriminate.
    + unfold noAdjacent in Hlf. rewrite E, noAdjacentFrom_split in Hlf. discriminate.
  - unfold y, cleanResponse. apply normalizeWhitespace_idem.
Qed.

(** ** cleanResponse only deletes characters *)

Lemma subseq_refl : forall (A : Type) (l : list A), subseq l l.
Proof. induction l; [apply subseq_nil | now apply subseq_keep]. Qed.

Lemma subseq_nil_l : forall (A : Type) (l : list A), subseq [] l.
Proof. induction l; [apply subseq_nil | now apply subseq_skip]. Qed.

Lemma subseq_trans : forall (A : Type) (l1 l2 l3 : list A),
  subseq l1 l2 -> subseq l2 l3 -> subseq l1 l3.
Proof.
  intros A l1 l2 l3 H12 H23. revert l1 H12.
  induction H23 as [|x l2 l3 H IH|x l2 l3 H IH]; intros l1 H12.
  - exact H12.
  - apply subseq_skip. now apply IH.
  - inversion H12; subst.
    + apply subseq_skip. now apply IH.
    + apply subseq_keep. now apply IH.
Qed.

Lemma subseq_app : forall (A : Type) (a1 a2 b1 b2 : list A),
  subseq a1 a2 -> subseq b1 b2 -> subseq (a1 ++ b1) (a2 ++ b2).
Proof.
  intros A a1 a2 b1 b2 Ha Hb. induction Ha; cbn [app];
    [assumption | now apply subseq_skip | now apply subseq_keep].
Qed.

Lemma subseq_length : forall (A : Type) (l1 l2 : list A),
  subseq l1 l2 -> length l1 <= length l2.
Proof. intros A l1 l2 H. induction H; cbn [length]; lia. Qed.

Lemma subseq_skipn : forall (A : Type) n (l : list A), subseq (skipn n l) l.
Proof.
  intros A n. induction n as [|n IH]; intro l; [apply subseq_refl|].
  destruct l as [|x l]; [apply subseq_nil|]. cbn [skipn]. apply subseq_skip. apply IH.
Qed.

Lemma subseq_firstn : forall (A : Type) n (l : list A), subseq (firstn n l) l.
Proof.
  intros A n. induction n as [|n IH]; intro l; [apply subseq_nil_l|].
  destruct l as [|x l]; [apply subseq_nil|]. cbn [firstn]. apply subseq_keep. apply IH.
Qed.

Lemma subseq_dropWhile : forall (A : Type) (p : A -> bool) l,
  subseq (dropWhile p l) l.
Proof.
  intros A p l. induction l as [|x l IH]; [apply subseq_nil|]. cbn [dropWhile].
  destruct (p x); [now apply subseq_skip | apply subseq_refl].
Qed.

Lemma subseq_rev : forall (A : Type) (l1 l2 : list A),
  subseq l1 l2 -> subseq (rev l1) (rev l2).
Proof.
  intros A l1 l2 H. induction H; cbn [rev].
  - apply subseq_nil.
  - rewrite <- (app_nil_r (rev l1)). apply subseq_app; [assumption|].
    apply subseq_skip. apply subseq_nil.
  - apply subseq_app; [assumption | apply subseq_refl].
Qed.

Lemma subseq_trim : forall s, subseq (trim s) s.
Proof.
  intro s. unfold trim, trimEnd, trimStart.
  apply (subseq_trans (l2 := dropWhile isSpace s)); [|apply subseq_dropWhile].
  rewrite <- (rev_involutive (dropWhile isSpace s)) at 2.
  apply subseq_rev. apply subseq_dropWhile.
Qed.

Lemma subseq_squeezeFrom : forall ch s b, subseq (squeezeFrom ch b s) s.
Proof.
  intros ch s. induction s as [|c s IH]; intro b; [apply subseq_nil|].
  cbn [squeezeFrom]. destruct (Ascii.eqb c ch); [destruct b|];
    [apply subseq_skip | apply subseq_keep | apply subseq_keep]; apply IH.
Qed.

Lemma replaceAllFrom_subseq : forall m, shrinking m ->
  forall s prev skip, subseq (replaceAllFrom m prev s skip) (skipn skip s).
Proof.
  intros m Hm s. induction s as [|c s IH]; intros prev skip.
  - cbn. rewrite skipn_nil. apply subseq_nil.
  - cbn [replaceAllFrom]. destruct skip as [|k].
    + cbn [skipn]. destruct (m prev (c :: s)) as [[len replacement]|] eqn:E.
      * destruct (Hm _ _ _ _ E) as [Hlen Hsub].
        rewrite <- (firstn_skipn len (c :: s)).
        apply subseq_app; [exact Hsub|].
        destruct len as [|len]; [lia|]. cbn [skipn].
        replace (S len - 1) with len by lia. apply IH.
      * apply subseq_keep. apply (IH (Some c) 0).
    + cbn [skipn]. apply IH.
Qed.

Lemma replaceAll_subseq : forall m, shrinking m -> forall s, subseq (replaceAll m s) s.
Proof. intros m Hm s. exact (replaceAllFrom_subseq Hm s None 0). Qed.

Lemma shrinking_nil : forall m : Matcher,
  (forall prev s len replacement, m prev s = Some (len, replacement) ->
     1 <= len /\ replacement = []) ->
  shrinking m.
Proof.
  intros m H prev s len replacement E. destruct (H _ _ _ _ E) as [H1 ->].
  split; [assumption | apply subseq_nil_l].
Qed.

Lemma headerMatcher_shrinking : shrinking headerMatcher.
Proof.
  apply shrinking_nil. intros prev s len r E. unfold headerMatcher in E.
  cbv zeta in E. destruct (atLineStart prev); [|discriminate].
  remember (Nat.min 6 (length (takeWhile (isChar 35) s))) as hashes eqn:Eh.
  destruct (Nat.leb_spec 1 hashes) as [H | H]; [|discriminate].
  injection E as <- <-. split; [lia | reflexivity].
Qed.

Lemma bulletMatcher_shrinking : shrinking bulletMatcher.
Proof.
  apply shrinking_nil. intros prev s len r E. unfold bulletMatcher in E.
  cbv zeta in E. destruct (atLineStart prev); [|discriminate].
  destruct (skipn _ s) as [|c rest]; [discriminate|].
  destruct (isChar 45 c || isChar 42 c); [|discriminate].
  injection E as <- <-. split; [lia | reflexivity].
Qed.

Lemma numberedMatcher_shrinking : shrinking numberedMatcher.
Proof.
  apply shrinking_nil. intros prev s len r E. unfold numberedMatcher in E.
  cbv zeta in E. destruct (atLineStart prev); [|discriminate].
  destruct (1 <=? _); [|discriminate].
  destruct (skipn _ s) as [|c rest]; [discriminate|].
  destruct (isChar 46 c); [|discriminate].
  injection E as <- <-. split; [lia | reflexivity].
Qed.

Lemma fenceMatcher_shrinking : shrinking fenceMatcher.
Proof.
  apply shrinking_nil. intros prev s len r E. unfold fenceMatcher in E.
  destruct (startsWith _ s); [|discriminate].
  destruct (lazyAny _ _ _) as [n|]; [|discriminate].
  injection E as <- <-. split; [lia | reflexivity].
Qed.

Lemma takeWhile_prefix : forall (A : Type) (p : A -> bool) l,
  firstn (length (takeWhile p l)) l = takeWhile p l.
Proof.
  intros A p l. induction l as [|x l IH]; [reflexivity|]. cbn [takeWhile].
  destruct (p x); [cbn [length firstn]; now rewrite IH | reflexivity].
Qed.

Lemma subseq_firstn_plus : forall (A : Type) n k (l : list A),
  subseq (firstn n l) (firstn (n + k) l).
Proof.
  intros A n k l. rewrite firstn_plus. rewrite <- (app_nil_r (firstn n l)) at 1.
  apply subseq_app; [apply subseq_refl | apply subseq_nil_l].
Qed.

Lemma inlineCodeMatcher_shrinking : shrinking inlineCodeMatcher.
Proof.
  intros prev s len r E. unfold inlineCodeMatcher in E.
  destruct s as [|c rest]; [discriminate|].
  destruct (isChar 96 c); [|discriminate]. cbv zeta in E.
  remember (takeWhile (fun d => negb (isChar 96 d)) rest) as run eqn:Er.
  destruct (1 <=? length run); [|discriminate].
  destruct (skipn _ rest) as [|d rest']; [discriminate|].
  injection E as <- <-. split; [lia|].
  cbn [Nat.add firstn]. apply subseq_skip.
  assert (Hpre : firstn (length run) rest = run)
    by (rewrite Er; apply takeWhile_prefix).
  rewrite <- Hpre at 1. apply subseq_firstn_plus.
Qed.

Lemma lazyDots_prefix : forall close s acc captured,
  lazyDots close s acc = Some captured ->
  exists taken, captured = rev acc ++ taken /\ 1 <= length taken /\
                firstn (length taken) s = taken.
Proof.
  intros close s. induction s as [|c s IH]; intros acc captured H; [discriminate|].
  cbn [lazyDots] in H. destruct (isLineTerminator c); [discriminate|].
  destruct (startsWith close s).
  - injection H as <-. exists [c]. cbn [rev]. repeat split. cbn. lia.
  - apply IH in H. destruct H as [taken (E1 & E2 & E3)]. exists (c :: taken).
    cbn [rev] in E1. rewrite <- app_assoc in E1. split; [exact E1|].
    cbn [length firstn]. split; [lia | now rewrite E3].
Qed.

Lemma emphasisMatcher_shrinking : forall delim, shrinking (emphasisMatcher delim).
Proof.
  intros delim prev s len r E. unfold emphasisMatcher in E.
  destruct (startsWith delim s); [|discriminate].
  destruct (lazyDots delim (skipn (length delim) s) []) as [captured|] eqn:El;
    [|discriminate].
  injection E as <- <-. apply lazyDots_prefix in El.
  destruct El as [taken (E1 & E2 & E3)]. cbn [rev app] in E1. subst taken.
  split; [lia|].
  rewrite <- Nat.add_assoc, firstn_plus.
  rewrite <- (app_nil_l captured).
  apply subseq_app; [apply subseq_nil_l|].
  rewrite <- E3 at 1. apply subseq_firstn_plus.
Qed.

Lemma stripMarkdown_subseq : forall text, subseq (stripMarkdown text) text.
Proof.
  intro text. unfold stripMarkdown. cbv zeta.
  repeat (eapply subseq_trans;
          [apply replaceAll_subseq;
           first [ exact headerMatcher_shrinking | exact bulletMatcher_shrinking
                 | exact numberedMatcher_shrinking | exact fenceMatcher_shrinking
                 | exact inlineCodeMatcher_shrinking | apply emphasisMatcher_shrinking ]
          |]).
  apply subseq_refl.
Qed.

(** X15: cleanResponse only deletes characters: its result is the input with
    some characters left out, in the same order; so it is never longer
    than the input and holds no character the input does not hold. *)
Theorem cleanResponse_only_deletes : forall text,
  subseq (cleanResponse text) text /\
  length (cleanResponse text) <= length text /\
  (forall c, In c (cleanResponse text) -> In c text).
Proof.
  intro text.
  assert (H : subseq (cleanResponse text) text).
  { unfold cleanResponse, normalizeWhitespace. cbv zeta.
    eapply subseq_trans; [apply subseq_trim|].
    eapply subseq_trans; [apply subseq_squeezeFrom|].
    eapply subseq_trans; [apply subseq_squeezeFrom|].
    apply stripMarkdown_subseq. }
  split; [exact H|]. split; [now apply subseq_length|].
  intros c. induction H; intro Hc.
  - contradiction.
  - right. now apply IHsubseq.
  - destruct Hc as [-> | Hc]; [now left | right; now apply IHsubseq].
Qed.

(** ** normalizeKeyPoint *)

Lemma collapse_ws_collapsed : forall s b, collapsed b (collapse_ws s b) = true.
Proof.
  induction s as [|c s IH]; intro b; [reflexivity|].
  cbn [collapse_ws]. destruct (isSpace c) eqn:E.
  - destruct b; [apply IH|]. cbn [collapsed].
    change (isSpace " "%char) with true. cbn. apply IH.
  - cbn [collapsed]. rewrite E. apply IH.
Qed.

Lemma collapse_ws_fixed : forall s b, collapsed b s = true -> collapse_ws s b = s.
Proof.
  induction s as [|c s IH]; intros b H; [reflexivity|].
  cbn [collapsed] in H. cbn [collapse_ws]. destruct (isSpace c).
  - apply andb_true_iff in H. destruct H as [H H3].
    apply andb_true_iff in H. destruct H as [H1 H2].
    destruct b; [discriminate|]. apply Ascii.eqb_eq in H2. subst c.
    now rewrite (IH true H3).
  - now rewrite (IH false H).
Qed.

Lemma collapsed_weaken : forall s b, collapsed b s = true -> collapsed false s = true.
Proof.
  intros [|c s] b H; [reflexivity|]. cbn [collapsed] in *.
  destruct (isSpace c); [|exact H].
  apply andb_true_iff in H. destruct H as [H H3].
  apply andb_true_iff in H. destruct H as [_ H2]. now rewrite H2, H3.
Qed.

Lemma collapsed_app : forall l1 l2 b,
  collapsed b (l1 ++ l2) = true ->
  collapsed b l1 = true /\ collapsed false l2 = true.
Proof.
  induction l1 as [|c l1 IH]; intros l2 b H.
  - split; [reflexivity | now apply (collapsed_weaken _ b)].
  - cbn [app collapsed] in *. destruct (isSpace c).
    + apply andb_true_iff in H. destruct H as [H H3].
      destruct (IH _ _ H3) as [H4 H5]. now rewrite H, H4.
    + now apply IH.
Qed.

Lemma collapsed_trim : forall s, collapsed false s = true -> collapsed false (trim s) = true.
Proof.
  intros s H. unfold trim.
  rewrite <- (takeWhile_dropWhile isSpace s) in H.
  apply collapsed_app in H. destruct H as [_ H].
  fold (trimStart s) in H. rewrite (trimEnd_prefix (trimStart s)) in H.
  now apply collapsed_app in H.
Qed.

Lemma collapse_ws_In : forall s b c,
  In c (collapse_ws s b) -> c = " "%char \/ In c s.
Proof.
  induction s as [|x s IH]; intros b c H; [contradiction|].
  cbn [collapse_ws] in H. destruct (isSpace x).
  - destruct b.
    + destruct (IH _ _ H); [now left | right; now right].
    + destruct H as [<- | H]; [now left|].
      destruct (IH _ _ H); [now left | right; now right].
  - destruct H as [<- | H]; [right; now left|].
    destruct (IH _ _ H); [now left | right; now right].
Qed.

Lemma collapsed_space : forall s b c,
  collapsed b s = true -> In c s -> isSpace c = true -> c = " "%char.
Proof.
  induction s as [|x s IH]; intros b c Hcol Hc Hs; [contradiction|].
  cbn [collapsed] in Hcol. destruct Hc as [E | Hc].
  - subst x. rewrite Hs in Hcol. apply andb_true_iff in Hcol. destruct Hcol as [H _].
    apply andb_true_iff in H. destruct H as [_ H]. apply Ascii.eqb_eq in H. exact H.
  - destruct (isSpace x).
    + apply andb_true_iff in Hcol. destruct Hcol as [_ H]. now apply (IH true).
    + now apply (IH false).
Qed.

Lemma map_fixed : forall (A : Type) (f : A -> A) l,
  Forall (fun x => f x = x) l -> map f l = l.
Proof.
  intros A f l H. induction H; [reflexivity|]. cbn [map]. congruence.
Qed.

Lemma filter_fixed : forall (A : Type) (p : A -> bool) l,
  Forall (fun x => p x = true) l -> filter p l = l.
Proof.
  intros A p l H. induction H as [|x l Hx Hl IH]; [reflexivity|].
  cbn [filter]. now rewrite Hx, IH.
Qed.

(** X16: normalizeKeyPoint is idempotent, and its result is in lower case,
    made only of word characters and single spaces, and has no white
    space at either end. *)
Theorem normalizeKeyPoint_idempotent : forall keyPoint,
  let n := normalizeKeyPoint keyPoint in
  normalizeKeyPoint n = n /\
  toLowerCase n = n /\
  Forall (fun c => isKeyPointChar c = true) n /\
  (forall c, In c n -> isSpace c = true -> c = " "%char) /\
  trim n = n.
Proof.
  intros keyPoint n.
  set (kept := filter isKeyPointChar (toLowerCase keyPoint)).
  assert (Hn : n = trim (collapse_ws kept false)) by reflexivity.
  assert (Hin : forall c, In c n -> c = " "%char \/ In c kept).
  { intros c Hc. rewrite Hn in Hc. apply trim_incl in Hc.
    now apply collapse_ws_In in Hc. }
  assert (Hlow : Forall (fun c => toLowerChar c = c) n).
  { apply Forall_forall. intros c Hc. destruct (Hin c Hc) as [-> | Hk]; [reflexivity|].
    unfold kept in Hk. apply filter_In in Hk. destruct Hk as [Hk _].
    unfold toLowerCase in Hk. apply in_map_iff in Hk. destruct Hk as [c0 [<- _]].
    apply toLowerChar_idem. }
  assert (Hkeep : Forall (fun c => isKeyPointChar c = true) n).
  { apply Forall_forall. intros c Hc. destruct (Hin c Hc) as [-> | Hk]; [reflexivity|].
    unfold kept in Hk. apply filter_In in Hk. tauto. }
  assert (Hcol : collapsed false n = true).
  { rewrite Hn. apply collapsed_trim. apply collapse_ws_collapsed. }
  assert (Htrim : trim n = n) by (rewrite Hn; apply trim_idem).
  assert (Hlower : toLowerCase n = n) by (apply map_fixed; exact Hlow).
  split; [|split; [exact Hlower | split; [exact Hkeep | split; [|exact Htrim]]]].
  - unfold normalizeKeyPoint at 1. rewrite Hlower, (@filter_fixed _ isKeyPointChar n Hkeep).
    rewrite (@collapse_ws_fixed n false Hcol). exact Htrim.
  - intros c Hc Hs. exact (@collapsed_space n false c Hcol Hc Hs).
Qed.

(** ** The overlap measures *)

Lemma Set_str_length_sym : forall l1 l2,
  (forall x, In x l1 <-> In x l2) -> length (Set_str l1) = length (Set_str l2).
Proof.
  intros l1 l2 H. apply Permutation_length. apply NoDup_Permutation.
  - apply Set_str_NoDup.
  - apply Set_str_NoDup.
  - intro x. rewrite !set_of_list_In. apply H.
Qed.

Lemma Set_str_id : forall l, NoDup l -> Set_str l = l.
Proof.
  intros l H. unfold Set_str, set_of_list.
  assert (G : forall acc, NoDup (acc ++ l) ->
            fold_left (fun acc x => set_add str_eqb x acc) l acc = acc ++ l).
  { clear H. induction l as [|x l IH]; intros acc H; cbn [fold_left].
    - now rewrite app_nil_r.
    - assert (Hx : ~ In x acc).
      { intro Hin. apply NoDup_remove_2 in H. apply H. apply in_or_app. now left. }
      assert (E : set_add str_eqb x acc = acc ++ [x]).
      { unfold set_add. destruct (existsb (str_eqb x) acc) eqn:Ex; [|reflexivity].
        exfalso. apply Hx. now apply (@existsb_eqb_In _ _ str_eqb_eq x acc). }
      rewrite E, IH; [now rewrite <- app_assoc|]. now rewrite <- app_assoc. }
  exact (G [] H).
Qed.

Lemma union_size : forall w1 w2,
  NoDup w1 -> NoDup w2 ->
  length (Set_str (w1 ++ w2)) + length (filter (fun w => str_mem w w2) w1)
  = length w1 + length w2.
Proof.
  intros w1 w2 H1 H2.
  assert (Hp : Permutation (Set_str (w1 ++ w2))
                 (filter (fun w => negb (str_mem w w2)) w1 ++ w2)).
  { apply NoDup_Permutation.
    - apply Set_str_NoDup.
    - apply NoDup_app; [now apply NoDup_filter | assumption|].
      intros x Hx Hx2. apply filter_In in Hx. destruct Hx as [_ Hx].
      apply str_mem_In in Hx2. rewrite Hx2 in Hx. discriminate.
    - intro x. rewrite set_of_list_In, !in_app_iff, filter_In. split.
      + intros [Hx | Hx]; [|now right].
        destruct (str_mem x w2) eqn:E; [right; now apply str_mem_In | now left].
      + intros [[Hx _] | Hx]; [now left | now right]. }
  rewrite (Permutation_length Hp), length_app.
  assert (Hsplit : length (filter (fun w => negb (str_mem w w2)) w1)
                   + length (filter (fun w => str_mem w w2) w1) = length w1).
  { clear. induction w1 as [|x w1 IH]; [reflexivity|]. cbn [filter].
    destruct (str_mem x w2); cbn [negb length]; lia. }
  lia.
Qed.

(** X17: calculateSemanticOverlap does not depend on the order of its two
    texts; it is 0 when either text has no significant word; otherwise
    it is the rounded percentage of the shared significant words among
    all significant words of the two texts, each counted once. *)
Theorem calculateSemanticOverlap_symmetric : forall text1 text2,
  let words1 := getSignificantWords text1 in
  let words2 := getSignificantWords text2 in
  let shared := filter (fun w => str_mem w words2) words1 in
  calculateSemanticOverlap text1 text2 = calculateSemanticOverlap text2 text1 /\
  (words1 = [] \/ words2 = [] -> calculateSemanticOverlap text1 text2 = 0%float) /\
  (words1 <> [] -> words2 <> [] ->
     calculateSemanticOverlap text1 text2
     = Math_round (num (length shared)
                   / num (length words1 + length words2 - length shared) * 100)%float).
Proof.
  intros text1 text2 words1 words2 shared.
  pose proof (getSignificantWords_NoDup text1) as H1. fold words1 in H1.
  pose proof (getSignificantWords_NoDup text2) as H2. fold words2 in H2.
  unfold calculateSemanticOverlap. fold words1 words2. cbv zeta. fold shared.
  split; [|split].
  - rewrite (orb_comm (length words2 =? 0)).
    destruct ((length words1 =? 0) || (length words2 =? 0)); [reflexivity|].
    assert (E1 : length shared = length (filter (fun w => str_mem w words1) words2)).
    { exact (directOverlap_sym H1 H2). }
    assert (E2 : length (Set_str (words1 ++ words2)) = length (Set_str (words2 ++ words1))).
    { apply Set_str_length_sym. intro x. rewrite !in_app_iff. tauto. }
    now rewrite E1, E2.
  - intros [E | E]; rewrite E; cbn [length Nat.eqb orb]; [reflexivity|].
    now rewrite orb_true_r.
  - intros N1 N2.
    assert (E : ((length words1 =? 0) || (length words2 =? 0)) = false).
    { destruct words1; [contradiction|]. destruct words2; [contradiction|]. reflexivity. }
    rewrite E. pose proof (union_size H1 H2) as Hu. fold shared in Hu.
    replace (length words1 + length words2 - length shared)
      with (length (Set_str (words1 ++ words2))) by lia.
    reflexivity.
Qed.

(** X18: calculateJaccardSimilarity does not depend on the order of its two
    lists; it is 1 for two empty lists and 0 when exactly one is empty;
    and it ignores letter case and repetitions. *)
Theorem calculateJaccardSimilarity_symmetric : forall a b,
  calculateJaccardSimilarity a b = calculateJaccardSimilarity b a /\
  calculateJaccardSimilarity [] [] = 1%float /\
  (a <> [] -> calculateJaccardSimilarity a [] = 0%float
              /\ calculateJaccardSimilarity [] a = 0%float) /\
  calculateJaccardSimilarity (map toLowerCase a) b = calculateJaccardSimilarity a b /\
  calculateJaccardSimilarity (a ++ a) b = calculateJaccardSimilarity a b.
Proof.
  intros a b. unfold calculateJaccardSimilarity. cbv zeta.
  set (A := Set_str (map toLowerCase a)). set (B := Set_str (map toLowerCase b)).
  assert (Hne : forall l : list jsstring, l <> [] ->
            (length (Set_str (map toLowerCase l)) =? 0) = false).
  { intros l Hl. destruct l as [|x l]; [contradiction|].
    destruct (Set_str (map toLowerCase (x :: l))) as [|y s] eqn:E; [|reflexivity].
    exfalso. assert (Hin : In (toLowerCase x) (Set_str (map toLowerCase (x :: l)))).
    { apply set_of_list_In. now left. }
    rewrite E in Hin. contradiction. }
  split; [|split; [|split; [|split]]].
  - rewrite (andb_comm (length B =? 0)), (orb_comm (length B =? 0)).
    destruct ((length A =? 0) && (length B =? 0)); [reflexivity|].
    destruct ((length A =? 0) || (length B =? 0)); [reflexivity|].
    assert (E1 : length (Set_str (filter (fun x => str_mem x B) A))
                 = length (Set_str (filter (fun x => str_mem x A) B))).
    { apply Set_str_length_sym. intro x. rewrite !filter_In, !str_mem_In. tauto. }
    assert (E2 : length (Set_str (A ++ B)) = length (Set_str (B ++ A))).
    { apply Set_str_length_sym. intro x. rewrite !in_app_iff. tauto. }
    now rewrite E1, E2.
  - reflexivity.
  - intro Ha. pose proof (Hne a Ha) as HA. fold A in HA. rewrite HA.
    split; reflexivity.
  - assert (E : Set_str (map toLowerCase (map toLowerCase a)) = A).
    { unfold A. f_equal. rewrite map_map. apply map_ext.
      intro x. unfold toLowerCase. rewrite map_map. apply map_ext.
      apply toLowerChar_idem. }
    now rewrite E.
  - assert (E : Set_str (map toLowerCase (a ++ a)) = A).
    { unfold A. rewrite map_app. unfold Set_str, set_of_list. rewrite fold_left_app.
      fold (set_of_list str_eqb (map toLowerCase a)). fold (Set_str (map toLowerCase a)).
      generalize (set_of_list_In (map toLowerCase a)).
      generalize (Set_str (map toLowerCase a)). intros s Hs.
      assert (G : forall l acc, (forall x, In x l -> In x acc) ->
                fold_left (fun acc x => set_add str_eqb x acc) l acc = acc).
      { induction l as [|x l IH]; intros acc H; [reflexivity|]. cbn [fold_left].
        assert (Ex : set_add str_eqb x acc = acc).
        { unfold set_add.
          assert (existsb (str_eqb x) acc = true) as ->; [|reflexivity].
          apply (@existsb_eqb_In _ _ str_eqb_eq x acc). apply H. now left. }
        rewrite Ex. apply IH. intros y Hy. apply H. now right. }
      apply G. intros x Hx. now apply Hs. }
    now rewrite E.
Qed.

(** ** generateBrandVariations *)

Section VariationFacts.














End VariationFacts.


(** ** extractBrandMentions: what is reported, and what is not missed *)

Section MentionFacts.














(** *** The snippet shows the match *)















End MentionFacts.





(** ** calculateSentimentDistribution *)

Section SentimentFacts.

Lemma sentiment_counts : forall rs : list ResponseData,
  count_if (isSentiment positive) rs
  + count_if (isSentiment neutral) rs
  + count_if (isSentiment negative) rs = length rs.
Proof.
  unfold count_if. intro rs. induction rs as [|r rs IH]; [reflexivity|].
  cbn [filter].
  destruct (isSentiment positive r) eqn:E1, (isSentiment neutral r) eqn:E2,
    (isSentiment negative r) eqn:E3; unfold isSentiment in E1, E2, E3;
    destruct (responseSentiment r); try discriminate; cbn [length]; lia.
Qed.

Lemma percent_exact : forall T c,
  1 <= T <= 10 -> c <= T ->
  Math_round (num c / num T * 100)%float = num (roundedPercent c T).
Proof.
  intros T c HT Hc. destruct c as [|c].
  - assert (E : map (fun T => Math_round (num 0 / num T * 100)%float) (seq 1 10)
                = map (fun T => num (roundedPercent 0 T)) (seq 1 10))
      by (vm_compute; reflexivity).
    apply (map_eq_pointwise _ _ _ T E). apply in_seq. lia.
  - apply (bucketOf_exact (T := T) (c := S c)); lia.
Qed.

Lemma percent_sum : forall T p u n,
  1 <= T <= 10 -> p + u + n = T ->
  99 <= roundedPercent p T + roundedPercent u T + roundedPercent n T <= 101.
Proof.
  intros T p u n HT E. unfold roundedPercent.
  pose proof (Nat.div_mod_eq (200 * p + T) (2 * T)) as Hp.
  pose proof (Nat.div_mod_eq (200 * u + T) (2 * T)) as Hu.
  pose proof (Nat.div_mod_eq (200 * n + T) (2 * T)) as Hn.
  pose proof (Nat.mod_upper_bound (200 * p + T) (2 * T)) as Bp.
  pose proof (Nat.mod_upper_bound (200 * u + T) (2 * T)) as Bu.
  pose proof (Nat.mod_upper_bound (200 * n + T) (2 * T)) as Bn.
  revert Hp Hu Hn Bp Bu Bn.
  generalize ((200 * p + T) / (2 * T)) ((200 * p + T) mod (2 * T))
             ((200 * u + T) / (2 * T)) ((200 * u + T) mod (2 * T))
             ((200 * n + T) / (2 * T)) ((200 * n + T) mod (2 * T)).
  intros qp rp qu ru qn rn Hp Hu Hn Bp Bu Bn.
  assert (C : T = 1 \/ T = 2 \/ T = 3 \/ T = 4 \/ T = 5 \/ T = 6 \/ T = 7 \/ T = 8
              \/ T = 9 \/ T = 10) by lia.
  destruct C as [-> | [-> | [-> | [-> | [-> | [-> | [-> | [-> | [-> | ->]]]]]]]]];
    lia.
Qed.

End SentimentFacts.

(** X22: for at most 10 responses (the number analyzeStability admits), each
    percentage of calculateSentimentDistribution is the share of the
    responses of that sentiment, in percent, rounded to the nearest
    integer; the three shares cover all responses; all three are 0 for no
    response, and otherwise they add up to 99, 100 or 101. *)
Theorem calculateSentimentDistribution_percentages :
  forall responses : list ResponseData,
  length responses <= 10 ->
  let total0 := length responses in
  let p := count_if (isSentiment positive) responses in
  let u := count_if (isSentiment neutral) responses in
  let n := count_if (isSentiment negative) responses in
  let d := calculateSentimentDistribution responses in
  p + u + n = total0 /\
  positivePercent d = num (roundedPercent p total0) /\
  neutralPercent d = num (roundedPercent u total0) /\
  negativePercent d = num (roundedPercent n total0) /\
  (responses = [] ->
     positivePercent d = 0%float /\ neutralPercent d = 0%float
     /\ negativePercent d = 0%float) /\
  (responses <> [] ->
     99 <= roundedPercent p total0 + roundedPercent u total0
           + roundedPercent n total0 <= 101).
Proof.
  intros responses Hlen total0 p u n d.
  pose proof (sentiment_counts responses) as Hsum. fold p u n total0 in Hsum.
  split; [exact Hsum|].
  assert (C : responses = [] \/ responses <> []).
  { destruct responses; [now left | right; discriminate]. }
  destruct C as [Er | Er].
  - subst responses.
    split; [reflexivity|]. split; [reflexivity|]. split; [reflexivity|].
    split; [intros _; repeat split; reflexivity | intro H; congruence].
  - assert (HT : 1 <= total0 <= 10).
    { unfold total0. split; [|exact Hlen].
      destruct responses; [congruence | cbn [length]; lia]. }
    assert (Hd : d = {| positivePercent := Math_round (num p / num total0 * 100)%float;
                        neutralPercent := Math_round (num u / num total0 * 100)%float;
                        negativePercent := Math_round (num n / num total0 * 100)%float |}).
    { unfold d, calculateSentimentDistribution. fold total0.
      destruct (total0 =? 0) eqn:E0; [apply Nat.eqb_eq in E0; lia | reflexivity]. }
    rewrite Hd. cbn [positivePercent neutralPercent negativePercent].
    rewrite !percent_exact by lia.
    split; [reflexivity|]. split; [reflexivity|]. split; [reflexivity|].
    split; [intro H; contradiction|].
    intros _. now apply percent_sum.
Qed.

Lemma calculateSentimentDistribution_percentages_witness :
  let responses :=
    [ sampleResponse 1 []; sampleResponse 2 []; sampleResponse 3 [] ] in
  length responses <= 10 /\
  neutralPercent (calculateSentimentDistribution responses) = 100%float.
Proof.
  intro responses.
  assert (H : length responses <= 10) by (cbn; lia).
  split; [exact H|].
  destruct (calculateSentimentDistribution_percentages responses H)
    as (_ & _ & Hu & _).
  rewrite Hu. vm_compute. reflexivity.
Defined.

(** ** analyzeStability: the errors of the configuration, progress and delays *)

Section TraceFacts.
Variable llm : QueryCapability.
Variable options : StabilityOptions.
Variable n : nat.





End TraceFacts.





(** ** findUniversalBrands, calculateCrossModelOverlapStats *)

Section CrossModelFacts.

Lemma toLowerCase_nil : forall x, toLowerCase x = [] -> x = [].
Proof. intros [|c x] H; [reflexivity | discriminate]. Qed.

Lemma findOriginal_some : forall b brands x,
  findOriginal b brands = Some x -> In x brands /\ toLowerCase x = b.
Proof.
  intros b brands x H. unfold findOriginal in H. apply find_some in H.
  destruct H as [H1 H2]. apply str_eqb_eq in H2. now split.
Qed.

Lemma findOriginal_found : forall b brands,
  In b (map toLowerCase brands) -> exists x, findOriginal b brands = Some x.
Proof.
  intros b brands H. apply in_map_iff in H. destruct H as [y [Hy Hin]].
  unfold findOriginal.
  destruct (find (fun x => str_eqb (toLowerCase x) b) brands) as [x|] eqn:E;
    [now exists x|].
  pose proof (find_none _ _ E y Hin) as Hn. cbv beta in Hn.
  rewrite Hy, str_eqb_refl in Hn. discriminate.
Qed.

(** A lower-cased brand of the first model is returned in the casing of
    that model. *)
Lemma firstFound_first : forall b first others,
  In b (map toLowerCase (uniqueBrands first)) ->
  In (firstFound b (first :: others)) (uniqueBrands first)
  /\ toLowerCase (firstFound b (first :: others)) = b.
Proof.
  intros b first others H.
  destruct (findOriginal_found b (uniqueBrands first) H) as [x Hx].
  destruct (findOriginal_some _ _ Hx) as [Hin Hlow].
  cbn [firstFound]. rewrite Hx.
  destruct (length x =? 0) eqn:E; [|now split].
  apply Nat.eqb_eq, length_zero_iff_nil in E. subst x. cbn in Hlow. subst b.
  assert (G : forall l, firstFound [] l = []).
  { induction l as [|mr l IH]; cbn [firstFound]; [reflexivity|].
    destruct (findOriginal [] (uniqueBrands mr)) as [y|] eqn:Ey; [|exact IH].
    apply findOriginal_some in Ey. destruct Ey as [_ Ey].
    apply toLowerCase_nil in Ey. subst y. exact IH. }
  rewrite G. now split.
Qed.

(** The intersection loop keeps the brands every visited model has. *)
Lemma commonBrands_In : forall others acc b,
  In b (fold_left (fun commonBrands mr =>
          let modelBrands := Set_str (map toLowerCase (uniqueBrands mr)) in
          Set_str (filter (fun b => str_mem b modelBrands) commonBrands))
        others acc)
  <-> In b acc /\
      forall mr, In mr others -> In b (map toLowerCase (uniqueBrands mr)).
Proof.
  induction others as [|mr others IH]; intros acc b; cbn [fold_left].
  - split; [intro H; split; [exact H | intros mr []] | tauto].
  - rewrite IH. cbv zeta. rewrite set_of_list_In, filter_In, str_mem_Set_str, str_mem_In.
    split.
    + intros [[H1 H2] H3]. split; [exact H1|].
      intros mr' [<- | Hm]; [exact H2 | now apply H3].
    + intros [H1 H2]. split; [split; [exact H1 | apply H2; now left]|].
      intros mr' Hm. apply H2. now right.
Qed.

Lemma commonBrands_NoDup : forall others acc,
  NoDup acc ->
  NoDup (fold_left (fun commonBrands mr =>
           let modelBrands := Set_str (map toLowerCase (uniqueBrands mr)) in
           Set_str (filter (fun b => str_mem b modelBrands) commonBrands))
         others acc).
Proof.
  induction others as [|mr others IH]; intros acc H; cbn [fold_left]; [exact H|].
  apply IH. apply Set_str_NoDup.
Qed.

Lemma In_lower : forall (brands : list jsstring) b,
  In b (map toLowerCase brands)
  <-> exists x, In x brands /\ toLowerCase x = b.
Proof.
  intros brands b. rewrite in_map_iff. split; intros [x [H1 H2]]; exists x; tauto.
Qed.

End CrossModelFacts.

(** X25: findUniversalBrands returns brands of the first model, in the casing
    of the first model: each is a brand that every model has up to letter
    case, every brand of the first model that all other models have up
    to letter case is returned, no two results are equal up to letter
    case, and without models the result is empty. *)
Theorem findUniversalBrands_spec : forall first others,
  let modelResults := first :: others in
  let result := findUniversalBrands modelResults in
  (forall b, In b result ->
     In b (uniqueBrands first) /\
     forall mr, In mr modelResults ->
       exists x, In x (uniqueBrands mr) /\ toLowerCase x = toLowerCase b) /\
  (forall x, In x (uniqueBrands first) ->
     (forall mr, In mr others ->
        exists y, In y (uniqueBrands mr) /\ toLowerCase y = toLowerCase x) ->
     exists b, In b result /\ toLowerCase b = toLowerCase x) /\
  NoDup (map toLowerCase result) /\
  findUniversalBrands [] = [].
Proof.
  intros first others modelResults result.
  set (common := fold_left (fun commonBrands mr =>
          let modelBrands := Set_str (map toLowerCase (uniqueBrands mr)) in
          Set_str (filter (fun b => str_mem b modelBrands) commonBrands))
        others (Set_str (map toLowerCase (uniqueBrands first)))).
  assert (Hres : result = map (fun b => firstFound b modelResults) common)
    by reflexivity.
  assert (Hcommon : forall b, In b common <->
            In b (map toLowerCase (uniqueBrands first)) /\
            forall mr, In mr others -> In b (map toLowerCase (uniqueBrands mr))).
  { intro b. unfold common. rewrite commonBrands_In, set_of_list_In. tauto. }
  assert (Hlow : map toLowerCase result = common).
  { rewrite Hres, map_map. rewrite <- (map_id common) at 2.
    apply map_ext_in. intros b Hb. apply Hcommon in Hb. destruct Hb as [Hb _].
    now apply firstFound_first. }
  split; [|split; [|split; [|reflexivity]]].
  - intros b Hb. rewrite Hres in Hb. apply in_map_iff in Hb.
    destruct Hb as [lb [<- Hlb]]. apply Hcommon in Hlb. destruct Hlb as [H1 H2].
    destruct (@firstFound_first lb first others H1) as [Hin Hl].
    split; [exact Hin|]. unfold modelResults. rewrite Hl.
    intros mr [<- | Hmr].
    + now apply In_lower.
    + apply In_lower. now apply H2.
  - intros x Hx Hall.
    assert (Hc : In (toLowerCase x) common).
    { apply Hcommon. split; [now apply in_map|].
      intros mr Hmr. apply In_lower. now apply Hall. }
    rewrite <- Hlow in Hc. apply in_map_iff in Hc. destruct Hc as [b [Hb Hin]].
    now exists b.
  - rewrite Hlow. unfold common. apply commonBrands_NoDup. apply Set_str_NoDup.
Qed.

Section OverlapFacts.

(** The name reported for a shared lower-cased brand is a brand of model
    A, in the casing of model A. *)
Lemma sharedName_first : forall b brandsA brandsB,
  In b (map toLowerCase brandsA) ->
  let name := orElse (findOriginal b brandsA) (orElse (findOriginal b brandsB) b) in
  In name brandsA /\ toLowerCase name = b.
Proof.
  intros b brandsA brandsB H name.
  destruct (findOriginal_found b brandsA H) as [x Hx].
  destruct (findOriginal_some _ _ Hx) as [Hin Hlow].
  unfold name. rewrite Hx. cbn [orElse].
  destruct (length x =? 0) eqn:E; [|now split].
  apply Nat.eqb_eq, length_zero_iff_nil in E. subst x. cbn in Hlow. subst b.
  destruct (findOriginal [] brandsB) as [y|] eqn:Ey; cbn [orElse]; [|now split].
  apply findOriginal_some in Ey. destruct Ey as [_ Ey].
  apply toLowerCase_nil in Ey. subst y. cbn [length Nat.eqb]. now split.
Qed.

Lemma overlaps_length : forall modelResults,
  2 * length (calculateCrossModelOverlapStats modelResults)
  = length modelResults * (length modelResults - 1).
Proof.
  induction modelResults as [|mA rest IH]; [reflexivity|].
  cbn [calculateCrossModelOverlapStats]. rewrite length_app, length_map.
  cbn [length]. rewrite Nat.sub_succ, Nat.sub_0_r.
  destruct (length rest) as [|r]; [cbn in *; lia|].
  rewrite Nat.sub_succ, Nat.sub_0_r in IH. nia.
Qed.

Lemma overlaps_In : forall modelResults o,
  In o (calculateCrossModelOverlapStats modelResults)
  <-> exists i j mA mB, i < j /\
        nth_error modelResults i = Some mA /\
        nth_error modelResults j = Some mB /\
        o = overlapOf mA mB.
Proof.
  induction modelResults as [|m rest IH]; intro o;
    cbn [calculateCrossModelOverlapStats].
  - split; [intros [] | intros (i & j & mA & mB & _ & H & _)].
    destruct i; discriminate.
  - rewrite in_app_iff, in_map_iff, IH. split.
    + intros [[mB [<- Hin]] | (i & j & mA & mB & Hlt & Hi & Hj & ->)].
      * apply In_nth_error in Hin. destruct Hin as [j Hj].
        exists 0, (S j), m, mB. repeat split; [lia | exact Hj].
      * exists (S i), (S j), mA, mB. repeat split; [lia | assumption..].
    + intros (i & j & mA & mB & Hlt & Hi & Hj & ->).
      destruct j as [|j]; [lia|]. cbn [nth_error] in Hj.
      destruct i as [|i]; cbn [nth_error] in Hi.
      * injection Hi as <-. left. exists mB. split; [reflexivity|].
        now apply nth_error_In in Hj.
      * right. exists i, j, mA, mB. repeat split; [lia | assumption..].
Qed.

End OverlapFacts.

(** X26: calculateCrossModelOverlapStats reports every pair of model results
    once, the earlier one as model A: n (n - 1) / 2 entries.  In an entry
    sharedBrands is the number of sharedBrandNames; the shared names are
    brands of model A, in its casing, that model B has up to letter case,
    none is missing and no two are equal up to letter case; and the
    Jaccard index is 0 when neither model has a brand, otherwise the
    shared count over the number of distinct brands of both, rounded to
    three decimals. *)
Theorem calculateCrossModelOverlapStats_spec : forall modelResults,
  let overlaps := calculateCrossModelOverlapStats modelResults in
  2 * length overlaps = length modelResults * (length modelResults - 1) /\
  (forall o, In o overlaps <->
     exists i j mA mB, i < j /\
       nth_error modelResults i = Some mA /\
       nth_error modelResults j = Some mB /\
       o = overlapOf mA mB) /\
  (forall mA mB,
     let o := overlapOf mA mB in
     let setA := Set_str (map toLowerCase (uniqueBrands mA)) in
     let setB := Set_str (map toLowerCase (uniqueBrands mB)) in
     modelA o = mrModel mA /\ modelB o = mrModel mB /\
     sharedBrands o = length (sharedBrandNames o) /\
     NoDup (map toLowerCase (sharedBrandNames o)) /\
     (forall name, In name (sharedBrandNames o) ->
        In name (uniqueBrands mA) /\
        exists y, In y (uniqueBrands mB) /\ toLowerCase y = toLowerCase name) /\
     (forall x y, In x (uniqueBrands mA) -> In y (uniqueBrands mB) ->
        toLowerCase x = toLowerCase y ->
        exists name, In name (sharedBrandNames o)
                     /\ toLowerCase name = toLowerCase x) /\
     jaccardIndex o
     = (if (length setA + length setB =? 0) then 0%float
        else round3 (num (sharedBrands o)
                     / num (length setA + length setB - sharedBrands o))%float)).
Proof.
  intros modelResults overlaps.
  split; [apply overlaps_length|]. split; [apply overlaps_In|].
  intros mA mB o setA setB.
  set (inter := filter (fun x => str_mem x setB) setA).
  assert (HA : NoDup setA) by apply Set_str_NoDup.
  assert (HB : NoDup setB) by apply Set_str_NoDup.
  assert (Hinter : Set_str inter = inter).
  { apply Set_str_id. now apply NoDup_filter. }
  assert (Hin : forall b, In b inter <->
            In b (map toLowerCase (uniqueBrands mA))
            /\ In b (map toLowerCase (uniqueBrands mB))).
  { intro b. unfold inter, setA, setB.
    rewrite filter_In, str_mem_Set_str, str_mem_In, set_of_list_In. tauto. }
  assert (Hnames : sharedBrandNames o
                   = map (fun b => orElse (findOriginal b (uniqueBrands mA))
                                     (orElse (findOriginal b (uniqueBrands mB)) b))
                       inter).
  { unfold o, overlapOf. cbn [sharedBrandNames]. fold setA setB inter.
    now rewrite Hinter. }
  assert (Hshared : sharedBrands o = length inter).
  { unfold o, overlapOf. cbn [sharedBrands]. fold setA setB inter.
    now rewrite Hinter. }
  assert (Hlow : map toLowerCase (sharedBrandNames o) = inter).
  { rewrite Hnames, map_map. rewrite <- (map_id inter) at 2.
    apply map_ext_in. intros b Hb. apply Hin in Hb. destruct Hb as [Hb _].
    now apply sharedName_first. }
  split; [reflexivity|]. split; [reflexivity|].
  split; [now rewrite Hshared, Hnames, length_map|].
  split; [rewrite Hlow; now apply NoDup_filter|].
  split; [|split].
  - intros name Hn. rewrite Hnames in Hn. apply in_map_iff in Hn.
    destruct Hn as [b [<- Hb]]. apply Hin in Hb. destruct Hb as [H1 H2].
    destruct (@sharedName_first b (uniqueBrands mA) (uniqueBrands mB) H1) as [Hi Hl].
    split; [exact Hi|]. rewrite Hl. now apply In_lower.
  - intros x y Hx Hy E.
    assert (Hb : In (toLowerCase x) inter).
    { apply Hin. split; [now apply in_map|]. rewrite E. now apply in_map. }
    rewrite <- Hlow in Hb. apply in_map_iff in Hb. destruct Hb as [name [Hl Hn]].
    now exists name.
  - rewrite Hshared. unfold o, overlapOf. cbn [jaccardIndex].
    fold setA setB inter. rewrite Hinter.
    pose proof (union_size HA HB) as Hu. fold inter in Hu.
    destruct (length setA + length setB =? 0) eqn:E0.
    + apply Nat.eqb_eq in E0.
      assert (E : length (Set_str (setA ++ setB)) = 0) by lia.
      now rewrite E.
    + apply Nat.eqb_neq in E0.
      assert (Hle : length inter <= length setA) by apply filter_length_le.
      assert (Hpos : length (Set_str (setA ++ setB)) <> 0).
      { intro E. assert (Hs : Set_str (setA ++ setB) = [])
          by now apply length_zero_iff_nil.
        assert (Hnil : setA ++ setB = []).
        { destruct (setA ++ setB) as [|z l] eqn:Ez; [reflexivity|].
          assert (Hz : In z (Set_str (z :: l))) by (apply set_of_list_In; now left).
          rewrite Hs in Hz. contradiction. }
        apply app_eq_nil in Hnil. destruct Hnil as [-> ->]. cbn in E0. lia. }
      replace (length setA + length setB - length inter)
        with (length (Set_str (setA ++ setB))) by lia.
      destruct (length (Set_str (setA ++ setB))); [congruence | reflexivity].
Qed.

(** ** findUniversalMessages *)

Section MessageFacts.

Lemma Model_eqb_eq : forall a b, Model_eqb a b = true <-> a = b.
Proof. intros [] []; cbn; split; intro H; congruence. Qed.

Lemma models_at_most_three : forall l : list Model, NoDup l -> length l <= 3.
Proof.
  intros l H.
  assert (Hincl : incl l [gemini; openai; grok]).
  { intros [] _; cbn; tauto. }
  apply (NoDup_incl_length H) in Hincl. exact Hincl.
Qed.

Lemma NoDup_map_inj : forall (A B : Type) (f : A -> B) (l : list A) a b,
  NoDup (map f l) -> In a l -> In b l -> f a = f b -> a = b.
Proof.
  intros A B f l a b. induction l as [|x l IH]; cbn [map]; intros Hnd Ha Hb E;
    [contradiction|].
  inversion Hnd as [|? ? Hx Hl]; subst.
  destruct Ha as [-> | Ha], Hb as [-> | Hb].
  - reflexivity.
  - exfalso. apply Hx. rewrite E. now apply in_map.
  - exfalso. apply Hx. rewrite <- E. now apply in_map.
  - now apply IH.
Qed.

Variable rs : list ModelExperimentResult.

Lemma addToSimilarMessage_ok : forall mr msg m m',
  In mr rs -> In msg (coreStableMessages (analysis (mrResult mr))) ->
  messages_ok rs m ->
  addToSimilarMessage (trim (toLowerCase msg)) (mrModel mr) m = Some m' ->
  messages_ok rs m'.
Proof.
  intros mr msg m. induction m as [|[k models] m IH]; cbn [addToSimilarMessage];
    intros m' Hmr Hmsg [Hnd Hall] H; [discriminate|].
  inversion Hall as [|? ? Hk Hm]; subst.
  inversion Hnd as [|? ? Hk' Hnd']; subst.
  destruct (areSimilarKeyPoints (trim (toLowerCase msg)) k) eqn:Es.
  - injection H as <-. split; [exact Hnd|]. constructor; [|exact Hm].
    destruct Hk as (H1 & H2 & H3). cbn [fst snd] in *.
    split; [now apply (@set_add_NoDup _ _ Model_eqb_eq)|]. split; [|exact H3].
    intros mo Hmo. apply (@set_add_In _ _ Model_eqb_eq) in Hmo.
    destruct Hmo as [-> | Hmo]; [|now apply H2].
    exists mr. split; [exact Hmr|]. split; [reflexivity|].
    exists msg. split; [exact Hmsg | now right].
  - destruct (addToSimilarMessage (trim (toLowerCase msg)) (mrModel mr) m)
      as [m0|] eqn:E; [|discriminate].
    injection H as <-.
    destruct (IH m0 Hmr Hmsg (conj Hnd' Hm) eq_refl) as [Hnd0 Hall0].
    assert (Hkeys : forall m1 m2,
              addToSimilarMessage (trim (toLowerCase msg)) (mrModel mr) m1 = Some m2 ->
              map fst m2 = map fst m1).
    { induction m1 as [|[k1 v1] m1 IH1]; cbn [addToSimilarMessage]; intros m2 H2;
        [discriminate|].
      destruct (areSimilarKeyPoints (trim (toLowerCase msg)) k1).
      - now injection H2 as <-.
      - destruct (addToSimilarMessage (trim (toLowerCase msg)) (mrModel mr) m1)
          as [m3|]; [|discriminate].
        injection H2 as <-. cbn [map fst]. now rewrite (IH1 m3 eq_refl). }
    split.
    + cbn [map fst]. rewrite (Hkeys m m0 E). exact Hnd.
    + constructor; assumption.
Qed.

Lemma map_set_Forall : forall (V : Type) (P : jsstring * V -> Prop) k v m,
  P (k, v) -> Forall P m -> Forall P (map_set k v m).
Proof.
  intros V P k v m Hk H. induction H as [|[k' v'] m Hx Hm IH]; cbn [map_set].
  - constructor; [exact Hk | constructor].
  - destruct (str_eqb k k') eqn:E.
    + apply str_eqb_eq in E. subst k'. constructor; assumption.
    + constructor; assumption.
Qed.

Lemma addMessage_ok : forall mr msg m,
  In mr rs -> In msg (coreStableMessages (analysis (mrResult mr))) ->
  messages_ok rs m -> messages_ok rs (addMessage (mrModel mr) m msg).
Proof.
  intros mr msg m Hmr Hmsg H. unfold addMessage. cbv zeta.
  destruct (addToSimilarMessage (trim (toLowerCase msg)) (mrModel mr) m)
    as [m'|] eqn:E.
  - exact (@addToSimilarMessage_ok mr msg m m' Hmr Hmsg H E).
  - destruct H as [Hnd Hall]. split; [now apply map_set_NoDup|].
    apply map_set_Forall; [|exact Hall].
    split; [constructor; [intros [] | constructor]|]. cbn [fst snd]. split.
    + intros mo [<- | []]. exists mr. split; [exact Hmr|]. split; [reflexivity|].
      exists msg. split; [exact Hmsg | now left].
    + now exists mr, msg.
Qed.

Lemma fold_addMessage_ok : forall mr msgs m,
  In mr rs ->
  (forall msg, In msg msgs -> In msg (coreStableMessages (analysis (mrResult mr)))) ->
  messages_ok rs m ->
  messages_ok rs (fold_left (addMessage (mrModel mr)) msgs m).
Proof.
  intros mr msgs. induction msgs as [|msg msgs IH]; intros m Hmr Hsub H;
    cbn [fold_left]; [exact H|].
  apply IH; [exact Hmr | intros x Hx; apply Hsub; now right|].
  apply addMessage_ok; [exact Hmr | apply Hsub; now left | exact H].
Qed.

Lemma collect_ok : forall todo m,
  (forall mr, In mr todo -> In mr rs) ->
  messages_ok rs m ->
  messages_ok rs
    (fold_left (fun messageModelMap mr =>
        fold_left (addMessage (mrModel mr))
          (coreStableMessages (analysis (mrResult mr))) messageModelMap)
      todo m).
Proof.
  induction todo as [|mr todo IH]; intros m Hsub H; cbn [fold_left]; [exact H|].
  apply IH; [intros x Hx; apply Hsub; now right|].
  apply fold_addMessage_ok; [apply Hsub; now left | tauto | exact H].
Qed.

End MessageFacts.

Lemma collectMessages_ok : forall rs, messages_ok rs (collectMessages rs).
Proof.
  intro rs. unfold collectMessages. apply collect_ok; [tauto|].
  split; constructor.
Qed.

(** The loop over [messageModelMap] in closed form. *)
Lemma classifyMessage_fold : forall T m acc,
  let r := fold_left (classifyMessage T) m acc in
  universalCore r
    = universalCore acc ++ map fst (filter (fun e => length (snd e) =? T) m) /\
  crossModelVariable r
    = crossModelVariable acc
      ++ map (fun e => {| cmMessage := fst e; appearsInModels := snd e;
                          cmFrequency :=
                            Math_round (num (length (snd e)) / num T * 100)%float |})
           (filter (fun e => negb (length (snd e) =? T) && (1 <? length (snd e))) m).
Proof.
  intros T m. induction m as [|[k models] m IH]; intro acc; cbv zeta in *;
    cbn [fold_left filter map].
  - now rewrite !app_nil_r.
  - destruct (IH (classifyMessage T acc (k, models))) as [IH1 IH2].
    rewrite IH1, IH2. unfold classifyMessage. cbn [fst snd].
    destruct (length models =? T); cbn [negb andb universalCore crossModelVariable map fst].
    + now rewrite <- app_assoc.
    + destruct (1 <? length models);
        cbn [universalCore crossModelVariable map fst snd];
        [now rewrite <- app_assoc | tauto].
Qed.

Lemma NoDup_two_filters : forall (V : Type) (p q : jsstring * V -> bool) m,
  NoDup (map fst m) ->
  (forall e, p e = true -> q e = true -> False) ->
  NoDup (map fst (filter p m) ++ map fst (filter q m)).
Proof.
  intros V p q m Hnd Hpq.
  assert (Hsub : forall (r : jsstring * V -> bool) k,
            In k (map fst (filter r m)) -> exists e, In e m /\ fst e = k /\ r e = true).
  { intros r k Hk. apply in_map_iff in Hk. destruct Hk as [e [<- He]].
    apply filter_In in He. now exists e. }
  assert (Hf : forall r : jsstring * V -> bool, NoDup (map fst (filter r m))).
  { intro r. clear Hsub. induction m as [|e m IH]; cbn [filter map]; [constructor|].
    inversion Hnd as [|? ? Hx Hl]; subst. destruct (r e); cbn [map].
    - constructor; [|now apply IH]. intro H. apply Hx.
      apply in_map_iff in H. destruct H as [e' [<- He']].
      apply filter_In in He'. apply in_map. tauto.
    - now apply IH. }
  apply NoDup_app; [apply Hf | apply Hf|].
  intros k Hp Hq. apply Hsub in Hp, Hq.
  destruct Hp as (e1 & H1 & E1 & P1), Hq as (e2 & H2 & E2 & Q2).
  assert (e1 = e2).
  { apply (@NoDup_map_inj _ _ fst m e1 e2 Hnd H1 H2). congruence. }
  subst e2. exact (Hpq e1 P1 Q2).
Qed.

(** X27: for results of distinct models, findUniversalMessages reports every
    message at most once; a universal message is supported by every
    model (each has a core message whose normalized form is the message
    or is similar to it); a cross-model variable message exists only
    with three models, names exactly two of them, both supporting it,
    and has frequency 67; every reported message is the lower-cased,
    trimmed form of a core message of some model. *)
Theorem findUniversalMessages_spec :
  forall modelResults : list ModelExperimentResult,
  NoDup (map mrModel modelResults) ->
  let found := findUniversalMessages modelResults in
  NoDup (universalCore found ++ map cmMessage (crossModelVariable found)) /\
  (forall message0, In message0 (universalCore found) ->
     forall mr, In mr modelResults -> supports mr message0) /\
  (forall v, In v (crossModelVariable found) ->
     length modelResults = 3 /\
     length (appearsInModels v) = 2 /\ NoDup (appearsInModels v) /\
     cmFrequency v = 67%float /\
     forall mr, In mr modelResults -> In (mrModel mr) (appearsInModels v) ->
       supports mr (cmMessage v)) /\
  (forall message0,
     In message0 (universalCore found ++ map cmMessage (crossModelVariable found)) ->
     exists mr msg, In mr modelResults /\
       In msg (coreStableMessages (analysis (mrResult mr))) /\
       message0 = trim (toLowerCase msg)) /\
  (length modelResults <= 2 -> crossModelVariable found = []).
Proof.
  intros modelResults Hmodels found.
  set (T := length modelResults).
  set (m := collectMessages modelResults).
  set (isUniversal := fun e : jsstring * list Model => length (snd e) =? T).
  set (isVariable := fun e : jsstring * list Model =>
                       negb (length (snd e) =? T) && (1 <? length (snd e))).
  set (variableOf := fun e : jsstring * list Model =>
         {| cmMessage := fst e; appearsInModels := snd e;
            cmFrequency := Math_round (num (length (snd e)) / num T * 100)%float |}).
  destruct (collectMessages_ok modelResults) as [Hnd Hall]. fold m in Hnd, Hall.
  rewrite Forall_forall in Hall.
  assert (HT : T <= 3).
  { unfold T. rewrite <- (length_map mrModel). now apply models_at_most_three. }
  assert (Hcore : universalCore found = map fst (filter isUniversal m)
                  \/ (modelResults = [] /\ universalCore found = [])).
  { unfold found, findUniversalMessages. fold T.
    destruct (T =? 0) eqn:E0.
    - right. split; [|reflexivity]. apply Nat.eqb_eq in E0. now apply length_zero_iff_nil.
    - left. fold m. cbn [universalCore].
      destruct (classifyMessage_fold T m {| universalCore := []; crossModelVariable := [] |})
        as [H1 _]. exact H1. }
  assert (Hvar : Permutation (crossModelVariable found)
                   (map variableOf (filter isVariable m))
                 \/ (modelResults = [] /\ crossModelVariable found = [])).
  { unfold found, findUniversalMessages. fold T.
    destruct (T =? 0) eqn:E0.
    - right. split; [|reflexivity]. apply Nat.eqb_eq in E0. now apply length_zero_iff_nil.
    - left. fold m. cbn [crossModelVariable].
      destruct (classifyMessage_fold T m {| universalCore := []; crossModelVariable := [] |})
        as [_ H2]. rewrite H2. apply array_sort_Permutation. }
  assert (Hsize : forall e, In e m ->
            NoDup (snd e) /\ length (snd e) <= T /\
            forall mr, In mr modelResults -> In (mrModel mr) (snd e) ->
              supports mr (fst e)).
  { intros e He. destruct (Hall e He) as (H1 & H2 & _).
    split; [exact H1|]. split.
    - unfold T. rewrite <- (length_map mrModel). apply (NoDup_incl_length H1).
      intros mo Hmo. destruct (H2 mo Hmo) as (mr & Hmr & <- & _). now apply in_map.
    - intros mr Hmr Hin. destruct (H2 _ Hin) as (mr' & Hmr' & E & Hs).
      assert (mr' = mr) by exact (@NoDup_map_inj _ _ mrModel modelResults mr' mr
                                    Hmodels Hmr' Hmr E).
      now subst mr'. }
  assert (Hvin : forall v, In v (crossModelVariable found) ->
            exists e, In e m /\ isVariable e = true /\ v = variableOf e).
  { intros v Hv. destruct Hvar as [Hp | [_ Hnil]]; [|rewrite Hnil in Hv; contradiction].
    apply (Permutation_in _ Hp) in Hv. apply in_map_iff in Hv.
    destruct Hv as [e [<- He]]. apply filter_In in He. now exists e. }
  split; [|split; [|split; [|split]]].
  - destruct Hcore as [Hc | [Hn _]]; [|subst modelResults; cbn; constructor].
    destruct Hvar as [Hv | [Hn _]]; [|subst modelResults; cbn; constructor].
    rewrite Hc.
    apply (Permutation_NoDup
             (l := map fst (filter isUniversal m) ++ map fst (filter isVariable m))).
    + apply Permutation_app_head. symmetry.
      eapply Permutation_trans; [apply Permutation_map; exact Hv|].
      rewrite map_map. apply Permutation_refl.
    + apply NoDup_two_filters; [exact Hnd|].
      intros e Hp Hq. unfold isUniversal, isVariable in *. rewrite Hp in Hq.
      discriminate.
  - intros message0 Hm mr Hmr.
    destruct Hcore as [Hc | [Hn _]]; [|subst modelResults; contradiction].
    rewrite Hc in Hm. apply in_map_iff in Hm. destruct Hm as [e [<- He]].
    apply filter_In in He. destruct He as [He Hu]. unfold isUniversal in Hu.
    apply Nat.eqb_eq in Hu.
    destruct (Hsize e He) as (H1 & _ & H3). apply H3; [exact Hmr|].
    destruct (Hall e He) as (_ & H2 & _).
    assert (Hincl : incl (snd e) (map mrModel modelResults)).
    { intros mo Hmo. destruct (H2 mo Hmo) as (mr' & Hmr' & <- & _). now apply in_map. }
    apply (NoDup_length_incl H1) in Hincl; [|rewrite length_map; fold T; lia].
    apply Hincl. now apply in_map.
  - intros v Hv. destruct (Hvin v Hv) as (e & He & Hq & ->).
    destruct (Hsize e He) as (H1 & H2 & H3).
    unfold isVariable in Hq. apply andb_true_iff in Hq. destruct Hq as [Hq1 Hq2].
    apply negb_true_iff, Nat.eqb_neq in Hq1. apply Nat.ltb_lt in Hq2.
    assert (E2 : length (snd e) = 2) by lia.
    assert (E3 : T = 3) by lia.
    cbn [variableOf appearsInModels cmFrequency cmMessage].
    split; [exact E3|]. split; [exact E2|]. split; [exact H1|]. split; [|exact H3].
    unfold variableOf. cbn [cmFrequency]. rewrite E2, E3. vm_compute. reflexivity.
  - intros message0 Hm. apply in_app_iff in Hm. destruct Hm as [Hm | Hm].
    + destruct Hcore as [Hc | [_ Hc]]; rewrite Hc in Hm; [|contradiction].
      apply in_map_iff in Hm. destruct Hm as [e [<- He]].
      apply filter_In in He. destruct He as [He _].
      destruct (Hall e He) as (_ & _ & H3). exact H3.
    + apply in_map_iff in Hm. destruct Hm as [v [<- Hv]].
      destruct (Hvin v Hv) as (e & He & _ & ->).
      destruct (Hall e He) as (_ & _ & H3). exact H3.
  - intro Hle. destruct (crossModelVariable found) as [|v l] eqn:Ev; [reflexivity|].
    exfalso. destruct (Hvin v) as (e & He & Hq & _); [now left|].
    destruct (Hsize e He) as (_ & H2 & _).
    unfold isVariable in Hq. apply andb_true_iff in Hq. destruct Hq as [Hq1 Hq2].
    apply negb_true_iff, Nat.eqb_neq in Hq1. apply Nat.ltb_lt in Hq2.
    fold T in Hle. lia.
Qed.

Lemma findUniversalMessages_spec_witness :
  NoDup (map mrModel sampleModelResults) /\
  universalCore (findUniversalMessages sampleModelResults)
    = [str "asana is great for task tracking"] /\
  map cmMessage (crossModelVariable (findUniversalMessages sampleModelResults))
    = [str "trello offers simple kanban boards"] /\
  NoDup (universalCore (findUniversalMessages sampleModelResults)
         ++ map cmMessage (crossModelVariable (findUniversalMessages sampleModelResults))).
Proof.
  assert (H : NoDup (map mrModel sampleModelResults)).
  { cbn. repeat constructor; cbn; intuition discriminate. }
  split; [exact H|]. split; [vm_compute; reflexivity|].
  split; [vm_compute; reflexivity|].
  exact (proj1 (findUniversalMessages_spec sampleModelResults H)).
Defined.

(** ** runExperiment: one failing model does not stop the others *)

Section ExperimentFacts.
Variable llm : QueryCapability.
Variable extractBrandsFromResponses : BrandExtractor.
Variable options : ExperimentOptions.











End ExperimentFacts.


(** The sample experiment: the Gemini analysis fails and is logged, the
    Grok analysis is kept, and the error callback of the options is never
    called. *)
Example runExperiment_sample :
  let run := runExperiment sampleExperimentLlm (fun _ => []) sampleExperimentOptions in
  (exists r, fst run = ExperimentReturns r
             /\ modelsUsed (expMetadata r) = [grok]
             /\ map (fun mr => metaIterations (metadata (mrResult mr)))
                  (expModelResults r) = [2]) /\
  modelErrorsLogged (snd run) = [(gemini, AllIterationsFailed)] /\
  modelErrorsDelivered (snd run) = [].
Proof.
  intro run. split; [|split; vm_compute; reflexivity].
  assert (E : match fst run with
              | ExperimentReturns r =>
                  modelsUsed (expMetadata r) = [grok]
                  /\ map (fun mr => metaIterations (metadata (mrResult mr)))
                       (expModelResults r) = [2]
              | ExperimentThrows _ => False
              end) by (vm_compute; split; reflexivity).
  destruct (fst run) as [r | e]; [|contradiction].
  exists r. split; [reflexivity | exact E].
Qed.

(** ** cleanResponse on text without markdown *)

Section PlainTextFacts.

Lemma plainText_tail : forall c s, plainText (c :: s) = true -> plainText s = true.
Proof.
  intros c s H. unfold plainText in *. cbn [forallb noDigitBeforeDot] in H.
  apply andb_true_iff in H. destruct H as [H1 H2].
  apply andb_true_iff in H1, H2. destruct H1 as [_ H1], H2 as [_ H2].
  now rewrite H1, H2.
Qed.

Lemma plainText_skipn : forall n s, plainText s = true -> plainText (skipn n s) = true.
Proof.
  induction n as [|n IH]; intros s H; [exact H|].
  destruct s as [|c s]; [exact H|]. cbn [skipn]. apply IH.
  now apply plainText_tail in H.
Qed.

Lemma plainText_head : forall c s,
  plainText (c :: s) = true -> isMarkdownMarker c = false.
Proof.
  intros c s H. unfold plainText in H. cbn [forallb] in H.
  apply andb_true_iff in H. destruct H as [H _].
  apply andb_true_iff in H. destruct H as [H _]. now apply negb_true_iff in H.
Qed.

Lemma marker_chars : forall c,
  isMarkdownMarker c = false ->
  isChar 35 c = false /\ isChar 42 c = false /\ isChar 45 c = false
  /\ isChar 95 c = false /\ isChar 96 c = false.
Proof.
  intros c H. unfold isMarkdownMarker in H.
  repeat (apply orb_false_iff in H; destruct H as [H ?]). now repeat split.
Qed.

(** An expression that matches nowhere in plain text leaves it as it is. *)
Lemma replaceAllFrom_plain : forall (m : Matcher),
  (forall prev s, plainText s = true -> m prev s = None) ->
  forall s prev, plainText s = true -> replaceAllFrom m prev s 0 = s.
Proof.
  intros m Hm. induction s as [|c s IH]; intros prev H; [reflexivity|].
  cbn [replaceAllFrom]. rewrite (Hm prev (c :: s) H).
  f_equal. apply IH. now apply plainText_tail in H.
Qed.

Lemma headerMatcher_plain : forall prev s,
  plainText s = true -> headerMatcher prev s = None.
Proof.
  intros prev s H. unfold headerMatcher. destruct (atLineStart prev); [|reflexivity].
  destruct s as [|c s]; [reflexivity|].
  apply plainText_head, marker_chars in H. destruct H as (H & _).
  cbn [takeWhile]. now rewrite H.
Qed.

Lemma emphasisMatcher_plain : forall delim rest prev s,
  (isChar 42 delim = true \/ isChar 95 delim = true) ->
  plainText s = true -> emphasisMatcher (delim :: rest) prev s = None.
Proof.
  intros delim rest prev s Hd H. unfold emphasisMatcher.
  destruct s as [|c s]; [reflexivity|].
  apply plainText_head, marker_chars in H. destruct H as (_ & H42 & _ & H95 & _).
  cbn [startsWith].
  destruct (Ascii.eqb delim c) eqn:E; [|reflexivity].
  apply Ascii.eqb_eq in E. subst c. destruct Hd; congruence.
Qed.

Lemma bulletMatcher_plain : forall prev s,
  plainText s = true -> bulletMatcher prev s = None.
Proof.
  intros prev s H. unfold bulletMatcher. destruct (atLineStart prev); [|reflexivity].
  cbv zeta.
  pose proof (@plainText_skipn (length (takeWhile isSpace s)) s H) as Hs.
  destruct (skipn (length (takeWhile isSpace s)) s) as [|c rest]; [reflexivity|].
  apply plainText_head, marker_chars in Hs. destruct Hs as (_ & H42 & H45 & _).
  now rewrite H42, H45.
Qed.

Lemma digits_then_dot : forall t c rest,
  noDigitBeforeDot t = true ->
  1 <= length (takeWhile isDigit t) ->
  skipn (length (takeWhile isDigit t)) t = c :: rest ->
  isChar 46 c = false.
Proof.
  induction t as [|d t IH]; intros c rest H L E; [cbn in L; lia|].
  cbn [takeWhile] in L, E. destruct (isDigit d) eqn:Ed; [|cbn in L; lia].
  cbn [length skipn] in E. cbn [noDigitBeforeDot] in H.
  apply andb_true_iff in H. destruct H as [H1 H2].
  destruct (length (takeWhile isDigit t)) as [|n] eqn:El.
  - cbn [skipn] in E. subst t. rewrite Ed in H1. cbn [andb] in H1.
    now apply negb_true_iff in H1.
  - apply (IH c rest H2); rewrite ?El; [lia | exact E].
Qed.

Lemma numberedMatcher_plain : forall prev s,
  plainText s = true -> numberedMatcher prev s = None.
Proof.
  intros prev s H. unfold numberedMatcher. destruct (atLineStart prev); [|reflexivity].
  cbv zeta. set (ws := length (takeWhile isSpace s)).
  set (digits := length (takeWhile isDigit (skipn ws s))).
  destruct (1 <=? digits) eqn:L; [|reflexivity]. apply Nat.leb_le in L.
  rewrite Nat.add_comm, <- skipn_skipn.
  destruct (skipn digits (skipn ws s)) as [|c rest] eqn:E; [reflexivity|].
  pose proof (@plainText_skipn ws s H) as Hs. unfold plainText in Hs.
  apply andb_true_iff in Hs. destruct Hs as [_ Hs].
  now rewrite (@digits_then_dot (skipn ws s) c rest Hs L E).
Qed.

Lemma fenceMatcher_plain : forall prev s,
  plainText s = true -> fenceMatcher prev s = None.
Proof.
  intros prev s H. unfold fenceMatcher. destruct s as [|c s]; [reflexivity|].
  apply plainText_head, marker_chars in H. destruct H as (_ & _ & _ & _ & H96).
  cbn [str list_ascii_of_string startsWith].
  destruct (Ascii.eqb "`"%char c) eqn:E; [|reflexivity].
  apply Ascii.eqb_eq in E. subst c. discriminate.
Qed.

Lemma inlineCodeMatcher_plain : forall prev s,
  plainText s = true -> inlineCodeMatcher prev s = None.
Proof.
  intros prev s H. unfold inlineCodeMatcher. destruct s as [|c s]; [reflexivity|].
  apply plainText_head, marker_chars in H. destruct H as (_ & _ & _ & _ & H96).
  now rewrite H96.
Qed.

Lemma stripMarkdown_plain : forall text,
  plainText text = true -> stripMarkdown text = text.
Proof.
  intros text H. unfold stripMarkdown, replaceAll. cbv zeta.
  assert (E : forall d r, isChar 42 d = true \/ isChar 95 d = true ->
            replaceAllFrom (emphasisMatcher (d :: r)) None text 0 = text).
  { intros d r Hd. apply replaceAllFrom_plain; [|exact H].
    intros prev s Hs. now apply emphasisMatcher_plain. }
  rewrite (@replaceAllFrom_plain headerMatcher headerMatcher_plain text None H).
  cbn [str list_ascii_of_string].
  rewrite (E "*"%char ["*"%char]) by (left; reflexivity).
  rewrite (E "*"%char []) by (left; reflexivity).
  rewrite (E "_"%char ["_"%char]) by (right; reflexivity).
  rewrite (E "_"%char []) by (right; reflexivity).
  rewrite (@replaceAllFrom_plain bulletMatcher bulletMatcher_plain text None H).
  rewrite (@replaceAllFrom_plain numberedMatcher numberedMatcher_plain text None H).
  rewrite (@replaceAllFrom_plain fenceMatcher fenceMatcher_plain text None H).
  now rewrite (@replaceAllFrom_plain inlineCodeMatcher inlineCodeMatcher_plain text None H).
Qed.

(** Dropping a repeated space or line feed, or white space at either end,
    keeps text plain. *)
Lemma plainText_cons_eq : forall c s,
  plainText (c :: s)
  = negb (isMarkdownMarker c)
    && match s with
       | d :: _ => negb (isDigit c && isChar 46 d)
       | [] => true
       end
    && plainText s.
Proof.
  intros c s. unfold plainText. cbn [forallb noDigitBeforeDot].
  rewrite <- !andb_assoc. f_equal. rewrite !andb_assoc. f_equal. apply andb_comm.
Qed.

Lemma plainText_cons : forall c s,
  plainText (c :: s) = true
  <-> isMarkdownMarker c = false
      /\ match s with d :: _ => isDigit c && isChar 46 d = false | [] => True end
      /\ plainText s = true.
Proof.
  intros c s. rewrite plainText_cons_eq, !andb_true_iff, negb_true_iff.
  destruct s as [|d s]; [intuition|]. rewrite negb_true_iff. intuition.
Qed.

Lemma plainText_squeezeFrom : forall ch s b,
  isDigit ch = false -> isChar 46 ch = false ->
  plainText s = true ->
  plainText (squeezeFrom ch b s) = true
  /\ match s, squeezeFrom ch b s with
     | c :: _, c' :: _ => c' = c \/ (b = true /\ c = ch)
     | _, _ => True
     end.
Proof.
  intros ch s. induction s as [|c s IH]; intros b Hd Hdot H; [now split|].
  apply plainText_cons in H. destruct H as (Hm & Hnext & Hs).
  cbn [squeezeFrom]. destruct (Ascii.eqb c ch) eqn:E.
  - apply Ascii.eqb_eq in E. subst c. destruct (IH true Hd Hdot Hs) as [IH1 IH2].
    destruct b.
    + split; [exact IH1|]. destruct (squeezeFrom ch true s); [exact I | now right].
    + split; [|now left]. apply plainText_cons. split; [exact Hm|]. split; [|exact IH1].
      destruct (squeezeFrom ch true s) as [|d r]; [exact I|]. now rewrite Hd.
  - destruct (IH false Hd Hdot Hs) as [IH1 IH2]. split; [|now left].
    apply plainText_cons. split; [exact Hm|]. split; [|exact IH1].
    destruct s as [|d s']; [exact I|].
    destruct (squeezeFrom ch false (d :: s')) as [|d' r]; [exact I|].
    destruct IH2 as [-> | [Hb _]]; [exact Hnext | discriminate].
Qed.

Lemma plainText_dropWhile : forall p s,
  plainText s = true -> plainText (dropWhile p s) = true.
Proof.
  intros p s. induction s as [|c s IH]; intro H; [exact H|].
  cbn [dropWhile]. destruct (p c); [|exact H].
  apply IH. now apply plainText_tail in H.
Qed.

Lemma plainText_app_l : forall s1 s2,
  plainText (s1 ++ s2) = true -> plainText s1 = true.
Proof.
  induction s1 as [|c s1 IH]; intros s2 H; [reflexivity|].
  cbn [app] in H. apply plainText_cons in H. destruct H as (Hm & Hnext & Hs).
  apply plainText_cons. split; [exact Hm|]. split; [|now apply (IH s2)].
  destruct s1 as [|d s1]; [exact I | exact Hnext].
Qed.

Lemma plainText_trim : forall s, plainText s = true -> plainText (trim s) = true.
Proof.
  intros s H. unfold trim. apply (plainText_dropWhile isSpace) in H.
  fold (trimStart s) in H. rewrite (trimEnd_prefix (trimStart s)) in H.
  now apply plainText_app_l in H.
Qed.

Lemma plainText_normalizeWhitespace : forall s,
  plainText s = true -> plainText (normalizeWhitespace s) = true.
Proof.
  intros s H. unfold normalizeWhitespace, squeeze. cbv zeta.
  apply plainText_trim.
  apply plainText_squeezeFrom; [reflexivity | reflexivity|].
  apply plainText_squeezeFrom; [reflexivity | reflexivity | exact H].
Qed.

End PlainTextFacts.

(** X29: text without markdown passes through cleanResponse with its white
    space normalised and nothing else changed: when the text holds none of
    the characters #, *, -, _ and backquote, and no digit directly before
    a full stop, no markdown expression matches, the result is plain
    again, and cleaning it a second time changes nothing. *)
Theorem cleanResponse_plain_text : forall text,
  plainText text = true ->
  stripMarkdown text = text /\
  cleanResponse text = normalizeWhitespace text /\
  plainText (cleanResponse text) = true /\
  cleanResponse (cleanResponse text) = cleanResponse text.
Proof.
  intros text H.
  assert (Hs : stripMarkdown text = text) by now apply stripMarkdown_plain.
  assert (Hc : cleanResponse text = normalizeWhitespace text).
  { unfold cleanResponse. now rewrite Hs. }
  assert (Hp : plainText (cleanResponse text) = true).
  { rewrite Hc. now apply plainText_normalizeWhitespace. }
  split; [exact Hs|]. split; [exact Hc|]. split; [exact Hp|].
  unfold cleanResponse at 1. rewrite (stripMarkdown_plain _ Hp).
  rewrite Hc. apply normalizeWhitespace_idem.
Qed.

Lemma cleanResponse_plain_text_witness :
  let text := str "  Asana is great for teams.  It costs 10 dollars a month. " in
  plainText text = true /\
  cleanResponse text = str "Asana is great for teams. It costs 10 dollars a month." /\
  cleanResponse (cleanResponse text) = cleanResponse text.
Proof.
  intro text.
  assert (H : plainText text = true) by (vm_compute; reflexivity).
  split; [exact H|].
  destruct (cleanResponse_plain_text text H) as (_ & Hc & _ & Hi).
  split; [rewrite Hc; vm_compute; reflexivity | exact Hi].
Defined.

(** ** analyzeStability: how the result is put together *)

Section ResultFacts.
Variable llm : QueryCapability.
Variable options : StabilityOptions.
Variable n : nat.




End ResultFacts.




